(** * Zyntax NLP terminal: intent resolution and command pipelines

    A shallow embedding of [nlp_engine/command_pipeline.py],
    [nlp_engine/enhanced_parser.py] and [interface/enhanced_interface.py].

    Texts are Python [str] values restricted to the code points 0..255,
    represented as [string].  The external collaborators of the program
    (the spaCy tokenizer and matchers, the rapidfuzz scorers, the delegated
    executor, [subprocess.run] and [tempfile]) are parameters of the
    development. *)

From Stdlib Require Import Bool List String Ascii Arith NArith ZArith QArith Lia.
Import ListNotations.

Close Scope Q_scope.
Close Scope Z_scope.
Local Open Scope nat_scope.
Local Open Scope string_scope.
Local Open Scope list_scope.

Set Implicit Arguments.

(* ===================================================================== *)
(** ** Python string primitives *)
(* ===================================================================== *)

Module Py.

Definition code (c : ascii) : N := N_of_ascii c.

Definition between (lo hi : N) (c : ascii) : bool :=
  (lo <=? code c)%N && (code c <=? hi)%N.

(** [str.isspace] on a single character (also the class [\s] of [re]). *)
Definition is_space (c : ascii) : bool :=
  between 9 13 c || between 28 32 c
  || (code c =? 133)%N || (code c =? 160)%N.

(** The class [\w] of [re] for [str] patterns: alphanumerics and [_]. *)
Definition is_word (c : ascii) : bool :=
  between 48 57 c || between 65 90 c || (code c =? 95)%N
  || between 97 122 c
  || (code c =? 170)%N || between 178 179 c || (code c =? 181)%N
  || between 185 186 c || between 188 190 c
  || between 192 214 c || between 216 246 c || between 248 255 c.

Definition lower_char (c : ascii) : ascii :=
  if between 65 90 c || between 192 214 c || between 216 222 c
  then ascii_of_N (code c + 32) else c.

(** [str.lower] *)
Fixpoint lower (s : string) : string :=
  match s with
  | EmptyString => EmptyString
  | String c s' => String (lower_char c) (lower s')
  end.

Fixpoint lstrip (s : string) : string :=
  match s with
  | EmptyString => EmptyString
  | String c s' => if is_space c then lstrip s' else s
  end.

Definition is_empty (s : string) : bool :=
  match s with EmptyString => true | _ => false end.

Fixpoint rstrip (s : string) : string :=
  match s with
  | EmptyString => EmptyString
  | String c s' =>
      let r := rstrip s' in
      if is_space c && is_empty r then EmptyString else String c r
  end.

(** [str.strip()] *)
Definition strip (s : string) : string := rstrip (lstrip s).

(** [p] is an initial segment of [s]. *)
Fixpoint prefix (p s : string) : bool :=
  match p with
  | EmptyString => true
  | String c p' =>
      match s with
      | String a s' => Ascii.eqb c a && prefix p' s'
      | EmptyString => false
      end
  end.

(** [str.startswith] *)
Definition startswith (s pre : string) : bool := prefix pre s.

(** Truthiness of a [str]. *)
Definition truthy (s : string) : bool := negb (is_empty s).

(** [s.split(sep)] for a non-empty separator: the text is cut at the
    leftmost non-overlapping occurrences of [sep].  [skip] counts the
    characters of a separator occurrence that remain to be dropped. *)
Fixpoint split_go (sep : string) (skip : nat) (s : string) : list string :=
  match skip with
  | S n =>
      match s with
      | String _ s' => split_go sep n s'
      | EmptyString => [EmptyString]
      end
  | O =>
      match s with
      | EmptyString => [EmptyString]
      | String c s' =>
          if prefix sep s
          then EmptyString :: split_go sep (String.length sep - 1) s'
          else match split_go sep 0 s' with
               | h :: t => String c h :: t
               | [] => [String c EmptyString]
               end
      end
  end.

Definition split (s sep : string) : list string := split_go sep 0 s.

(** [sep.join(parts)] *)
Fixpoint join (sep : string) (parts : list string) : string :=
  match parts with
  | [] => EmptyString
  | [p] => p
  | p :: rest => p ++ sep ++ join sep rest
  end.

(** [x in s] for strings: substring test. *)
Fixpoint contains (s x : string) : bool :=
  prefix x s
  || match s with
     | EmptyString => false
     | String _ s' => contains s' x
     end.

Fixpoint count_char (c : ascii) (s : string) : nat :=
  match s with
  | EmptyString => 0
  | String a s' => (if Ascii.eqb a c then 1 else 0) + count_char c s'
  end.

End Py.

(* ===================================================================== *)
(** ** The fragment of Python's [re] used by the pipeline code *)
(* ===================================================================== *)

Module Re.

(** Patterns are compiled with [re.IGNORECASE]; a literal matches a
    character when both have the same lower-case form. *)
Inductive regex : Type :=
| Eps
| Chr (c : ascii)                 (* a literal character *)
| WordB                           (* \b *)
| Spaces0                         (* \s*, greedy *)
| Spaces1                         (* \s+, greedy *)
| Seq (r1 r2 : regex)
| Alt (r1 r2 : regex)             (* r1|r2, r1 tried first *)
| Opt (r : regex).                (* (?:r)?, greedy *)

Definition ci_eqb (c a : ascii) : bool :=
  Ascii.eqb (Py.lower_char c) (Py.lower_char a).

Definition word_opt (o : option ascii) : bool :=
  match o with Some c => Py.is_word c | None => false end.

Definition head (s : string) : option ascii :=
  match s with String c _ => Some c | EmptyString => None end.

(** [\b] holds between [prev] and the rest of the text when exactly one
    side is a word character (the ends of the text count as non-word). *)
Definition at_boundary (prev : option ascii) (s : string) : bool :=
  xorb (word_opt prev) (word_opt (head s)).

Section Matcher.
Variable A : Type.

Definition cont := option ascii -> string -> option A.

(** Greedy run of whitespace with backtracking. *)
Fixpoint spaces (prev : option ascii) (s : string) (k : cont) : option A :=
  match s with
  | String c s' =>
      if Py.is_space c
      then match spaces (Some c) s' k with
           | Some x => Some x
           | None => k prev s
           end
      else k prev s
  | EmptyString => k prev s
  end.

(** Backtracking matcher in continuation-passing style: [k] receives
    the last consumed character and the unconsumed text. *)
Fixpoint run (r : regex) (prev : option ascii) (s : string) (k : cont)
  : option A :=
  match r with
  | Eps => k prev s
  | Chr c =>
      match s with
      | String a s' => if ci_eqb c a then k (Some a) s' else None
      | EmptyString => None
      end
  | WordB => if at_boundary prev s then k prev s else None
  | Spaces0 => spaces prev s k
  | Spaces1 =>
      match s with
      | String a s' => if Py.is_space a then spaces (Some a) s' k else None
      | EmptyString => None
      end
  | Seq r1 r2 => run r1 prev s (fun p s' => run r2 p s' k)
  | Alt r1 r2 =>
      match run r1 prev s k with
      | Some x => Some x
      | None => run r2 prev s k
      end
  | Opt r1 =>
      match run r1 prev s k with
      | Some x => Some x
      | None => k prev s
      end
  end.
End Matcher.

(** Length of the match of [r] anchored at the current position. *)
Definition match_len (r : regex) (prev : option ascii) (s : string)
  : option nat :=
  run r prev s (fun _ s' => Some (String.length s - String.length s')).

Definition matches_here (r : regex) (prev : option ascii) (s : string)
  : bool :=
  match run r prev s (fun _ _ => Some tt) with
  | Some _ => true
  | None => false
  end.

Fixpoint search_from (r : regex) (prev : option ascii) (s : string) : bool :=
  matches_here r prev s
  || match s with
     | String c s' => search_from r (Some c) s'
     | EmptyString => false
     end.

(** [bool(pattern.search(text))] *)
Definition search (r : regex) (text : string) : bool :=
  search_from r None text.

(** [pattern.sub(repl, text)] for a literal replacement: leftmost
    non-overlapping matches are replaced.  [skip] counts the characters of
    the current match that remain to be dropped. *)
Fixpoint sub_go (r : regex) (repl : string) (prev : option ascii)
  (skip : nat) (s : string) : string :=
  match skip with
  | S n =>
      match s with
      | String c s' => sub_go r repl (Some c) n s'
      | EmptyString => EmptyString
      end
  | O =>
      match match_len r prev s with
      | Some (S n) =>
          repl ++ match s with
                  | String c s' => sub_go r repl (Some c) n s'
                  | EmptyString => EmptyString
                  end
      | Some O =>
          repl ++ match s with
                  | String c s' => String c (sub_go r repl (Some c) 0 s')
                  | EmptyString => EmptyString
                  end
      | None =>
          match s with
          | String c s' => String c (sub_go r repl (Some c) 0 s')
          | EmptyString => EmptyString
          end
      end
  end.

Definition sub (r : regex) (repl text : string) : string :=
  sub_go r repl None 0 text.

(** Pattern builders. *)
Fixpoint lit (w : string) : regex :=
  match w with
  | EmptyString => Eps
  | String c w' => Seq (Chr c) (lit w')
  end.

(** [r|r1|...|rn] *)
Fixpoint alts (r : regex) (rs : list regex) : regex :=
  match rs with
  | [] => r
  | r' :: rs' => Alt r (alts r' rs')
  end.

Fixpoint seqs (rs : list regex) : regex :=
  match rs with
  | [] => Eps
  | r :: rest => Seq r (seqs rest)
  end.

(** [r'\b' + w + r'\b'] *)
Definition word (w : string) : regex := seqs [WordB; lit w; WordB].

End Re.

(* ===================================================================== *)
(** ** command_pipeline.py: detection and splitting *)
(* ===================================================================== *)

Module PipelineDetector.
Import Re.

(** The group [(?:(?:show|display|list|find|count|sort))]. *)
Definition verb_alt : regex :=
  alts (lit "show") (map lit ["display"; "list"; "find"; "count"; "sort"]).

(** [self.pipeline_patterns], compiled with [re.IGNORECASE]:
    - [\band\s+(?:then)?\s*] followed by the verb group,
    - [(?:after|then|next)\s+] followed by the verb group,
    - [(?:pipe|send|pass)\s+(?:to|into)],
    - [followed\s+by],
    - [with\s+the\s+result]. *)
Definition pipeline_patterns : list regex :=
  [ seqs [WordB; lit "and"; Spaces1; Opt (lit "then"); Spaces0; verb_alt];
    seqs [alts (lit "after") [lit "then"; lit "next"]; Spaces1; verb_alt];
    seqs [alts (lit "pipe") [lit "send"; lit "pass"]; Spaces1;
          alts (lit "to") [lit "into"]];
    seqs [lit "followed"; Spaces1; lit "by"];
    seqs [lit "with"; Spaces1; lit "the"; Spaces1; lit "result"] ].

(** [self.complex_action_words] *)
Definition complex_action_words : list string :=
  ["find"; "search"; "filter"; "count"; "sort"; "analyze";
   "organize"; "categorize"; "group"; "aggregate"].

(** [action_patterns] of [is_pipeline]:
    [\b(?:list|show|find|get|display|count|sort)\b], [\bfiles\b] and
    [\btext\b]. *)
Definition action_words : list string :=
  ["list"; "show"; "find"; "get"; "display"; "count"; "sort"].

Definition action_patterns : list regex :=
  [ seqs [WordB;
          alts (lit "list")
            (map lit ["show"; "find"; "get"; "display"; "count"; "sort"]);
          WordB];
    word "files";
    word "text" ].

(** The first loop of [is_pipeline]. *)
Definition has_pipeline_pattern (text : string) : bool :=
  existsb (fun p => search p text) pipeline_patterns.

(** [action_count]: the complex action words found as whole words. *)
Definition action_count (text : string) : nat :=
  List.length (filter (fun w => search (word w) text) complex_action_words).

(** [parts = [p.strip() for p in text.split(',')]] *)
Definition comma_parts (text : string) : list string :=
  map Py.strip (Py.split text ",").

Definition is_action_part (part : string) : bool :=
  existsb (fun p => search p part) action_patterns.

Definition action_parts (parts : list string) : nat :=
  List.length (filter is_action_part parts).

(** The comma heuristic at the end of [is_pipeline]. *)
Definition comma_criterion (text : string) : bool :=
  let parts := comma_parts text in
  if (3 <=? List.length parts)%nat then (2 <=? action_parts parts)%nat
  else false.

(** [is_pipeline] *)
Definition is_pipeline (text : string) : bool :=
  if has_pipeline_pattern text then true
  else if (2 <=? action_count text)%nat then true
  else comma_criterion text.

End PipelineDetector.

Module Splitter.
Import Re.

(** [self.pipeline_indicators]: [\band\b], [\bthen\b], [\bafter that\b],
    [\bnext\b], [\bpipe to\b], [\bpipe into\b], [\bsend to\b],
    [\bpass to\b], [\bfollow(?:ed)? by\b] and [\bwith the result\b]. *)
Definition pipeline_indicators : list regex :=
  [ word "and"; word "then"; word "after that"; word "next";
    word "pipe to"; word "pipe into"; word "send to"; word "pass to";
    seqs [WordB; lit "follow"; Opt (lit "ed"); lit " by"; WordB];
    word "with the result" ].

(** [self.pipeline_pattern]: the alternation of all indicators. *)
Definition pipeline_pattern : regex :=
  alts (word "and") (tl pipeline_indicators).

(** [detect_pipeline] *)
Definition detect_pipeline (text : string) : bool :=
  search pipeline_pattern text.

Definition special_token : string := "###PIPELINE_SPLIT###".

(** The loop of [split_pipeline_stages]: one substitution per indicator,
    each on the result of the previous one. *)
Definition substitute (indicators : list regex) (text : string) : string :=
  fold_left (fun t indicator => sub indicator special_token t)
    indicators text.

Definition substitute_indicators (text : string) : string :=
  substitute pipeline_indicators text.

(** [split_pipeline_stages] *)
Definition split_pipeline_stages (text : string) : list string :=
  let stages :=
    map Py.strip (Py.split (substitute_indicators text) special_token) in
  filter Py.truthy stages.

End Splitter.

(* ===================================================================== *)
(** ** command_pipeline.py: execution *)
(* ===================================================================== *)

Module Exec.

(** [PipelineStage] *)
Record PipelineStage : Type := mkStage {
  action : string;
  args : list string;
  original_text : option string
}.

(** The dict [{'action': ..., 'args': ...}] handed to the executor. *)
Record Cmd : Type := mkCmd {
  cmd_action : string;
  cmd_args : list string
}.

(** A dict returned by the delegated executor, seen through the keys the
    pipeline reads with [result.get]. *)
Record ResultDict : Type := mkResultDict {
  rd_returncode : option Z;
  rd_stdout : option string;
  rd_stderr : option string
}.

(** The values the delegated executor can return. *)
Inductive PyValue : Type :=
| VDict (d : ResultDict)
| VNone
| VStr (s : string)
| VOther (truth : bool) (repr : string).   (* bool(v) and str(v) *)

Inductive Outcome : Type :=
| Returned (v : PyValue)
| Raised (msg : string).                   (* str(e) *)

(** What [subprocess.run(..., capture_output=True, check=False)] gives. *)
Inductive ProcOutcome : Type :=
| Completed (rc : Z) (out err : string)
| ProcRaised (msg : string).

(** The execution boundary: the delegated executor, the OS process
    primitive and the temporary-file primitives, over an abstract world.
    Writing a temporary file is taken to succeed; an executor or a process
    that raises is an outcome of its own. *)
Record Runtime : Type := mkRuntime {
  world : Type;
  executor : Cmd -> world -> Outcome * world;
  subprocess_run : list string -> option string -> world -> ProcOutcome * world;
  mktemp : string -> world -> string * world;      (* content -> file name *)
  unlink : string -> world -> world
}.

(** The result dicts built by the pipeline; keys that a dict may lack are
    optional. *)
Record Result : Type := mkResult {
  success : bool;
  error : option string;
  stdout : string;
  stderr : string;
  returncode : option Z;
  stages_executed : option nat;
  failed_stage : option nat
}.

Inductive Event : Type :=
| EvMapNative (stage : PipelineStage)               (* _map_to_native_command *)
| EvProcess (argv : list string) (input : option string)
| EvExecutor (cmd : Cmd)
| EvTempFile (name content : string)
| EvUnlink (name : string).

Definition empty_pipeline_result : Result :=
  {| success := false; error := Some "Empty pipeline"; stdout := "";
     stderr := "No commands to execute"; returncode := None;
     stages_executed := Some 0; failed_stage := None |}.

Definition python_handled_result : Result :=
  {| success := true; error := None;
     stdout := "Command executed successfully"; stderr := "";
     returncode := Some 0%Z; stages_executed := Some 1; failed_stage := None |}.

Definition from_opt {A} (d : A) (o : option A) : A :=
  match o with Some x => x | None => d end.

Definition stage_failure (r : Result) (stages_executed i : nat) : Result :=
  {| success := false; error := None; stdout := stdout r;
     stderr := stderr r;
     returncode := Some (from_opt 1%Z (returncode r));
     stages_executed := Some stages_executed; failed_stage := Some i |}.

Definition pipeline_success (current_input : option string)
  (stages_executed : nat) : Result :=
  {| success := true; error := None; stdout := from_opt "" current_input;
     stderr := ""; returncode := Some 0%Z;
     stages_executed := Some stages_executed; failed_stage := None |}.

(** [_map_to_native_command]; [input_data] and [is_last_stage] are
    accepted and ignored, as in the source. *)
Definition _map_to_native_command (stage : PipelineStage)
  (input_data : option string) (is_last_stage : bool)
  : option (list string) :=
  let action := action stage in
  let args := args stage in
  if action =? "list_files" then
    Some (match args with [] => ["ls"] | _ => ["ls"; "-la"] end)
  else if (action =? "display_file") && negb (Nat.eqb (List.length args) 0)
  then Some ("cat" :: args)
  else if (action =? "grep") || (action =? "find_text") then
    match args with [] => None | _ => Some ("grep" :: args) end
  else if action =? "count_lines" then Some ["wc"; "-l"]
  else if action =? "sort_lines" then Some ("sort" :: args)
  else None.

Section WithRuntime.
Variable R : Runtime.

Record State : Type := mkState {
  st_world : world R;
  trace : list Event
}.

Definition M (A : Type) : Type := State -> A * State.

Definition ret {A} (a : A) : M A := fun st => (a, st).

Definition bind {A B} (m : M A) (f : A -> M B) : M B :=
  fun st => let (a, st') := m st in f a st'.

Definition log (e : Event) : M unit :=
  fun st => (tt, {| st_world := st_world st; trace := trace st ++ [e] |}).

Definition lift {A} (f : world R -> A * world R) : M A :=
  fun st => let (a, w) := f (st_world st) in
            (a, {| st_world := w; trace := trace st |}).

Notation "x <- m ;; k" := (bind m (fun x => k))
  (at level 61, m at next level, right associativity).
Notation "m ;;; k" := (bind m (fun _ => k))
  (at level 61, right associativity).

(** [_execute_single_command] *)
Definition _execute_single_command (cmd : Cmd) : M Result :=
  log (EvExecutor cmd) ;;;
  o <- lift (executor R cmd) ;;
  ret match o with
      | Returned (VDict d) =>
          {| success := Z.eqb (from_opt 0%Z (rd_returncode d)) 0;
             error := None;
             stdout := from_opt "" (rd_stdout d);
             stderr := from_opt "" (rd_stderr d);
             returncode := Some (from_opt 0%Z (rd_returncode d));
             stages_executed := Some 1; failed_stage := None |}
      | Returned VNone => python_handled_result
      | Returned (VStr s) =>
          if Py.startswith s "PYTHON_HANDLED" then python_handled_result
          else {| success := true; error := None;
                  stdout := if Py.truthy s then s else "";
                  stderr := "";
                  returncode := Some 0%Z; stages_executed := Some 1;
                  failed_stage := None |}
      | Returned (VOther truth repr) =>
          {| success := true; error := None;
             stdout := if truth then repr else ""; stderr := "";
             returncode := Some 0%Z; stages_executed := Some 1;
             failed_stage := None |}
      | Raised msg =>
          {| success := false; error := Some msg; stdout := "";
             stderr := "Error executing command: " ++ msg;
             returncode := Some 1%Z; stages_executed := Some 0;
             failed_stage := None |}
      end.

(** [input_data.encode('utf-8') if input_data else None] *)
Definition process_input (input_data : option string) : option string :=
  match input_data with
  | Some d => if Py.truthy d then Some d else None
  | None => None
  end.

(** [_execute_native_command] *)
Definition _execute_native_command (cmd : list string)
  (input_data : option string) : M Result :=
  let input := process_input input_data in
  log (EvProcess cmd input) ;;;
  o <- lift (subprocess_run R cmd input) ;;
  ret match o with
      | Completed rc out err =>
          {| success := Z.eqb rc 0; error := None; stdout := out;
             stderr := err; returncode := Some rc;
             stages_executed := None; failed_stage := None |}
      | ProcRaised msg =>
          {| success := false; error := Some msg; stdout := "";
             stderr := "Error executing command: " ++ msg;
             returncode := Some 1%Z; stages_executed := None;
             failed_stage := None |}
      end.

(** The body of the [for] loop of [_execute_multi_stage_pipeline] up to
    the point where [result] is bound: the stage's result and the
    temporary files known afterwards.  The assignment
    [stage.args = [input_file.name]] is seen through the command built from
    the stage right after it; the stages of a pipeline are distinct
    objects, so no other stage observes it. *)
Definition run_stage (stage : PipelineStage) (is_last_stage : bool)
  (current_input : option string) (temp_files : list string)
  : M (Result * list string) :=
  log (EvMapNative stage) ;;;
  match _map_to_native_command stage current_input is_last_stage with
  | Some ((_ :: _) as native_cmd) =>
      result <- _execute_native_command native_cmd current_input ;;
      ret (result, temp_files)
  | _ =>
      match current_input with
      | Some data =>
          name <- lift (mktemp R data) ;;
          log (EvTempFile name data) ;;;
          let args' :=
            if (action stage =? "display_file") || (action stage =? "cat")
            then [name] else args stage in
          result <- _execute_single_command
                      {| cmd_action := action stage; cmd_args := args' |} ;;
          ret (result, temp_files ++ [name])
      | None =>
          result <- _execute_single_command
                      {| cmd_action := action stage;
                         cmd_args := args stage |} ;;
          ret (result, temp_files)
      end
  end.

(** The [for i, stage in enumerate(pipeline)] loop; [len] is
    [len(pipeline)] and [rest] the stages from index [i] on. *)
Fixpoint stages_loop (len i : nat) (rest : list PipelineStage)
  (stages_executed : nat) (current_input : option string)
  (temp_files : list string) : M (Result * list string) :=
  match rest with
  | [] => ret (pipeline_success current_input stages_executed, temp_files)
  | stage :: rest' =>
      let is_last_stage := Nat.eqb i (len - 1) in
      rt <- run_stage stage is_last_stage current_input temp_files ;;
      let (result, temp_files') := rt in
      let current_input' := Some (stdout result) in
      let stages_executed' := stages_executed + 1 in
      if negb (success result)
      then ret (stage_failure result stages_executed' i, temp_files')
      else stages_loop len (S i) rest' stages_executed' current_input'
             temp_files'
  end.

(** The [finally] clause. *)
Fixpoint cleanup (temp_files : list string) : M unit :=
  match temp_files with
  | [] => ret tt
  | f :: fs =>
      log (EvUnlink f) ;;;
      lift (fun w => (tt, unlink R f w)) ;;;
      cleanup fs
  end.

(** [_execute_multi_stage_pipeline] *)
Definition _execute_multi_stage_pipeline (pipeline : list PipelineStage)
  : M Result :=
  rt <- stages_loop (List.length pipeline) 0 pipeline 0 None [] ;;
  cleanup (snd rt) ;;;
  ret (fst rt).

(** [execute_pipeline] *)
Definition execute_pipeline (pipeline : list PipelineStage) : M Result :=
  match pipeline with
  | [] => ret empty_pipeline_result
  | [stage] =>
      _execute_single_command
        {| cmd_action := action stage; cmd_args := args stage |}
  | _ => _execute_multi_stage_pipeline pipeline
  end.

End WithRuntime.

(** A parsed command as [parse_pipeline] reads it: the ['action'] and
    ['args'] keys of the dict returned by [parser.parse_input]. *)
Record ParsedDict : Type := mkParsed {
  pd_action : option string;
  pd_args : option (list string)
}.

Section WithParser.
(** [self.parser]: any object with a [parse_input] method, with its own
    state. *)
Variable P : Type.
Variable parse_input : string -> P -> option ParsedDict * P.

Definition terminal_actions : list string :=
  ["unrecognized"; "suggest"; "error"].

Definition is_terminal (a : string) : bool :=
  existsb (String.eqb a) terminal_actions.

Fixpoint parse_stages (stage_texts : list string) (p : P)
  : list PipelineStage * P :=
  match stage_texts with
  | [] => ([], p)
  | stage_text :: rest =>
      let (cmd, p1) := parse_input stage_text p in
      let (pipeline, p2) := parse_stages rest p1 in
      match cmd with
      | Some {| pd_action := Some a; pd_args := oargs |} =>
          if negb (is_terminal a)
          then (mkStage a (from_opt [] oargs) (Some stage_text) :: pipeline, p2)
          else (pipeline, p2)
      | _ => (pipeline, p2)
      end
  end.

(** [parse_pipeline] *)
Definition parse_pipeline (text : string) (p : P)
  : list PipelineStage * P :=
  if negb (Splitter.detect_pipeline text) then
    let (cmd, p1) := parse_input text p in
    match cmd with
    | Some {| pd_action := Some a; pd_args := oargs |} =>
        ([mkStage a (from_opt [] oargs) (Some text)], p1)
    | _ => ([], p1)
    end
  else parse_stages (Splitter.split_pipeline_stages text) p.

End WithParser.

End Exec.

(* ===================================================================== *)
(** ** Python dicts with string keys (insertion-ordered) *)
(* ===================================================================== *)

Module Dict.
Section Dict.
Variable V : Type.

Definition t : Type := list (string * V).

Fixpoint get (d : t) (k : string) : option V :=
  match d with
  | [] => None
  | (k', v) :: d' => if String.eqb k' k then Some v else get d' k
  end.

(** [d[k] = v]: an existing key keeps its position. *)
Fixpoint set (d : t) (k : string) (v : V) : t :=
  match d with
  | [] => [(k, v)]
  | (k', v') :: d' =>
      if String.eqb k' k then (k', v) :: d' else (k', v') :: set d' k v
  end.

Definition mem (d : t) (k : string) : bool :=
  match get d k with Some _ => true | None => false end.

(** [{**a, **b}] *)
Definition merge (a b : t) : t :=
  fold_left (fun d kv => set d (fst kv) (snd kv)) b a.

Definition keys (d : t) : list string := map fst d.
End Dict.
End Dict.

(* ===================================================================== *)
(** ** enhanced_parser.py *)
(* ===================================================================== *)

Module Parser.

(** A spaCy token, through the attributes the parser reads. *)
Record Token : Type := mkToken {
  tok_text : string;
  tok_ws : string;          (* trailing whitespace *)
  pos_ : string;
  is_stop : bool
}.

Definition Doc : Type := list Token.

Definition lower_ (t : Token) : string := Py.lower (tok_text t).

(** [doc[start:end].text] *)
Fixpoint tokens_text (ts : list Token) : string :=
  match ts with
  | [] => ""
  | [t] => tok_text t
  | t :: rest => tok_text t ++ tok_ws t ++ tokens_text rest
  end.

Definition span_text (doc : Doc) (start stop : nat) : string :=
  tokens_text (firstn (stop - start) (skipn start doc)).

(** A match reported by a spaCy matcher: rule key, start, end. *)
Definition Match : Type := (string * nat * nat)%type.

(** The external capabilities: the spaCy pipeline and its matchers, and
    the rapidfuzz scorers (scores on the 0-100 scale). *)
Record Nlp : Type := mkNlp {
  nlp : string -> Doc;
  phrase_matcher : list (string * Doc) -> Doc -> list Match;
  entity_matcher : Doc -> list Match;
  WRatio : string -> string -> Q;
  ratio : string -> string -> Q
}.

Definition Entities : Type := Dict.t (list string).

(** [command_structure] *)
Record Command : Type := mkCommand {
  c_action : string;
  c_args : list string;
  c_entities : Entities;
  c_original_text : string
}.

(** What [parse_input] returns when it does not return [None]. *)
Inductive Parsed : Type :=
| Unrecognized
| Suggest (suggestion_action_id suggestion_phrase : string)
| Structured (c : Command).

Definition parsed_action (p : Parsed) : string :=
  match p with
  | Unrecognized => "unrecognized"
  | Suggest _ _ => "suggest"
  | Structured c => c_action c
  end.

(** [CommandHistory] *)
Record CommandHistory : Type := mkHistory {
  commands : list Command;
  history_size : nat;
  last_entities : Entities
}.

Definition add_command (h : CommandHistory) (c : Command) : CommandHistory :=
  let commands1 := commands h ++ [c] in
  let last1 :=
    fold_left
      (fun le kv => match snd kv with
                    | [] => le
                    | _ => Dict.set le (fst kv) (snd kv)
                    end)
      (c_entities c) (last_entities h) in
  {| commands := if (history_size h <? List.length commands1)%nat
                 then tl commands1 else commands1;
     history_size := history_size h;
     last_entities := last1 |}.

Definition get_entity_context (h : CommandHistory) : Entities :=
  last_entities h.

(** [get_last_command]: [self.commands[-1]], or [None] for an empty
    history. *)
Definition get_last_command (h : CommandHistory) : option Command :=
  match commands h with
  | [] => None
  | c :: rest => Some (last rest c)
  end.

(** [learning_data] *)
Record LearningData : Type := mkLearning {
  successful_parses : Dict.t bool;
  misinterpreted_commands : list string;
  user_corrections : Dict.t string;
  command_frequencies : Dict.t nat
}.

Definition empty_learning_data : LearningData :=
  {| successful_parses := []; misinterpreted_commands := [];
     user_corrections := []; command_frequencies := [] |}.

Inductive PEvent : Type :=
| EvExtractOne (query : string)     (* process.extractOne over the vocabulary *)
| EvRatio (a b : string)            (* fuzz.ratio *)
| EvSave.                           (* _save_learning_data *)

(** [EnhancedParser]: the fields that change or configure resolution,
    the persisted learning file, and the log of scorer and save calls. *)
Record EnhancedParser : Type := mkParser {
  action_keywords : Dict.t string;
  history : CommandHistory;
  fuzzy_match_threshold_execute : Q;
  fuzzy_match_threshold_suggest : Q;
  learning_data : LearningData;
  disk : option LearningData;       (* ~/.zyntax/learning_data.json *)
  disk_writable : bool;
  plog : list PEvent
}.

Definition base_action_keywords : Dict.t string :=
  [ ("list files", "list_files"); ("show files", "list_files");
    ("ls", "list_files"); ("show current directory", "show_path");
    ("pwd", "show_path"); ("change directory", "change_directory");
    ("cd", "change_directory") ].

(** [_load_learning_data] *)
Definition _load_learning_data (file : option LearningData) : LearningData :=
  match file with Some d => d | None => empty_learning_data end.

(** [__init__] *)
Definition init (user_action_keywords : Dict.t string)
  (file : option LearningData) (writable : bool) : EnhancedParser :=
  {| action_keywords := Dict.merge base_action_keywords user_action_keywords;
     history := {| commands := []; history_size := 10; last_entities := [] |};
     fuzzy_match_threshold_execute := 90%Q;
     fuzzy_match_threshold_suggest := 65%Q;
     learning_data := _load_learning_data file;
     disk := file; disk_writable := writable; plog := [] |}.

Definition with_learning (p : EnhancedParser) (l : LearningData)
  : EnhancedParser :=
  {| action_keywords := action_keywords p; history := history p;
     fuzzy_match_threshold_execute := fuzzy_match_threshold_execute p;
     fuzzy_match_threshold_suggest := fuzzy_match_threshold_suggest p;
     learning_data := l; disk := disk p;
     disk_writable := disk_writable p; plog := plog p |}.

Definition with_history (p : EnhancedParser) (h : CommandHistory)
  : EnhancedParser :=
  {| action_keywords := action_keywords p; history := h;
     fuzzy_match_threshold_execute := fuzzy_match_threshold_execute p;
     fuzzy_match_threshold_suggest := fuzzy_match_threshold_suggest p;
     learning_data := learning_data p; disk := disk p;
     disk_writable := disk_writable p; plog := plog p |}.

Definition with_log (p : EnhancedParser) (es : list PEvent)
  : EnhancedParser :=
  {| action_keywords := action_keywords p; history := history p;
     fuzzy_match_threshold_execute := fuzzy_match_threshold_execute p;
     fuzzy_match_threshold_suggest := fuzzy_match_threshold_suggest p;
     learning_data := learning_data p; disk := disk p;
     disk_writable := disk_writable p; plog := plog p ++ es |}.

(** [_save_learning_data]: a failed write is only a warning. *)
Definition _save_learning_data (p : EnhancedParser) : EnhancedParser :=
  with_log
    {| action_keywords := action_keywords p; history := history p;
       fuzzy_match_threshold_execute := fuzzy_match_threshold_execute p;
       fuzzy_match_threshold_suggest := fuzzy_match_threshold_suggest p;
       learning_data := learning_data p;
       disk := if disk_writable p then Some (learning_data p) else disk p;
       disk_writable := disk_writable p; plog := plog p |}
    [EvSave].

(** [_update_command_frequency] *)
Definition _update_command_frequency (l : LearningData) (action_id : string)
  : LearningData :=
  let n := match Dict.get (command_frequencies l) action_id with
           | Some n => n
           | None => 0
           end in
  {| successful_parses := successful_parses l;
     misinterpreted_commands := misinterpreted_commands l;
     user_corrections := user_corrections l;
     command_frequencies := Dict.set (command_frequencies l) action_id (n + 1) |}.

(** [record_feedback] *)
Definition record_feedback (p : EnhancedParser) (command_text : string)
  (was_correct : bool) (correct_action : option string) : EnhancedParser :=
  let l := learning_data p in
  let l' :=
    if was_correct then
      {| successful_parses := Dict.set (successful_parses l) command_text true;
         misinterpreted_commands := misinterpreted_commands l;
         user_corrections := user_corrections l;
         command_frequencies := command_frequencies l |}
    else
      {| successful_parses := successful_parses l;
         misinterpreted_commands := misinterpreted_commands l ++ [command_text];
         user_corrections :=
           match correct_action with
           | Some a => if Py.truthy a
                       then Dict.set (user_corrections l) command_text a
                       else user_corrections l
           | None => user_corrections l
           end;
         command_frequencies := command_frequencies l |} in
  _save_learning_data (with_learning p l').

Definition Qge_bool (a b : Q) : bool := Qle_bool b a.
Definition Qgt_bool (a b : Q) : bool := negb (Qle_bool a b).

Section WithNlp.
Variable N : Nlp.

(** The phrases added to [command_matcher] by [_setup_matchers]: the
    multi-word keys only. *)
Definition command_patterns (keywords : Dict.t string)
  : list (string * Doc) :=
  map (fun phrase => (phrase, nlp N phrase))
    (filter (fun phrase => Py.contains phrase " ") (Dict.keys keywords)).

Definition command_matcher (keywords : Dict.t string) (doc : Doc)
  : list Match :=
  phrase_matcher N (command_patterns keywords) doc.

(** [process.extractOne(query, choices, scorer=fuzz.WRatio,
    score_cutoff=cutoff)]: the first choice of maximal score, when that
    score reaches the cutoff. *)
Fixpoint best_choice (query : string) (choices : list string)
  (best : option (string * Q)) : option (string * Q) :=
  match choices with
  | [] => best
  | c :: rest =>
      let s := WRatio N query c in
      best_choice query rest
        match best with
        | Some (_, bs) => if Qgt_bool s bs then Some (c, s) else best
        | None => Some (c, s)
        end
  end.

Definition extractOne (query : string) (choices : list string) (cutoff : Q)
  : option (string * Q) :=
  match best_choice query choices None with
  | Some (c, s) => if Qge_bool s cutoff then Some (c, s) else None
  | None => None
  end.

(** The loop of [_check_learning_data], with the [fuzz.ratio] calls it
    makes. *)
Fixpoint check_corrections (text : string) (items : Dict.t string)
  : option string * list PEvent :=
  match items with
  | [] => (None, [])
  | (original_input, correct_action) :: rest =>
      let ev := EvRatio (Py.lower text) (Py.lower original_input) in
      let similarity := ratio N (Py.lower text) (Py.lower original_input) in
      if Qgt_bool similarity 90%Q then (Some correct_action, [ev])
      else let (r, evs) := check_corrections text rest in (r, ev :: evs)
  end.

(** [_check_learning_data] *)
Definition _check_learning_data (l : LearningData) (text : string)
  : option string * list PEvent :=
  check_corrections text (user_corrections l).

(** [_extract_basic_entities] *)
Definition _extract_basic_entities (doc : Doc) : Entities :=
  [ ("nouns",
      map tok_text
        (filter (fun t => (pos_ t =? "NOUN") && negb (is_stop t)) doc));
    ("proper_nouns",
      map tok_text
        (filter (fun t => negb ((pos_ t =? "NOUN") && negb (is_stop t))
                          && (pos_ t =? "PROPN")) doc)) ].

(** [_extract_specialized_entities] *)
Definition _extract_specialized_entities (doc : Doc) : Entities :=
  [ ("file_paths",
      map (fun m => span_text doc (snd (fst m)) (snd m))
        (filter (fun m => fst (fst m) =? "FILE_PATH") (entity_matcher N doc)));
    ("git_branches", []);
    ("options",
      map tok_text (filter (fun t => Py.startswith (tok_text t) "-") doc)) ].

Definition in_list (x : string) (l : list string) : bool :=
  existsb (String.eqb x) l.

(** The loop of [_resolve_references] over the tokens. *)
Fixpoint resolve_tokens (ts : list Token) (context resolved : Entities)
  : Entities :=
  match ts with
  | token :: ((next_token :: _) as rest) =>
      let resolved' :=
        if in_list (lower_ token) ["that"; "this"]
           && in_list (lower_ next_token) ["file"; "directory"; "folder"]
        then
          let entity_type :=
            if lower_ next_token =? "file" then "file_paths"
            else "directory_paths" in
          match Dict.get context entity_type with
          | Some (v :: _) =>
              let cur := match Dict.get resolved entity_type with
                         | Some l => l
                         | None => []
                         end in
              Dict.set resolved entity_type (cur ++ [v])
          | _ => resolved
          end
        else resolved in
      resolve_tokens rest context resolved'
  | _ => resolved
  end.

(** [_resolve_references] *)
Definition _resolve_references (doc : Doc) (entities context : Entities)
  : Entities :=
  let has_reference :=
    existsb (fun t => in_list (lower_ t) ["that"; "this"; "it"; "those"])
      doc in
  if has_reference && negb (Nat.eqb (List.length context) 0)
  then resolve_tokens doc context entities
  else entities.

(** [entities.copy()] is shallow: the lists of [resolved] are the lists
    of [all_entities], so an [append] through [resolved] is seen through
    [all_entities] for every key they share. *)
Definition shared_view (all_entities resolved : Entities) : Entities :=
  map (fun kv => (fst kv,
                  match Dict.get resolved (fst kv) with
                  | Some l => l
                  | None => snd kv
                  end)) all_entities.

Definition nonempty_entry (entities : Entities) (k : string)
  : option (list string) :=
  match Dict.get entities k with
  | Some (x :: l) => Some (x :: l)
  | _ => None
  end.

(** [_format_args_for_action] *)
Definition _format_args_for_action (action_id : string)
  (entities : Entities) : list string :=
  let args :=
    if in_list action_id
         ["change_directory"; "make_directory"; "delete_directory"]
    then match nonempty_entry entities "directory_paths" with
         | Some l => firstn 1 l
         | None => match nonempty_entry entities "file_paths" with
                   | Some l => firstn 1 l
                   | None => []
                   end
         end
    else if in_list action_id ["create_file"; "delete_file"; "display_file"]
    then match nonempty_entry entities "file_paths" with
         | Some l => firstn 1 l
         | None => []
         end
    else if in_list action_id ["move_rename"; "copy_file"]
    then match Dict.get entities "file_paths" with
         | Some l => if (2 <=? List.length l)%nat then firstn 2 l else []
         | None => []
         end
    else [] in
  match Dict.get entities "options" with
  | Some opts => args ++ opts
  | None => args
  end.

Record EntityData : Type := mkEntityData {
  raw_entities : Entities;
  resolved_entities : Entities;
  formatted_args : list string
}.

(** [_extract_arguments] *)
Definition _extract_arguments (doc : Doc) (action_id : string)
  (context : Entities) : EntityData :=
  let basic_entities := _extract_basic_entities doc in
  let specialized_entities := _extract_specialized_entities doc in
  let all_entities := Dict.merge basic_entities specialized_entities in
  let resolved := _resolve_references doc all_entities context in
  {| raw_entities := shared_view all_entities resolved;
     resolved_entities := resolved;
     formatted_args := _format_args_for_action action_id resolved |}.

(** Steps 2 to 5 of [parse_input], once [action_id] is known. *)
Definition finish_command (p : EnhancedParser) (text : string) (doc : Doc)
  (context : Entities) (action_id : string) : option Parsed * EnhancedParser :=
  let entity_data := _extract_arguments doc action_id context in
  let command_structure :=
    {| c_action := action_id;
       c_args := formatted_args entity_data;
       c_entities := raw_entities entity_data;
       c_original_text := text |} in
  let p1 := with_history p (add_command (history p) command_structure) in
  let p2 := with_learning p1
              (_update_command_frequency (learning_data p1) action_id) in
  (Some (Structured command_structure), _save_learning_data p2).

(** The exact-match step of [parse_input]: the first match reported by
    the phrase matcher, looked up in the vocabulary. *)
Definition exact_match (p : EnhancedParser) (doc : Doc) : option string :=
  match command_matcher (action_keywords p) doc with
  | (_, start, stop) :: _ =>
      Dict.get (action_keywords p) (Py.lower (span_text doc start stop))
  | [] => None
  end.

(** Step 1 of [parse_input] up to the learning check: [action_id], the
    suggestion ([suggestion_action_id], [suggestion_phrase]) and the
    scorer calls made. *)
Definition recognize_intent (p : EnhancedParser) (text : string)
  (doc : Doc)
  : option string * option (string * string) * list PEvent :=
  let exact_hit :=
    match exact_match p doc with
    | Some a => Py.truthy a
    | None => false
    end in
  if negb exact_hit then
    let match_result :=
      extractOne (Py.lower text) (Dict.keys (action_keywords p))
        (fuzzy_match_threshold_suggest p) in
    match match_result with
    | Some (matched_phrase, score) =>
        let target :=
          match Dict.get (action_keywords p) matched_phrase with
          | Some a => a
          | None => ""
          end in
        if Qge_bool score (fuzzy_match_threshold_execute p)
        then (Some target, None, [EvExtractOne (Py.lower text)])
        else if Qge_bool score (fuzzy_match_threshold_suggest p)
        then (None, Some (target, matched_phrase),
              [EvExtractOne (Py.lower text)])
        else (None, None, [EvExtractOne (Py.lower text)])
    | None => (None, None, [EvExtractOne (Py.lower text)])
    end
  else (exact_match p doc, None, []).

(** [parse_input].  [None] is Python's [None]. *)
Definition parse_input (p : EnhancedParser) (text : string)
  : option Parsed * EnhancedParser :=
  if Py.is_empty (Py.strip text) then (None, p)
  else
    let doc := nlp N text in
    let context := get_entity_context (history p) in
    let '(action_id, suggestion, evs1) := recognize_intent p text doc in
    let (learned_action, evs2) :=
      _check_learning_data (learning_data p) text in
    let action_id :=
      match learned_action with
      | Some a => if Py.truthy a then Some a else action_id
      | None => action_id
      end in
    let p' := with_log p (evs1 ++ evs2) in
    let action_ok :=
      match action_id with Some a => Py.truthy a | None => false end in
    let suggestion_ok :=
      match suggestion with
      | Some (a, _) => Py.truthy a
      | None => false
      end in
    if negb action_ok && negb suggestion_ok then (Some Unrecognized, p')
    else if negb action_ok then
      match suggestion with
      | Some (a, phrase) => (Some (Suggest a phrase), p')
      | None => (Some Unrecognized, p')
      end
    else
      match action_id with
      | Some a => finish_command p' text doc context a
      | None => (Some Unrecognized, p')
      end.

(** The view of a [parse_input] result taken by [parse_pipeline]. *)
Definition as_dict (r : Parsed) : Exec.ParsedDict :=
  match r with
  | Unrecognized =>
      {| Exec.pd_action := Some "unrecognized"; Exec.pd_args := None |}
  | Suggest _ _ =>
      {| Exec.pd_action := Some "suggest"; Exec.pd_args := None |}
  | Structured c =>
      {| Exec.pd_action := Some (c_action c);
         Exec.pd_args := Some (c_args c) |}
  end.

Definition parse_input_dict (text : string) (p : EnhancedParser)
  : option Exec.ParsedDict * EnhancedParser :=
  let (r, p') := parse_input p text in (option_map as_dict r, p').

End WithNlp.

End Parser.

(* ===================================================================== *)
(** ** A reference instance of the external capabilities

    Small stand-ins for spaCy, rapidfuzz, the executor and the OS, on which
    the model can be run.  The tokenizer cuts at single spaces; the phrase
    matcher compares lower-cased token sequences; [ratio] is the normalized
    Indel similarity [200 * lcs / (len a + len b)], and the same function
    stands in for [WRatio]. *)
(* ===================================================================== *)

Module Reference.
Import Parser.

Fixpoint words_go (cur : string) (s : string) : list string :=
  match s with
  | EmptyString => [cur]
  | String c s' =>
      if Ascii.eqb c " " then cur :: words_go "" s'
      else words_go (cur ++ String c "") s'
  end.

Fixpoint to_tokens (ws : list string) : Doc :=
  match ws with
  | [] => []
  | [w] => [mkToken w "" "X" false]
  | w :: rest => mkToken w " " "X" false :: to_tokens rest
  end.

Definition tokenize (text : string) : Doc :=
  to_tokens (filter Py.truthy (words_go "" text)).

Fixpoint list_eqb (a b : list string) : bool :=
  match a, b with
  | [], [] => true
  | x :: a', y :: b' => String.eqb x y && list_eqb a' b'
  | _, _ => false
  end.

Definition pattern_hits (doc : Doc) (start : nat) (pat : string * Doc)
  : list Match :=
  let n := List.length (snd pat) in
  if negb (Nat.eqb n 0)
     && list_eqb (map lower_ (snd pat))
          (map lower_ (firstn n (skipn start doc)))
  then [(fst pat, start, start + n)] else [].

Definition match_phrases (patterns : list (string * Doc)) (doc : Doc)
  : list Match :=
  flat_map (fun start => flat_map (pattern_hits doc start) patterns)
    (seq 0 (List.length doc)).

Fixpoint lcs (a : string) : string -> nat :=
  fix lcs_b (b : string) : nat :=
    match a, b with
    | String x a', String y b' =>
        if Ascii.eqb x y then S (lcs a' b')
        else Nat.max (lcs a' b) (lcs_b b')
    | _, _ => 0
    end.

Definition indel_ratio (a b : string) : Q :=
  let n := String.length a + String.length b in
  match n with
  | O => 100%Q
  | S _ => Qmake (Z.of_nat (200 * lcs a b)) (Pos.of_nat n)
  end.

Definition simple_nlp : Nlp :=
  {| nlp := tokenize;
     phrase_matcher := match_phrases;
     entity_matcher := fun _ => [];
     WRatio := indel_ratio;
     ratio := indel_ratio |}.

Fixpoint has_char (p : ascii -> bool) (s : string) : bool :=
  match s with
  | EmptyString => false
  | String c s' => p c || has_char p s'
  end.

(** The pattern that [_setup_matchers] installs under the key FILE_PATH,
    [{"TEXT": {"REGEX": r"[\/\w\.\-]+"}, "OP": "+"}]: the expression is
    searched in the text of a token, so a token matches when one of its
    characters is a word character, a slash, a dot or a hyphen, and every
    run of matching tokens is a match.  The runs are listed by their end,
    then by their start. *)
Definition path_char (c : ascii) : bool :=
  Py.is_word c || Ascii.eqb c "/" || Ascii.eqb c "." || Ascii.eqb c "-".

Definition path_token (t : Token) : bool := has_char path_char (tok_text t).

Definition match_paths (doc : Doc) : list Match :=
  flat_map
    (fun stop =>
       flat_map
         (fun start =>
            if forallb path_token (firstn (stop - start) (skipn start doc))
            then [("FILE_PATH", start, stop)] else [])
         (seq 0 stop))
    (seq 1 (List.length doc)).

(** [simple_nlp] with the FILE_PATH pattern in its entity matcher. *)
Definition path_nlp : Nlp :=
  {| nlp := tokenize;
     phrase_matcher := match_phrases;
     entity_matcher := match_paths;
     WRatio := indel_ratio;
     ratio := indel_ratio |}.

(** A runtime with a trivial world: [ls] succeeds, [wc] exits with 1, the
    other processes succeed silently; the executor handles
    [make_directory] and [show_path] internally. *)
Definition simple_runtime : Exec.Runtime :=
  {| Exec.world := unit;
     Exec.executor := fun cmd w =>
       (if Exec.cmd_action cmd =? "make_directory" then Exec.Returned Exec.VNone
        else if Exec.cmd_action cmd =? "show_path"
        then Exec.Returned (Exec.VStr "PYTHON_HANDLED:show_path")
        else if Exec.cmd_action cmd =? "delete_file"
        then Exec.Raised "permission denied"
        else Exec.Returned
               (Exec.VDict (Exec.mkResultDict (Some 0%Z) (Some "done") None)),
        w);
     Exec.subprocess_run := fun argv input w =>
       (match argv with
        | "ls" :: _ => Exec.Completed 0 "file1.txt file2.txt" ""
        | "wc" :: _ => Exec.Completed 1 "" "wc: standard input: failure"
        | _ => Exec.Completed 0 (Exec.from_opt "" input) ""
        end, w);
     Exec.mktemp := fun _ w => ("/tmp/tmpfile", w);
     Exec.unlink := fun _ w => w |}.

Definition initial_state : Exec.State simple_runtime :=
  @Exec.mkState simple_runtime tt [].

(** A parser on the built-in vocabulary with no learning data. *)
Definition fresh_parser : EnhancedParser := init [] None true.

End Reference.

(* ===================================================================== *)
(** ** Specification vocabulary *)
(* ===================================================================== *)

Module Spec.

Fixpoint all_chars (p : ascii -> bool) (s : string) : bool :=
  match s with
  | EmptyString => true
  | String c s' => p c && all_chars p s'
  end.

(** An utterance that is empty or made of whitespace only. *)
Definition blank (text : string) : Prop :=
  all_chars Py.is_space text = true.

(** The last character of [s], or [prev] when [s] is empty. *)
Fixpoint last_or (prev : option ascii) (s : string) : option ascii :=
  match s with
  | EmptyString => prev
  | String c s' => last_or (Some c) s'
  end.

Fixpoint drop (n : nat) (s : string) : string :=
  match n, s with
  | S n', String _ s' => drop n' s'
  | _, _ => s
  end.

(** [w] occurs in [text] as a whole word, in any letter case: the
    occurrence is delimited on both sides by a non-word character or by an
    end of the text. *)
Definition whole_word_in (w text : string) : Prop :=
  exists pre mid post : string,
    text = (pre ++ mid ++ post)%string
    /\ Py.lower mid = Py.lower w
    /\ Re.word_opt (last_or None pre) = false
    /\ Re.word_opt (Re.head post) = false.

(** A comma-separated part that names an action: one of the command
    words, or one of the nouns "files" and "text", as a whole word. *)
Definition action_shaped (part : string) : Prop :=
  exists w,
    In w (PipelineDetector.action_words ++ ["files"; "text"])
    /\ whole_word_in w part.

Definition is_some {A : Type} (o : option A) : bool :=
  match o with Some _ => true | None => false end.

(** What remains to match after the literal of [\bw\b]. *)
Definition after_word : Re.cont unit :=
  fun p s' => Re.run (Re.Seq Re.WordB Re.Eps) p s' (fun _ _ => Some tt).

(** A word that begins and ends with a word character. *)
Definition wordish (w : string) : Prop :=
  Re.word_opt (Re.head w) = true /\ Re.word_opt (last_or None w) = true.

(** [\b(?:w0|w1|...)\b] *)
Definition word_alt (w0 : string) (ws : list string) : Re.regex :=
  Re.seqs [Re.WordB; Re.alts (Re.lit w0) (map Re.lit ws); Re.WordB].

Fixpoint take (n : nat) (s : string) : string :=
  match n, s with
  | S n', String c s' => String c (take n' s')
  | _, _ => EmptyString
  end.

(** [s] begins with [v], up to letter case. *)
Fixpoint ci_prefix (v s : string) : bool :=
  match v with
  | EmptyString => true
  | String c v' =>
      match s with
      | String a s' => Re.ci_eqb c a && ci_prefix v' s'
      | EmptyString => false
      end
  end.

(** The marker text [v] stands at the head of [s] as a whole word, [prev]
  being the character before it. *)
Definition hit (v : string) (prev : option ascii) (s : string) : bool :=
  ci_prefix v s
  && negb (Re.word_opt prev)
  && negb (Re.word_opt (Re.head (drop (String.length v) s))).

Fixpoint first_hit (vs : list string) (prev : option ascii) (s : string)
  : option nat :=
  match vs with
  | [] => None
  | v :: vs' =>
      if hit v prev s then Some (String.length v) else first_hit vs' prev s
  end.

(** The pattern [p] matches exactly the marker texts [vs], the first one
  that stands at the position deciding the match. *)
Definition marks (p : Re.regex) (vs : list string) : Prop :=
  forall prev s, Re.match_len p prev s = first_hit vs prev s.

(** A marker text: it begins and ends with a word character and none of
  its characters matches the separator's [#]. *)
Definition marker_text (v : string) : Prop :=
  wordish v /\ all_chars (fun c => negb (Re.ci_eqb c "#")) v = true.

(** The marker texts of [self.pipeline_indicators], pattern by pattern. *)
Definition indicator_texts : list (list string) :=
  [ ["and"]; ["then"]; ["after that"]; ["next"]; ["pipe to"];
    ["pipe into"]; ["send to"]; ["pass to"];
    ["followed by"; "follow by"]; ["with the result"] ].

(** No marker text of [vs] can begin inside [tok], whatever follows it. *)
Definition tok_free (tok : string) (vs : list string) : Prop :=
  forall (X : string) (v : string) (i : nat),
    In v vs -> i < String.length tok ->
    ci_prefix v (drop i tok ++ X)%string = false.

(** A connective-marker pattern: it matches exactly a list of marker
  texts, none of which can begin inside the separator token. *)
Definition marker_pattern_with (p : Re.regex) (vs : list string) : Prop :=
  marks p vs /\ Forall marker_text vs
  /\ tok_free Splitter.special_token vs.

Definition marker_pattern (p : Re.regex) : Prop :=
  exists vs, marker_pattern_with p vs.

(** [m] reads as one of the marker texts [V], in any letter case. *)
Definition reads_as (V : list string) (m : string) : Prop :=
  exists v, In v V /\ Py.lower m = Py.lower v.

(** [replaced V s t]: [t] is [s] with some occurrences of the marker texts
  [V] replaced by the separator token, and every other character kept in
  place. *)
Inductive replaced (V : list string) : string -> string -> Prop :=
| replaced_nil : replaced V "" ""
| replaced_keep c s t :
  replaced V s t -> replaced V (String c s) (String c t)
| replaced_marker m s t :
  reads_as V m -> replaced V s t ->
  replaced V (m ++ s)%string (Splitter.special_token ++ t)%string.

(** Every recorded correction names an action. *)
Definition corrections_ok (l : Parser.LearningData) : Prop :=
  Forall (fun kv => snd kv <> "") (Parser.user_corrections l).

(** [x] occurs in [s]. *)
Definition occurs_in (x s : string) : Prop :=
  exists pre post : string, s = (pre ++ x ++ post)%string.


End Spec.

Module ExecSpec.
Import Exec.

(** The stages handed to [_map_to_native_command], in order. *)
Fixpoint mapped_stages (tr : list Event) : list PipelineStage :=
  match tr with
  | [] => []
  | EvMapNative stage :: tr' => stage :: mapped_stages tr'
  | _ :: tr' => mapped_stages tr'
  end.

(** The number of process and executor invocations. *)
Fixpoint invocations (tr : list Event) : nat :=
  match tr with
  | [] => 0
  | EvProcess _ _ :: tr' => S (invocations tr')
  | EvExecutor _ :: tr' => S (invocations tr')
  | _ :: tr' => invocations tr'
  end.


(** The event by which a stage receives [data] from its predecessor: as
    the standard input of its process, or as the content of its
    temporary file. *)
Definition receives (e : Event) (data : string) : Prop :=
  (exists argv, e = EvProcess argv (Some data))
  \/ (exists name, e = EvTempFile name data).

Section WithRuntime.
Variable R : Runtime.


(** [stages_succeed len i stages inp temps st inp' temps' st']: run in
    order from index [i], every stage of [stages] succeeds; the loop
    variables go from [(inp, temps, st)] to [(inp', temps', st')]. *)
Inductive stages_succeed (len : nat)
  : nat -> list PipelineStage -> option string -> list string -> State R ->
    option string -> list string -> State R -> Prop :=
| succeed_nil i inp temps st :
    stages_succeed len i [] inp temps st inp temps st
| succeed_cons i stage rest inp temps st r temps1 st1 inp2 temps2 st2 :
    run_stage stage (Nat.eqb i (len - 1)) inp temps st
      = ((r, temps1), st1) ->
    success r = true ->
    stages_succeed len (S i) rest (Some (stdout r)) temps1 st1
      inp2 temps2 st2 ->
    stages_succeed len i (stage :: rest) inp temps st inp2 temps2 st2.
End WithRuntime.

End ExecSpec.

(* ===================================================================== *)
(** ** interface/enhanced_interface.py: the terminal loop

    What the console shows is left out; the prompts are taken to be
    answered, and their answers are inputs of a turn of the loop. *)
(* ===================================================================== *)

Module Interface.
Import Parser.

(** [str.split()]: the maximal runs of characters that are not
    whitespace; [cur] is the run being read. *)
Fixpoint split_ws_go (cur : string) (s : string) : list string :=
  match s with
  | EmptyString => if Py.is_empty cur then [] else [cur]
  | String c s' =>
      if Py.is_space c
      then if Py.is_empty cur then split_ws_go "" s'
           else cur :: split_ws_go "" s'
      else split_ws_go (cur ++ String c "") s'
  end.

Definition split_ws (s : string) : list string := split_ws_go "" s.

(** [str.isdigit] on a single character. *)
Definition is_digit_char (c : ascii) : bool :=
  Py.between 48 57 c || Py.between 178 179 c || (Py.code c =? 185)%N.

Fixpoint all_digits (s : string) : bool :=
  match s with
  | EmptyString => true
  | String c s' => is_digit_char c && all_digits s'
  end.

(** [str.isdigit] *)
Definition isdigit (s : string) : bool := Py.truthy s && all_digits s.

(** [int(s)] for a text on which [isdigit] holds: the decimal value, or
    [None] for the [ValueError] raised on a superscript digit. *)
Fixpoint int_go (acc : nat) (s : string) : option nat :=
  match s with
  | EmptyString => Some acc
  | String c s' =>
      if Py.between 48 57 c
      then int_go (10 * acc + (N.to_nat (Py.code c) - 48)) s'
      else None
  end.

Definition int (s : string) : option nat := int_go 0 s.

(** [ZyntaxInterface]: the settings and the last command. *)
Record ZyntaxInterface : Type := mkInterface {
  verbose : bool;
  show_command_preview : bool;
  last_command : option Parsed
}.

(** [handle_settings_command] *)
Definition handle_settings_command (ui : ZyntaxInterface) (command : string)
  : bool * ZyntaxInterface :=
  if Py.startswith command "verbose" || Py.startswith command "preview"
     || Py.startswith command "feedback"
  then
    match split_ws command with
    | [setting; v] =>
        if (v =? "on") || (v =? "off") then
          let value := v =? "on" in
          (true,
           if setting =? "verbose" then
             {| verbose := value;
                show_command_preview := show_command_preview ui;
                last_command := last_command ui |}
           else if setting =? "preview" then
             {| verbose := verbose ui;
                show_command_preview := value;
                last_command := last_command ui |}
           else ui)
        else (false, ui)
    | _ => (false, ui)
    end
  else (false, ui).

Definition destructive_actions : list string :=
  ["delete_file"; "delete_directory"; "git_reset"].

(** [display_command_preview], for a command with the given action:
    [None] is Python's [None]; [proceed] is the answer to "Proceed with
    this command?". *)
Definition display_command_preview (ui : ZyntaxInterface) (action : string)
  (proceed : bool) : option bool :=
  if negb (show_command_preview ui) then None
  else if in_list action ["unrecognized"; "suggest"; "error"] then None
  else if in_list action destructive_actions then Some proceed
  else Some true.

(** Truthiness of the value returned by [display_command_preview]. *)
Definition shown (r : option bool) : bool :=
  match r with Some b => b | None => false end.

(** The answers given at the prompts of one turn of the loop. *)
Record Answers : Type := mkAnswers {
  proceed : bool;             (* "Proceed with this command?" *)
  execute_suggestion : bool;  (* "Execute this command?" *)
  understood : bool;          (* "Did Zyntax understand your command
                                 correctly?" *)
  selection : string          (* "Enter number or command name" *)
}.

Definition alternatives : list string :=
  ["list_files"; "display_file"; "create_file"; "delete_file";
   "change_directory"; "make_directory"; "delete_directory";
   "show_processes"; "memory_usage"; "git_status"].

(** [request_feedback]: [was_correct] and [correct_action], the latter
    [None] when the key is absent; the outer [None] stands for the
    [ValueError] of [int]. *)
Definition request_feedback (a : Answers) : option (bool * option string) :=
  if understood a then Some (true, None)
  else
    let typed :=
      if negb (selection a =? "skip") then Some (false, Some (selection a))
      else Some (false, None) in
    if isdigit (selection a) then
      match int (selection a) with
      | Some n =>
          if (1 <=? n)%nat && (n <=? List.length alternatives)%nat
          then Some (false, Some (nth (n - 1) alternatives ""))
          else typed
      | None => None
      end
    else typed.

(** The command dicts handed to [execute_command]: a parsed command, or
    the dict built from an accepted suggestion. *)
Inductive Request : Type :=
| Parsed_command (c : Command)
| Confirmed_command (action : string) (args : list string).

Definition request_action (r : Request) : string :=
  match r with
  | Parsed_command c => c_action c
  | Confirmed_command action _ => action
  end.

(** The surroundings of the loop: [execute_command], over an abstract
    world, and [extract_relevant_entities]. *)
Record Env : Type := mkEnv {
  world : Type;
  execute_command : Request -> world -> Exec.Outcome * world;
  extract_relevant_entities : string -> list string
}.

Section WithEnv.
Variable N : Nlp.
Variable E : Env.

(** [AdvancedTerminal], with the requests executed so far. *)
Record AdvancedTerminal : Type := mkTerminal {
  interface : ZyntaxInterface;
  parser : EnhancedParser;
  learning_mode : bool;
  running : bool;
  st_world : world E;
  executed : list Request
}.

Definition with_interface (t : AdvancedTerminal) (ui : ZyntaxInterface)
  : AdvancedTerminal :=
  {| interface := ui; parser := parser t; learning_mode := learning_mode t;
     running := running t; st_world := st_world t;
     executed := executed t |}.

Definition with_parser (t : AdvancedTerminal) (p : EnhancedParser)
  : AdvancedTerminal :=
  {| interface := interface t; parser := p;
     learning_mode := learning_mode t; running := running t;
     st_world := st_world t; executed := executed t |}.

(** [self.execute_command(request)]: the state afterwards and what the
    call gave. *)
Definition execute (t : AdvancedTerminal) (r : Request)
  : Exec.Outcome * AdvancedTerminal :=
  let (o, w) := execute_command E r (st_world t) in
  (o, {| interface := interface t; parser := parser t;
         learning_mode := learning_mode t; running := running t;
         st_world := w; executed := executed t ++ [r] |}).

(** [display_execution_results] raises [IndexError] when it looks for
    the extension of the first argument of a [display_file] command that
    has no arguments. *)
Definition display_execution_results_raises (c : Command)
  (d : Exec.ResultDict) : bool :=
  match Exec.rd_stdout d with
  | Some out =>
      Py.truthy out && (c_action c =? "display_file")
      && match c_args c with [] => true | _ => false end
  | None => false
  end.

(** The part of the loop body that asks for feedback and records it. *)
Definition collect_feedback (t : AdvancedTerminal) (user_input : string)
  (a : Answers) : AdvancedTerminal :=
  if learning_mode t then
    match request_feedback a with
    | Some (was_correct, correct_action) =>
        with_parser t
          (record_feedback (parser t) user_input was_correct correct_action)
    | None => t
    end
  else t.

(** The branch of the loop body for a recognized command. *)
Definition run_command (t : AdvancedTerminal) (user_input : string)
  (c : Command) (a : Answers) : AdvancedTerminal :=
  if shown (display_command_preview (interface t) (c_action c) (proceed a))
  then
    let (o, t1) := execute t (Parsed_command c) in
    match o with
    | Exec.Raised _ => t1
    | Exec.Returned (Exec.VDict d) =>
        if display_execution_results_raises c d then t1
        else collect_feedback t1 user_input a
    | Exec.Returned _ => collect_feedback t1 user_input a
    end
  else t.

(** The branch of the loop body for a suggestion. *)
Definition run_suggestion (t : AdvancedTerminal) (user_input : string)
  (suggestion_action_id : option string) (a : Answers) : AdvancedTerminal :=
  match suggestion_action_id with
  | Some action =>
      if Py.truthy action then
        if execute_suggestion a then
          let args := extract_relevant_entities E user_input in
          if shown (display_command_preview (interface t) action (proceed a))
          then snd (execute t (Confirmed_command action args))
          else t
        else t
      else t
  | None => t
  end.

(** One turn of the loop of [run], on the line [user_input]. *)
Definition turn (t : AdvancedTerminal) (user_input : string) (a : Answers)
  : AdvancedTerminal :=
  if in_list (Py.lower user_input) ["exit"; "quit"; "bye"] then
    {| interface := interface t; parser := parser t;
       learning_mode := learning_mode t; running := false;
       st_world := st_world t; executed := executed t |}
  else if Py.is_empty (Py.strip user_input) then t
  else if Py.lower user_input =? "help" then t
  else
    let (handled, ui) := handle_settings_command (interface t) user_input in
    if handled then with_interface t ui
    else
      let (structured_command, p) := parse_input N (parser t) user_input in
      let t1 :=
        with_interface (with_parser t p)
          {| verbose := verbose (interface t);
             show_command_preview := show_command_preview (interface t);
             last_command := structured_command |} in
      match structured_command with
      | None => t1
      | Some r =>
          let action := parsed_action r in
          if action =? "unrecognized" then t1
          else if action =? "suggest" then
            run_suggestion t1 user_input
              match r with
              | Suggest suggestion_action_id _ => Some suggestion_action_id
              | _ => None
              end a
          else if action =? "error" then t1
          else
            match r with
            | Structured c => run_command t1 user_input c a
            | _ => t1
            end
      end.

End WithEnv.

End Interface.

(* ===================================================================== *)
(** ** Sessions and observations *)
(* ===================================================================== *)

Module Session.
Import Parser.

(** A call on the public interface of the parser. *)
Inductive Call : Type :=
| ParseInput (text : string)
| RecordFeedback (command_text : string) (was_correct : bool)
    (correct_action : option string).

Section WithNlp.
Variable N : Nlp.

Definition call (p : EnhancedParser) (c : Call) : EnhancedParser :=
  match c with
  | ParseInput text => snd (parse_input N p text)
  | RecordFeedback command_text was_correct correct_action =>
      record_feedback p command_text was_correct correct_action
  end.

(** The parser after a sequence of calls. *)
Definition calls (p : EnhancedParser) (cs : list Call) : EnhancedParser :=
  fold_left call cs p.

(** The phrase matcher resolves nothing for [doc]: it reports no match,
    or its first match is no vocabulary phrase or maps to the empty
    action. *)
Definition no_exact_match (p : EnhancedParser) (doc : Doc) : Prop :=
  exact_match N p doc = None \/ exact_match N p doc = Some "".
End WithNlp.

End Session.

Module TraceSpec.
Import Exec.

(** The temporary files created, in order. *)
Fixpoint created (tr : list Event) : list string :=
  match tr with
  | [] => []
  | EvTempFile name _ :: tr' => name :: created tr'
  | _ :: tr' => created tr'
  end.

(** The files removed, in order. *)
Fixpoint unlinked (tr : list Event) : list string :=
  match tr with
  | [] => []
  | EvUnlink name :: tr' => name :: unlinked tr'
  | _ :: tr' => unlinked tr'
  end.

(** The argument vectors of the processes started, in order. *)
Fixpoint processes (tr : list Event) : list (list string) :=
  match tr with
  | [] => []
  | EvProcess argv _ :: tr' => argv :: processes tr'
  | _ :: tr' => processes tr'
  end.

(** The commands handed to the delegated executor, in order. *)
Fixpoint delegated (tr : list Event) : list Cmd :=
  match tr with
  | [] => []
  | EvExecutor cmd :: tr' => cmd :: delegated tr'
  | _ :: tr' => delegated tr'
  end.

(** An argument vector that starts one of the programs of
    [_map_to_native_command]. *)
Definition runs_native_program (argv : list string) : Prop :=
  exists prog rest,
    argv = prog :: rest /\ In prog ["ls"; "cat"; "grep"; "wc"; "sort"].

(** [l1] is [l2] with some elements left out, the order kept. *)
Inductive subsequence {A : Type} : list A -> list A -> Prop :=
| subsequence_nil : subsequence [] []
| subsequence_keep x l1 l2 :
    subsequence l1 l2 -> subsequence (x :: l1) (x :: l2)
| subsequence_drop x l1 l2 :
    subsequence l1 l2 -> subsequence l1 (x :: l2).

End TraceSpec.

(* ===================================================================== *)
(** ** The hand-off through a temporary file, when it can raise *)
(* ===================================================================== *)

(** [Exec] takes the writing of a temporary file to succeed.  Here the
    hand-off of [_execute_multi_stage_pipeline] to a stage without a native
    command,

      input_file = tempfile.NamedTemporaryFile(delete=False)
      input_file.write(current_input.encode('utf-8'))
      input_file.close()
      temp_files.append(input_file.name)

    is followed statement by statement: the first three statements can
    raise, nothing in the method catches what they raise, and the name
    of the file is recorded only after them.  The [finally] clause runs on
    the way out. *)
Module Handoff.
Import Exec.

(** The exception raised by the hand-off: by [NamedTemporaryFile], so that
    no file exists, or by [encode], [write] or [close], when the file
    [name] exists already. *)
Inductive HandoffError : Type :=
| NoFile (msg : string)
| FileLeft (name msg : string).

(** What the first three statements of the hand-off do. *)
Inductive TempOutcome : Type :=
| Written (name : string)
| TempRaised (e : HandoffError).

(** How a call ends: it returns a result dict, or an exception leaves
    it. *)
Inductive Ending : Type :=
| Returns (r : Result)
| Raises (e : HandoffError).

(** A runtime whose temporary-file primitive can raise. *)
Record TempRuntime : Type := mkTempRuntime {
  base : Runtime;
  try_mktemp : string -> world base -> TempOutcome * world base
}.

Section WithRuntime.
Variable T : TempRuntime.

Local Notation "x <- m ;; k" := (bind m (fun x => k))
  (at level 61, m at next level, right associativity).
Local Notation "m ;;; k" := (bind m (fun _ => k))
  (at level 61, right associativity).

(** The body of the [for] loop up to the point where [result] is bound,
    or up to the exception.  [EvTempFile name data] is logged as soon as
    [NamedTemporaryFile] has returned: the file [name] exists from then
    on, made for [data]. *)
Definition run_stage (stage : PipelineStage) (is_last_stage : bool)
  (current_input : option string) (temp_files : list string)
  : M (base T) ((Result + HandoffError) * list string) :=
  log (EvMapNative stage) ;;;
  match _map_to_native_command stage current_input is_last_stage with
  | Some ((_ :: _) as native_cmd) =>
      result <- _execute_native_command native_cmd current_input ;;
      ret (inl result, temp_files)
  | _ =>
      match current_input with
      | Some data =>
          o <- lift (try_mktemp T data) ;;
          match o with
          | Written name =>
              log (EvTempFile name data) ;;;
              let args' :=
                if (action stage =? "display_file") || (action stage =? "cat")
                then [name] else args stage in
              result <- _execute_single_command
                          {| cmd_action := action stage;
                             cmd_args := args' |} ;;
              ret (inl result, temp_files ++ [name])
          | TempRaised (FileLeft name msg) =>
              log (EvTempFile name data) ;;;
              ret (inr (FileLeft name msg), temp_files)
          | TempRaised (NoFile msg) =>
              ret (inr (NoFile msg), temp_files)
          end
      | None =>
          result <- _execute_single_command
                      {| cmd_action := action stage;
                         cmd_args := args stage |} ;;
          ret (inl result, temp_files)
      end
  end.

(** The [for i, stage in enumerate(pipeline)] loop. *)
Fixpoint stages_loop (len i : nat) (rest : list PipelineStage)
  (stages_executed : nat) (current_input : option string)
  (temp_files : list string) : M (base T) (Ending * list string) :=
  match rest with
  | [] =>
      ret (Returns (pipeline_success current_input stages_executed),
           temp_files)
  | stage :: rest' =>
      let is_last_stage := Nat.eqb i (len - 1) in
      rt <- run_stage stage is_last_stage current_input temp_files ;;
      let (o, temp_files') := rt in
      match o with
      | inr e => ret (Raises e, temp_files')
      | inl result =>
          let current_input' := Some (stdout result) in
          let stages_executed' := stages_executed + 1 in
          if negb (success result)
          then ret (Returns (stage_failure result stages_executed' i),
                    temp_files')
          else stages_loop len (S i) rest' stages_executed' current_input'
                 temp_files'
      end
  end.

(** [_execute_multi_stage_pipeline]: the [finally] clause removes the
    recorded files whether the loop returns or raises. *)
Definition _execute_multi_stage_pipeline (pipeline : list PipelineStage)
  : M (base T) Ending :=
  rt <- stages_loop (List.length pipeline) 0 pipeline 0 None [] ;;
  cleanup (snd rt) ;;;
  ret (fst rt).

(** [execute_pipeline] *)
Definition execute_pipeline (pipeline : list PipelineStage) : M (base T) Ending :=
  match pipeline with
  | [] => ret (Returns empty_pipeline_result)
  | [stage] =>
      r <- _execute_single_command
             {| cmd_action := action stage; cmd_args := args stage |} ;;
      ret (Returns r)
  | _ => _execute_multi_stage_pipeline pipeline
  end.

End WithRuntime.

(** [Reference.simple_runtime] on a full disk: the temporary file is
    made, and writing to it raises. *)
Definition full_disk_runtime : TempRuntime :=
  {| base := Reference.simple_runtime;
     try_mktemp := fun _ w =>
       (TempRaised (FileLeft "/tmp/tmpfile" "No space left on device"), w) |}.

End Handoff.

(* ===================================================================== *)
(** ** Facts about the string primitives *)
(* ===================================================================== *)

Module PyFacts.
Import Py Spec.

Lemma all_ascii (P : ascii -> Prop) :
  (forall b0 b1 b2 b3 b4 b5 b6 b7 : bool, P (Ascii b0 b1 b2 b3 b4 b5 b6 b7)) ->
  forall c, P c.
Proof. intros H [b0 b1 b2 b3 b4 b5 b6 b7]. apply H. Qed.

Lemma is_word_lower_char c : is_word (lower_char c) = is_word c.
Proof.
  revert c. apply all_ascii.
  intros [] [] [] [] [] [] [] []; vm_compute; reflexivity.
Qed.

Lemma space_not_word_bool c : implb (is_space c) (negb (is_word c)) = true.
Proof.
  revert c. apply all_ascii.
  intros [] [] [] [] [] [] [] []; vm_compute; reflexivity.
Qed.

Lemma space_not_word c : is_space c = true -> is_word c = false.
Proof.
  intros H. pose proof (space_not_word_bool c) as B. rewrite H in B.
  simpl in B. now destruct (is_word c).
Qed.

Lemma is_empty_true s : is_empty s = true <-> s = "".
Proof. destruct s; simpl; split; congruence. Qed.

Lemma truthy_true s : truthy s = true <-> s <> "".
Proof.
  destruct s; simpl; split; try discriminate; auto;
    intros H; now elim H.
Qed.

Lemma append_nil_r (s : string) : (s ++ "")%string = s.
Proof. induction s; simpl; congruence. Qed.

Lemma append_assoc (a b c : string) :
  ((a ++ b) ++ c)%string = (a ++ (b ++ c))%string.
Proof. induction a; simpl; congruence. Qed.

Lemma prefix_app p s :
  prefix p s = true <-> exists t, s = (p ++ t)%string.
Proof.
  revert s. induction p as [|c p IH]; intros s; simpl.
  - split; [intros _; now exists s | reflexivity].
  - destruct s as [|a s].
    + split; [discriminate | intros [t H]; discriminate].
    + destruct (Ascii.eqb_spec c a) as [->|Hne]; simpl.
      * rewrite IH. split; intros [t H]; exists t; congruence.
      * split; [discriminate | intros [t H]; congruence].
Qed.

Lemma drop_O s : drop 0 s = s.
Proof. destruct s; reflexivity. Qed.

Lemma drop_app_length p t : drop (String.length p) (p ++ t)%string = t.
Proof. induction p; simpl; auto. Qed.

(** *** strip *)

Lemma lstrip_blank s : all_chars is_space s = true -> lstrip s = "".
Proof.
  induction s as [|c s IH]; simpl; auto.
  intros H. apply andb_prop in H as [Hc Hs]. now rewrite Hc, IH.
Qed.

Lemma lstrip_empty_blank s : lstrip s = "" -> all_chars is_space s = true.
Proof.
  induction s as [|c s IH]; simpl; auto.
  destruct (is_space c); simpl; [exact IH | discriminate].
Qed.

Lemma rstrip_empty_blank s : rstrip s = "" -> all_chars is_space s = true.
Proof.
  induction s as [|c s IH]; simpl; auto.
  destruct (is_space c); simpl; [|discriminate].
  destruct (rstrip s) eqn:E; simpl; [intros _; now apply IH | discriminate].
Qed.

Lemma rstrip_blank s : all_chars is_space s = true -> rstrip s = "".
Proof.
  induction s as [|c s IH]; simpl; auto.
  intros H. apply andb_prop in H as [Hc Hs]. now rewrite Hc, IH.
Qed.

(** [strip] yields the empty string exactly on blank texts. *)
Lemma strip_empty_iff s : is_empty (strip s) = true <-> blank s.
Proof.
  unfold strip, blank. rewrite is_empty_true. split.
  - intros H. apply rstrip_empty_blank in H.
    clear -H. induction s as [|c s IH]; simpl in *; auto.
    destruct (is_space c) eqn:E; simpl; auto.
    simpl in H. rewrite E in H. discriminate.
  - intros H. now rewrite (lstrip_blank _ H).
Qed.

Lemma lstrip_head s :
  match lstrip s with
  | String c _ => is_space c = false
  | EmptyString => True
  end.
Proof.
  induction s as [|c s IH]; simpl; auto.
  destruct (is_space c) eqn:E; auto.
Qed.

Lemma lstrip_fixed s :
  match s with String c _ => is_space c = false | EmptyString => True end ->
  lstrip s = s.
Proof. destruct s as [|c s]; simpl; auto. now intros ->. Qed.

Lemma rstrip_head s :
  match s with String c _ => is_space c = false | EmptyString => True end ->
  match rstrip s with
  | String c _ => is_space c = false
  | EmptyString => True
  end.
Proof.
  destruct s as [|c s]; simpl; auto. intros H. rewrite H. simpl. exact H.
Qed.

Lemma rstrip_idem s : rstrip (rstrip s) = rstrip s.
Proof.
  induction s as [|c s IH]; simpl; auto.
  destruct (is_space c && is_empty (rstrip s)) eqn:E; simpl; auto.
  rewrite IH, E. reflexivity.
Qed.

(** A stripped text is a fixed point of [strip]. *)
Lemma strip_idem s : strip (strip s) = strip s.
Proof.
  unfold strip.
  rewrite (lstrip_fixed (rstrip (lstrip s))).
  - apply rstrip_idem.
  - apply rstrip_head, lstrip_head.
Qed.

(** *** split and join *)

Lemma split_go_nonempty sep n s : split_go sep n s <> [].
Proof.
  revert n. induction s as [|c s IH]; intros [|n]; simpl; try discriminate.
  - destruct (prefix sep (String c s)); [discriminate|].
    destruct (split_go sep 0 s); discriminate.
  - apply IH.
Qed.

Lemma join_cons_char sep c h t :
  join sep (String c h :: t) = String c (join sep (h :: t)).
Proof. destruct t; reflexivity. Qed.

Lemma join_cons_empty sep l :
  l <> [] -> join sep ("" :: l) = (sep ++ join sep l)%string.
Proof. destruct l; [congruence | reflexivity]. Qed.

Lemma drop_drop n m s : drop n (drop m s) = drop (n + m) s.
Proof.
  revert s. induction m as [|m IH]; intros s.
  - rewrite Nat.add_0_r. now rewrite drop_O.
  - rewrite Nat.add_succ_r. destruct s as [|c s]; simpl.
    + destruct n; reflexivity.
    + apply IH.
Qed.

(** Joining the pieces of a split with the separator gives the text back:
    the pieces are the text between separator occurrences, in order. *)
Lemma join_split_go sep n s :
  sep <> "" -> join sep (split_go sep n s) = drop n s.
Proof.
  intros Hsep. revert n.
  induction s as [|c s IH]; intros [|n]; simpl; auto.
  - destruct (prefix sep (String c s)) eqn:E.
    + rewrite join_cons_empty by apply split_go_nonempty.
      rewrite IH. apply prefix_app in E as [t E].
      destruct sep as [|a sep]; [congruence|].
      simpl in E. injection E as -> ->.
      simpl. rewrite Nat.sub_0_r, drop_app_length. reflexivity.
    + pose proof (split_go_nonempty sep 0 s) as Hne.
      specialize (IH 0). rewrite drop_O in IH.
      destruct (split_go sep 0 s) as [|h t]; [congruence|].
      rewrite join_cons_char, IH. reflexivity.
Qed.

Lemma join_split s sep : sep <> "" -> join sep (split s sep) = s.
Proof. intros H. unfold split. rewrite join_split_go, drop_O; auto. Qed.

(** Splitting on a comma gives one more part than there are commas. *)
Lemma split_comma_length s :
  List.length (split s ",") = S (count_char "," s).
Proof.
  unfold split. induction s as [|c s IH]; [reflexivity|].
  cbn [split_go prefix count_char String.length Nat.sub].
  rewrite (Ascii.eqb_sym c ",").
  destruct (Ascii.eqb "," c); cbn [andb].
  - cbn [List.length Nat.add]. rewrite IH. reflexivity.
  - pose proof (split_go_nonempty "," 0 s) as Hn.
    destruct (split_go "," 0 s) as [|h t]; [congruence|].
    exact IH.
Qed.

(** *** Substrings and the pieces of a split *)

Lemma contains_iff x : forall s,
  contains s x = true <-> occurs_in x s.
Proof.
  unfold occurs_in. induction s as [|c s IH]; cbn [contains].
  - rewrite orb_false_r, prefix_app. split.
    + intros (t & E). exists "", t. exact E.
    + intros (pre & post & E). destruct pre; [|discriminate].
      now exists post.
  - rewrite orb_true_iff, prefix_app, IH. split.
    + intros [(t & E)|(pre & post & E)].
      * exists "", t. exact E.
      * exists (String c pre), post. cbn [append]. now rewrite E.
    + intros (pre & post & E). destruct pre as [|a pre].
      * left. now exists post.
      * right. cbn [append] in E. injection E as _ E. now exists pre, post.
Qed.

Lemma contains_inside a b c x :
  contains b x = true -> contains (a ++ b ++ c)%string x = true.
Proof.
  rewrite !contains_iff. intros (pre & post & ->).
  exists (a ++ pre)%string, (post ++ c)%string.
  now rewrite !append_assoc.
Qed.

(** A text without the separator is its own single piece. *)
Lemma split_no_sep sep : forall s,
  contains s sep = false -> split s sep = [s].
Proof.
  unfold split. induction s as [|c s IH]; intros H; [reflexivity|].
  cbn [contains] in H. apply orb_false_elim in H as [Hp Hc].
  cbn [split_go]. rewrite Hp, (IH Hc). reflexivity.
Qed.

(** The first piece is an initial segment of the text. *)
Lemma split_go_first sep : forall s h t,
  split_go sep 0 s = h :: t -> exists rest, s = (h ++ rest)%string.
Proof.
  induction s as [|c s IH]; intros h t H; cbn [split_go] in H.
  - injection H as <- _. now exists "".
  - destruct (prefix sep (String c s)).
    + injection H as <- _. now exists (String c s).
    + destruct (split_go sep 0 s) as [|h' t'] eqn:E.
      * injection H as <- _. exists s. reflexivity.
      * injection H as <- _. destruct (IH h' t' eq_refl) as (rest & ->).
        now exists rest.
Qed.

(** No piece contains the separator. *)
Lemma split_go_pieces sep :
  sep <> "" ->
  forall s n piece, In piece (split_go sep n s) -> contains piece sep = false.
Proof.
  intros Hsep.
  assert (Hnil : contains "" sep = false).
  { cbn [contains]. rewrite orb_false_r.
    destruct sep; [now elim Hsep | reflexivity]. }
  induction s as [|c s IH]; intros [|n] piece Hin; cbn [split_go] in Hin.
  - destruct Hin as [<-|[]]. exact Hnil.
  - destruct Hin as [<-|[]]. exact Hnil.
  - destruct (prefix sep (String c s)) eqn:Ep.
    + destruct Hin as [<-|Hin]; [exact Hnil | now apply (IH _ _ Hin)].
    + destruct (split_go sep 0 s) as [|h t] eqn:E.
      * now apply split_go_nonempty in E.
      * destruct Hin as [<-|Hin].
        -- cbn [contains].
           rewrite (IH 0 h) by (rewrite E; now left).
           rewrite orb_false_r.
           destruct (prefix sep (String c h)) eqn:Ep'; [|reflexivity].
           apply prefix_app in Ep' as (r & Er).
           destruct (@split_go_first sep s h t E) as (rest & ->).
           assert (Hp : prefix sep (String c (h ++ rest)) = true).
           { apply prefix_app. exists (r ++ rest)%string.
             change (String c (h ++ rest)) with (String c h ++ rest)%string.
             rewrite Er. apply append_assoc. }
           congruence.
        -- apply (IH 0 piece). rewrite E. now right.
  - now apply (IH _ _ Hin).
Qed.

(** *** The cuts of a split are the leftmost ones *)










End PyFacts.

(* ===================================================================== *)
(** ** Facts about the regular-expression matcher *)
(* ===================================================================== *)

Module ReFacts.
Import Py Re Spec PyFacts.

Lemma lower_nil_inv s : lower s = "" -> s = "".
Proof. destruct s; simpl; congruence. Qed.

Lemma lower_cons_inv s c w :
  lower s = String c w ->
  exists a s', s = String a s' /\ lower_char a = c /\ lower s' = w.
Proof.
  destruct s as [|a s']; simpl; [discriminate|].
  intros H. injection H as H1 H2. now exists a, s'.
Qed.

Lemma ci_eqb_true c a : ci_eqb c a = true <-> lower_char a = lower_char c.
Proof.
  unfold ci_eqb. destruct (Ascii.eqb_spec (lower_char c) (lower_char a));
    split; congruence.
Qed.

Lemma lower_char_idem c : lower_char (lower_char c) = lower_char c.
Proof.
  revert c. apply all_ascii.
  intros [] [] [] [] [] [] [] []; vm_compute; reflexivity.
Qed.

Lemma lower_idem s : lower (lower s) = lower s.
Proof. induction s; simpl; [|rewrite lower_char_idem]; congruence. Qed.

Section Run.
Variable A : Type.
Implicit Types k : cont A.

(** A literal consumes exactly a text equal to it up to letter case. *)
Lemma run_lit w : forall mid rest prev k,
  lower mid = lower w ->
  run (lit w) prev (mid ++ rest)%string k = k (last_or prev mid) rest.
Proof.
  induction w as [|c w IH]; intros mid rest prev k H; simpl in H.
  - apply lower_nil_inv in H. subst. reflexivity.
  - apply lower_cons_inv in H as (a & mid' & -> & Ha & Hm).
    simpl. apply ci_eqb_true in Ha. rewrite Ha. apply IH, Hm.
Qed.

Lemma run_lit_inv w : forall s prev k x,
  run (lit w) prev s k = Some x ->
  exists mid rest,
    s = (mid ++ rest)%string /\ lower mid = lower w
    /\ k (last_or prev mid) rest = Some x.
Proof.
  induction w as [|c w IH]; intros s prev k x H; simpl in H.
  - exists "", s. auto.
  - destruct s as [|a s]; [discriminate|].
    destruct (ci_eqb c a) eqn:E; [|discriminate].
    apply IH in H as (mid & rest & -> & Hl & Hk).
    exists (String a mid), rest. simpl. apply ci_eqb_true in E.
    rewrite E, Hl. auto.
Qed.

Lemma run_alts r rs prev s k :
  is_some (run (alts r rs) prev s k)
  = existsb (fun r' => is_some (run r' prev s k)) (r :: rs).
Proof.
  revert r. induction rs as [|r' rs IH]; intros r.
  - simpl. now rewrite orb_false_r.
  - change (alts r (r' :: rs)) with (Alt r (alts r' rs)).
    cbn [run]. destruct (run r prev s k) eqn:E.
    + simpl. now rewrite E.
    + rewrite IH. simpl. now rewrite E.
Qed.
End Run.

Lemma matches_word_unfold w prev s :
  matches_here (word w) prev s
  = at_boundary prev s && is_some (run (lit w) prev s after_word).
Proof.
  unfold matches_here, word. cbn [seqs run].
  destruct (at_boundary prev s); reflexivity.
Qed.

Lemma matches_word_alt_unfold w0 ws prev s :
  matches_here (word_alt w0 ws) prev s
  = at_boundary prev s
    && is_some (run (alts (lit w0) (map lit ws)) prev s after_word).
Proof.
  unfold matches_here, word_alt. cbn [seqs run].
  destruct (at_boundary prev s); reflexivity.
Qed.

Lemma matches_word_alt w0 ws prev s :
  matches_here (word_alt w0 ws) prev s
  = existsb (fun w => matches_here (word w) prev s) (w0 :: ws).
Proof.
  rewrite matches_word_alt_unfold, run_alts.
  change (lit w0 :: map lit ws) with (map lit (w0 :: ws)).
  induction (w0 :: ws) as [|w l IH]; simpl.
  - apply andb_false_r.
  - rewrite matches_word_unfold, <- IH.
    destruct (at_boundary prev s); reflexivity.
Qed.

Lemma existsb_orb {X} (f g : X -> bool) l :
  existsb (fun x => f x || g x) l = existsb f l || existsb g l.
Proof.
  induction l as [|x l IH]; simpl; auto. rewrite IH.
  destruct (f x), (g x), (existsb f l), (existsb g l); reflexivity.
Qed.

Lemma existsb_same {X} (f g : X -> bool) l :
  (forall x, f x = g x) -> existsb f l = existsb g l.
Proof. intros H. induction l; simpl; [|rewrite H]; congruence. Qed.

(** Searching for an alternation of words is searching for one of them. *)
Lemma search_word_alt w0 ws text :
  search (word_alt w0 ws) text
  = existsb (fun w => search (word w) text) (w0 :: ws).
Proof.
  unfold search. generalize (@None ascii) as prev.
  induction text as [|c text IH]; intros prev.
  - cbn [search_from]. rewrite orb_false_r, matches_word_alt.
    apply existsb_same. intros w. now rewrite orb_false_r.
  - cbn [search_from]. rewrite IH, matches_word_alt, <- existsb_orb.
    reflexivity.
Qed.

(** [search] succeeds when the pattern matches at some position. *)
Lemma search_from_iff r s : forall prev,
  search_from r prev s = true
  <-> exists pre rest,
        s = (pre ++ rest)%string
        /\ matches_here r (last_or prev pre) rest = true.
Proof.
  induction s as [|c s IH]; intros prev; cbn [search_from].
  - rewrite orb_false_r. split.
    + intros H. exists "", "". auto.
    + intros (pre & rest & E & H).
      destruct pre; [|discriminate]. destruct rest; [|discriminate].
      exact H.
  - rewrite orb_true_iff, IH. split.
    + intros [H | (pre & rest & -> & H)].
      * exists "", (String c s). auto.
      * exists (String c pre), rest. auto.
    + intros (pre & rest & E & H). destruct pre as [|a pre].
      * simpl in E. subst rest. left. exact H.
      * simpl in E. injection E as -> ->. right. exists pre, rest. auto.
Qed.

Lemma head_lower_eq mid w rest :
  lower mid = lower w -> word_opt (head w) = true ->
  word_opt (head (mid ++ rest)%string) = true.
Proof.
  destruct w as [|c w]; simpl; [discriminate|].
  intros H Hc. apply lower_cons_inv in H as (a & mid' & -> & Ha & _).
  simpl. rewrite <- is_word_lower_char, Ha, is_word_lower_char. exact Hc.
Qed.

Lemma last_or_lower_eq mid : forall w p q,
  lower mid = lower w -> word_opt (last_or q w) = true ->
  word_opt p = word_opt q ->
  word_opt (last_or p mid) = true.
Proof.
  induction mid as [|a mid IH]; intros w p q H Hw Hpq.
  - symmetry in H. apply lower_nil_inv in H. subst. simpl in *. congruence.
  - symmetry in H. apply lower_cons_inv in H as (c & w' & -> & Hc & Hl).
    simpl in *. apply (IH w' _ (Some c)); auto.
    simpl. rewrite <- is_word_lower_char, <- Hc, is_word_lower_char.
    reflexivity.
Qed.

Lemma wordish_nonempty w : wordish w -> w <> "".
Proof. intros [H _] ->. discriminate. Qed.

Lemma last_or_nonempty mid p q :
  mid <> "" -> last_or p mid = last_or q mid.
Proof. destruct mid; [congruence | reflexivity]. Qed.

(** [\bw\b] matches at a position exactly when [w] stands there as a
    whole word. *)
Lemma matches_word_iff w prev s :
  wordish w ->
  matches_here (word w) prev s = true
  <-> exists mid rest,
        s = (mid ++ rest)%string /\ lower mid = lower w
        /\ word_opt prev = false /\ word_opt (head rest) = false.
Proof.
  intros [Hh Hl]. rewrite matches_word_unfold, andb_true_iff. split.
  - intros [Hb Hr].
    destruct (run (lit w) prev s after_word) as [x|] eqn:E; [|discriminate].
    apply run_lit_inv in E as (mid & rest & -> & Hm & Hk).
    exists mid, rest. repeat split; auto.
    + unfold at_boundary in Hb.
      rewrite (head_lower_eq mid w rest Hm Hh) in Hb.
      destruct (word_opt prev); [discriminate | reflexivity].
    + unfold after_word in Hk. cbn [run] in Hk.
      destruct (at_boundary (last_or prev mid) rest) eqn:Eb; [|discriminate].
      unfold at_boundary in Eb.
      rewrite (last_or_lower_eq mid w prev None Hm Hl) in Eb.
      * destruct (word_opt (head rest)); [discriminate | reflexivity].
      * destruct (word_opt prev) eqn:Ep; auto.
        unfold at_boundary in Hb.
        rewrite (head_lower_eq mid w rest Hm Hh), Ep in Hb. discriminate.
  - intros (mid & rest & -> & Hm & Hp & Hr). split.
    + unfold at_boundary. rewrite Hp, (head_lower_eq mid w rest Hm Hh).
      reflexivity.
    + rewrite (run_lit w mid rest prev after_word Hm).
      unfold after_word. cbn [run]. unfold at_boundary.
      rewrite (last_or_lower_eq mid w prev None Hm Hl), Hr; auto.
Qed.

(** The pattern [\bw\b] is found in a text exactly when [w] occurs in it
    as a whole word. *)
Lemma search_word_iff w text :
  wordish w -> search (word w) text = true <-> whole_word_in w text.
Proof.
  intros Hw. unfold search, whole_word_in. rewrite search_from_iff. split.
  - intros (pre & rest & -> & H).
    apply (matches_word_iff _ _ Hw) in H as (mid & post & -> & Hm & Hp & Hr).
    exists pre, mid, post. auto.
  - intros (pre & mid & post & -> & Hm & Hp & Hr).
    exists pre, (mid ++ post)%string. split; auto.
    apply (matches_word_iff _ _ Hw). exists mid, post. auto.
Qed.

(** *** Counting *)

Lemma filter_two_members {X} (f : X -> bool) l a b :
  In a l -> In b l -> a <> b -> f a = true -> f b = true ->
  2 <= List.length (filter f l).
Proof.
  intros Ha Hb Hab Fa Fb.
  assert (Hin : forall x, In x l -> f x = true -> In x (filter f l))
    by (intros x Hx Fx; apply filter_In; auto).
  apply Hin in Ha; auto. apply Hin in Hb; auto.
  destruct (filter f l) as [|x [|y t]]; simpl in *;
    [contradiction | | lia].
  destruct Ha as [<-|[]], Hb as [<-|[]]. congruence.
Qed.

Lemma filter_one_position {X} (f : X -> bool) l i x :
  nth_error l i = Some x -> f x = true ->
  1 <= List.length (filter f l).
Proof.
  intros H Fx. apply nth_error_In in H.
  assert (Hin : In x (filter f l)) by (apply filter_In; auto).
  destruct (filter f l); simpl in *; [contradiction | lia].
Qed.

Lemma filter_two_positions {X} (f : X -> bool) l : forall i j a b,
  i <> j -> nth_error l i = Some a -> nth_error l j = Some b ->
  f a = true -> f b = true ->
  2 <= List.length (filter f l).
Proof.
  induction l as [|x l IH]; intros i j a b Hij Ha Hb Fa Fb.
  - destruct i; discriminate.
  - destruct i as [|i], j as [|j]; simpl in Ha, Hb; try congruence.
    + injection Ha as ->. simpl. rewrite Fa. simpl.
      pose proof (filter_one_position f l j Hb Fb). lia.
    + injection Hb as ->. simpl. rewrite Fb. simpl.
      pose proof (filter_one_position f l i Ha Fa). lia.
    + assert (2 <= List.length (filter f l))
        by (apply (IH i j a b); auto).
      simpl. destruct (f x); simpl; lia.
Qed.

Lemma filter_length_le {X} (f : X -> bool) l :
  List.length (filter f l) <= List.length l.
Proof. induction l; simpl; [|destruct (f a); simpl]; lia. Qed.

End ReFacts.

(* ===================================================================== *)
(** ** PipelineDetector.is_pipeline *)
(* ===================================================================== *)

Module DetectorFacts.
Import Py Re Spec PyFacts ReFacts PipelineDetector.

Ltac wordish_all :=
  repeat (constructor; [split; vm_compute; reflexivity|]); constructor.

Lemma complex_action_words_wordish : Forall wordish complex_action_words.
Proof. wordish_all. Qed.

Lemma action_nouns_wordish :
  Forall wordish (action_words ++ ["files"; "text"]).
Proof. wordish_all. Qed.

Lemma is_pipeline_unfold text :
  is_pipeline text
  = has_pipeline_pattern text || (2 <=? action_count text)%nat
    || comma_criterion text.
Proof.
  unfold is_pipeline.
  destruct (has_pipeline_pattern text), (2 <=? action_count text)%nat;
    reflexivity.
Qed.

Lemma is_action_part_words part :
  is_action_part part
  = existsb (fun w => search (word w) part) (action_words ++ ["files"; "text"]).
Proof.
  unfold is_action_part, action_patterns.
  change (seqs [WordB;
                alts (lit "list")
                  (map lit ["show"; "find"; "get"; "display"; "count"; "sort"]);
                WordB])
    with (word_alt "list" ["show"; "find"; "get"; "display"; "count"; "sort"]).
  cbn [existsb]. rewrite search_word_alt. unfold action_words.
  cbn [existsb app]. rewrite !orb_false_r, <- !orb_assoc. reflexivity.
Qed.

(** A part is counted by the comma heuristic exactly when it names an
    action. *)
Lemma is_action_part_iff part :
  is_action_part part = true <-> action_shaped part.
Proof.
  rewrite is_action_part_words, existsb_exists. unfold action_shaped.
  pose proof action_nouns_wordish as HW. rewrite Forall_forall in HW.
  split; intros (w & Hin & H); exists w; split; auto;
    apply (search_word_iff _ (HW w Hin)); exact H.
Qed.

Lemma comma_parts_length text :
  List.length (comma_parts text) = S (count_char "," text).
Proof. unfold comma_parts. now rewrite length_map, split_comma_length. Qed.

Lemma two_action_parts text i j pi pj :
  i <> j ->
  nth_error (comma_parts text) i = Some pi ->
  nth_error (comma_parts text) j = Some pj ->
  action_shaped pi -> action_shaped pj ->
  2 <= action_parts (comma_parts text).
Proof.
  intros Hij Hi Hj Si Sj. unfold action_parts.
  apply (filter_two_positions is_action_part _ Hij Hi Hj);
    now apply is_action_part_iff.
Qed.

(** C7. Every utterance containing, as whole words, two distinct members
    of the complex-action-word set is counted at least twice and is
    classified as a pipeline. *)
Theorem is_pipeline_two_complex_action_words text w1 w2 :
  In w1 complex_action_words -> In w2 complex_action_words -> w1 <> w2 ->
  whole_word_in w1 text -> whole_word_in w2 text ->
  2 <= action_count text /\ is_pipeline text = true.
Proof.
  intros H1 H2 Hne O1 O2.
  pose proof complex_action_words_wordish as HW.
  rewrite Forall_forall in HW.
  assert (Hc : 2 <= action_count text).
  { unfold action_count.
    apply (filter_two_members _ _ H1 H2 Hne);
      apply search_word_iff; auto. }
  split; [exact Hc|].
  rewrite is_pipeline_unfold.
  apply Nat.leb_le in Hc. rewrite Hc.
  now rewrite orb_true_r.
Qed.

Lemma is_pipeline_two_complex_action_words_witness :
  2 <= action_count "find all Python files then sort by size"
  /\ is_pipeline "find all Python files then sort by size" = true.
Proof.
  apply (@is_pipeline_two_complex_action_words
           "find all Python files then sort by size" "find" "sort").
  - simpl; auto.
  - simpl; auto 10.
  - discriminate.
  - exists "", "find", " all Python files then sort by size".
    repeat split.
  - exists "find all Python files then ", "sort", " by size".
    repeat split.
Defined.

(** C6 (as the code has it). The comma heuristic counts every
    comma-separated part, empty ones included.  With at least two commas
    (three parts) and two parts naming an action, the utterance is a
    pipeline; in particular so when three parts are non-empty.  With fewer
    than two commas the heuristic does not fire, and the classification is
    decided by the first two criteria alone. *)
Theorem comma_criterion_spec text :
  (forall i j pi pj,
      2 <= count_char "," text -> i <> j ->
      nth_error (comma_parts text) i = Some pi ->
      nth_error (comma_parts text) j = Some pj ->
      action_shaped pi -> action_shaped pj ->
      comma_criterion text = true /\ is_pipeline text = true)
  /\ (forall i j pi pj,
      3 <= List.length (filter truthy (comma_parts text)) -> i <> j ->
      nth_error (comma_parts text) i = Some pi ->
      nth_error (comma_parts text) j = Some pj ->
      action_shaped pi -> action_shaped pj ->
      comma_criterion text = true /\ is_pipeline text = true)
  /\ (count_char "," text < 2 ->
      comma_criterion text = false
      /\ is_pipeline text
         = has_pipeline_pattern text || (2 <=? action_count text)%nat).
Proof.
  assert (Hfire : forall i j pi pj,
    3 <= List.length (comma_parts text) -> i <> j ->
    nth_error (comma_parts text) i = Some pi ->
    nth_error (comma_parts text) j = Some pj ->
    action_shaped pi -> action_shaped pj ->
    comma_criterion text = true /\ is_pipeline text = true).
  { intros i j pi pj Hlen Hij Hi Hj Si Sj.
    assert (Hc : comma_criterion text = true).
    { unfold comma_criterion. apply Nat.leb_le in Hlen. rewrite Hlen.
      apply Nat.leb_le. eapply two_action_parts; eauto. }
    split; [exact Hc|].
    rewrite is_pipeline_unfold, Hc. apply orb_true_r. }
  split; [|split].
  - intros i j pi pj Hc. apply Hfire. rewrite comma_parts_length. lia.
  - intros i j pi pj Hc. apply Hfire.
    pose proof (filter_length_le truthy (comma_parts text)). lia.
  - intros Hc.
    assert (Hf : comma_criterion text = false).
    { unfold comma_criterion. rewrite comma_parts_length.
      destruct (Nat.leb_spec 3 (S (count_char "," text))); [lia|reflexivity]. }
    split; [exact Hf|].
    rewrite is_pipeline_unfold, Hf. apply orb_false_r.
Qed.

Lemma comma_criterion_spec_witness :
  (comma_criterion "show logs, sleep, count errors" = true
   /\ is_pipeline "show logs, sleep, count errors" = true)
  /\ (comma_criterion "list files, show text" = false
      /\ is_pipeline "list files, show text"
         = has_pipeline_pattern "list files, show text"
           || (2 <=? action_count "list files, show text")%nat).
Proof.
  split.
  - apply (proj1 (proj2 (comma_criterion_spec "show logs, sleep, count errors"))
             0 2 "show logs" "count errors").
    + vm_compute. lia.
    + discriminate.
    + reflexivity.
    + reflexivity.
    + exists "show". split; [simpl; auto|].
      exists "", "show", " logs". repeat split.
    + exists "count". split; [simpl; auto 10|].
      exists "", "count", " errors". repeat split.
  - apply (proj2 (proj2 (comma_criterion_spec "list files, show text"))).
    vm_compute. lia.
Defined.

(** C6 as stated fails in its second half: an utterance with only two
    non-empty comma-separated parts, on which the first two criteria are
    silent, is classified as a pipeline by the comma heuristic. *)
Lemma comma_criterion_counts_empty_parts :
  comma_parts "list files,,show text" = ["list files"; ""; "show text"]
  /\ List.length (filter truthy (comma_parts "list files,,show text")) = 2
  /\ has_pipeline_pattern "list files,,show text" = false
  /\ action_count "list files,,show text" = 0
  /\ comma_criterion "list files,,show text" = true
  /\ is_pipeline "list files,,show text" = true.
Proof. vm_compute. repeat split. Qed.

End DetectorFacts.

(* ===================================================================== *)
(** ** CommandPipeline: execution *)
(* ===================================================================== *)

Module ExecFacts.
Import Exec ExecSpec.

Lemma mapped_stages_app tr1 tr2 :
  mapped_stages (tr1 ++ tr2) = mapped_stages tr1 ++ mapped_stages tr2.
Proof.
  induction tr1 as [|e tr1 IH]; simpl; auto.
  destruct e; simpl; rewrite IH; reflexivity.
Qed.

Lemma invocations_app tr1 tr2 :
  invocations (tr1 ++ tr2) = invocations tr1 + invocations tr2.
Proof.
  induction tr1 as [|e tr1 IH]; simpl; auto.
  destruct e; simpl; rewrite IH; reflexivity.
Qed.

Section WithRuntime.
Variable R : Runtime.
Implicit Types st : State R.

(** *** The trace of each operation *)

Lemma single_command_run cmd st :
  exists r w,
    _execute_single_command cmd st
    = (r, {| st_world := w; trace := trace st ++ [EvExecutor cmd] |})
    /\ returncode r <> None.
Proof.
  unfold _execute_single_command, bind, log, lift, ret.
  cbn [st_world trace].
  destruct (executor R cmd (st_world st)) as [o w].
  eexists _, w. split; [reflexivity|].
  destruct o as [[d| |s|t r]|msg];
    try destruct (Py.startswith s "PYTHON_HANDLED"); discriminate.
Qed.

Lemma native_command_run argv inp st :
  exists r w input,
    _execute_native_command argv inp st
    = (r, {| st_world := w; trace := trace st ++ [EvProcess argv input] |})
    /\ returncode r <> None
    /\ (forall d, inp = Some d -> Py.truthy d = true -> input = Some d).
Proof.
  unfold _execute_native_command, bind, log, lift, ret.
  cbn [st_world trace].
  destruct (subprocess_run R argv (process_input inp) (st_world st))
    as [o w].
  eexists _, w, (process_input inp). split; [reflexivity|]. split.
  - destruct o; discriminate.
  - intros d -> Hd. simpl. now rewrite Hd.
Qed.

(** One iteration of the loop maps its stage, then makes exactly one
    invocation; the stage's result always carries an exit code. *)
Lemma run_stage_run stage b inp temps st :
  exists r temps' w evs,
    run_stage stage b inp temps st
    = ((r, temps'), {| st_world := w;
                       trace := trace st ++ EvMapNative stage :: evs |})
    /\ mapped_stages evs = []
    /\ invocations evs = 1
    /\ returncode r <> None
    /\ (forall d, inp = Some d -> Py.truthy d = true ->
        exists e evs', evs = e :: evs' /\ receives e d).
Proof.
  unfold run_stage, bind, log, ret. simpl.
  set (st0 := {| st_world := st_world st;
                 trace := trace st ++ [EvMapNative stage] |}).
  destruct (_map_to_native_command stage inp b) as [[|a argv]|] eqn:Emap.
  1, 3:
    destruct inp as [data|];
    [ unfold lift; simpl;
      destruct (mktemp R data (st_world st)) as [name w1];
      match goal with
      | |- context [_execute_single_command ?c ?s] =>
          destruct (single_command_run c s) as (r & w & E & Hrc)
      end;
      rewrite E; simpl;
      exists r, (temps ++ [name]), w,
        [EvTempFile name data; EvExecutor
           {| cmd_action := action stage;
              cmd_args := if (action stage =? "display_file")
                             || (action stage =? "cat")
                          then [name] else args stage |}];
      rewrite <- !app_assoc; simpl;
      repeat split; auto;
      intros d Hd _; injection Hd as <-;
      eexists _, _; split; [reflexivity|]; right; now exists name
    | destruct (single_command_run
                  {| cmd_action := action stage; cmd_args := args stage |}
                  st0) as (r & w & E & Hrc);
      rewrite E; simpl;
      exists r, temps, w,
        [EvExecutor {| cmd_action := action stage;
                       cmd_args := args stage |}];
      rewrite <- !app_assoc; simpl;
      repeat split; auto; discriminate ].
  destruct (native_command_run (a :: argv) inp st0)
    as (r & w & input & E & Hrc & Hin).
  rewrite E. simpl.
  exists r, temps, w, [EvProcess (a :: argv) input].
  rewrite <- !app_assoc. simpl. repeat split; auto.
  intros d Hd Ht. eexists _, _. split; [reflexivity|].
  left. exists (a :: argv). now rewrite (Hin d Hd Ht).
Qed.

Lemma cleanup_run temps st :
  exists w evs,
    cleanup temps st
    = (tt, {| st_world := w; trace := trace st ++ evs |})
    /\ mapped_stages evs = [] /\ invocations evs = 0.
Proof.
  revert st. induction temps as [|f fs IH]; intros st.
  - exists (st_world st), []. rewrite app_nil_r. destruct st. auto.
  - cbn [cleanup]. unfold bind, log, lift. simpl.
    match goal with
    | |- context [cleanup fs ?s] =>
        destruct (IH s) as (w & evs & E & Hm & Hi)
    end.
    rewrite E. simpl. exists w, (EvUnlink f :: evs).
    rewrite <- app_assoc. simpl. auto.
Qed.

(** A delegated command fails exactly when the executor raises or
returns a dict with a non-zero exit code. *)
Lemma single_command_fails_iff cmd st :
  success (fst (_execute_single_command cmd st)) = false
  <-> (exists msg, fst (executor R cmd (st_world st)) = Raised msg)
      \/ (exists d, fst (executor R cmd (st_world st)) = Returned (VDict d)
                    /\ from_opt 0%Z (rd_returncode d) <> 0%Z).
Proof.
  unfold _execute_single_command, bind, log, lift, ret.
  cbn [st_world trace].
  destruct (executor R cmd (st_world st)) as [o w]. cbn [fst].
  destruct o as [[d| |s|t r]|msg]; cbn [success].
  - rewrite Z.eqb_neq. split.
    + intros H. right. exists d. auto.
    + intros [[msg H]|(d' & H & Hrc)]; [discriminate|].
      injection H as <-. exact Hrc.
  - split; [discriminate|]. intros [[? H]|(? & H & _)]; discriminate.
  - destruct (Py.startswith s "PYTHON_HANDLED"); cbn [success];
      (split; [discriminate|]);
      intros [[? H]|(? & H & _)]; discriminate.
  - split; [discriminate|]. intros [[? H]|(? & H & _)]; discriminate.
  - split; auto. intros _. left. now exists msg.
Qed.

(** A native command fails exactly when the process cannot be run or
exits with a non-zero code. *)
Lemma native_command_fails_iff argv inp st :
  success (fst (_execute_native_command argv inp st)) = false
  <-> (exists msg,
         fst (subprocess_run R argv (process_input inp) (st_world st))
         = ProcRaised msg)
      \/ (exists rc out err,
            fst (subprocess_run R argv (process_input inp) (st_world st))
            = Completed rc out err /\ rc <> 0%Z).
Proof.
  unfold _execute_native_command, bind, log, lift, ret.
  cbn [st_world trace].
  destruct (subprocess_run R argv (process_input inp) (st_world st))
    as [o w]. cbn [fst].
  destruct o as [rc out err|msg]; cbn [success].
  - rewrite Z.eqb_neq. split.
    + intros H. right. exists rc, out, err. auto.
    + intros [[msg H]|(rc' & o' & e' & H & Hrc)]; [discriminate|].
      injection H as <- _ _. exact Hrc.
  - split; auto. intros _. left. now exists msg.
Qed.

Lemma stages_loop_run rest : forall len i n inp temps st,
  exists res temps' w evs,
    stages_loop len i rest n inp temps st
    = ((res, temps'), {| st_world := w; trace := trace st ++ evs |})
    /\ (forall s, In s (mapped_stages evs) -> In s rest)
    /\ returncode res <> None.
Proof.
  induction rest as [|stage rest IH]; intros len i n inp temps st.
  - exists (pipeline_success inp n), temps, (st_world st), [].
    rewrite app_nil_r. destruct st. simpl. repeat split; auto.
    discriminate.
  - cbn [stages_loop]. unfold bind.
    destruct (run_stage_run stage (Nat.eqb i (len - 1)) inp temps st)
      as (r & temps1 & w1 & evs1 & E & Hm & _).
    rewrite E. destruct (negb (success r)).
    + exists (stage_failure r (n + 1) i), temps1, w1,
        (EvMapNative stage :: evs1).
      split; [reflexivity|]. simpl. rewrite Hm. simpl.
      split; [tauto | discriminate].
    + match goal with
      | |- context [stages_loop len (S i) rest ?n' ?inp' temps1 ?s] =>
          destruct (IH len (S i) n' inp' temps1 s)
            as (res & temps2 & w2 & evs2 & E2 & Hin & Hrc)
      end.
      rewrite E2. simpl.
      exists res, temps2, w2, ((EvMapNative stage :: evs1) ++ evs2).
      rewrite <- app_assoc. split; [reflexivity|]. split; [|exact Hrc].
      intros s. rewrite mapped_stages_app. simpl. rewrite Hm. simpl.
      intros [->|H]; auto.
Qed.

(** A run of successful stages is a prefix of the loop. *)
Lemma stages_loop_succeed len i pre inp temps st inp1 temps1 st1 :
  stages_succeed len i pre inp temps st inp1 temps1 st1 ->
  forall rest n,
    stages_loop len i (pre ++ rest) n inp temps st
    = stages_loop len (i + List.length pre) rest (n + List.length pre)
        inp1 temps1 st1.
Proof.
  induction 1 as [i inp temps st
                 |i stage pre inp temps st r tmp1 s1 inp2 tmp2 s2
                    Hrun Hok _ IH]; intros rest n.
  - simpl. now rewrite !Nat.add_0_r.
  - cbn [app stages_loop]. unfold bind at 1. rewrite Hrun, Hok.
    cbn [negb]. rewrite IH. cbn [List.length].
    f_equal; lia.
Qed.

Lemma stages_succeed_trace len i pre inp temps st inp1 temps1 st1 :
  stages_succeed len i pre inp temps st inp1 temps1 st1 ->
  exists evs,
    trace st1 = trace st ++ evs
    /\ mapped_stages evs = pre
    /\ invocations evs = List.length pre.
Proof.
  induction 1 as [i inp temps st
                 |i stage pre inp temps st r tmp1 s1 inp2 tmp2 s2
                    Hrun Hok _ (evs & Ht & Hm & Hi)].
  - exists []. now rewrite app_nil_r.
  - destruct (run_stage_run stage (Nat.eqb i (len - 1)) inp temps st)
      as (r' & t' & w' & evs1 & E & Hm1 & Hi1 & _).
    rewrite E in Hrun. injection Hrun as _ _ <-. cbn [trace] in Ht.
    exists ((EvMapNative stage :: evs1) ++ evs).
    rewrite Ht, <- app_assoc, mapped_stages_app, invocations_app.
    simpl. rewrite Hm1, Hi1, Hm, Hi. auto.
Qed.

Lemma multi_stage_of_loop pipeline st res temps st1 :
  stages_loop (List.length pipeline) 0 pipeline 0 None [] st
    = ((res, temps), st1) ->
  exists w evs,
    _execute_multi_stage_pipeline pipeline st
    = (res, {| st_world := w; trace := trace st1 ++ evs |})
    /\ mapped_stages evs = [] /\ invocations evs = 0.
Proof.
  intros E. unfold _execute_multi_stage_pipeline, bind. rewrite E.
  cbn [fst snd].
  destruct (cleanup_run temps st1) as (w & evs & Ec & Hm & Hi).
  rewrite Ec. exists w, evs. auto.
Qed.

Lemma execute_pipeline_multi pipeline :
  2 <= List.length pipeline ->
  @execute_pipeline R pipeline = _execute_multi_stage_pipeline pipeline.
Proof.
  destruct pipeline as [|s1 [|s2 rest]]; simpl; try lia. reflexivity.
Qed.

End WithRuntime.

Lemma is_terminal_false a :
  is_terminal a = false <-> ~ In a ["unrecognized"; "suggest"; "error"].
Proof.
  unfold is_terminal, terminal_actions. split.
  - intros H Hin.
    assert (existsb (String.eqb a) ["unrecognized"; "suggest"; "error"] = true).
    { apply existsb_exists. exists a. split; auto. apply String.eqb_refl. }
    congruence.
  - intros H. destruct (existsb _ _) eqn:E; auto.
    apply existsb_exists in E as (x & Hin & Hx).
    apply String.eqb_eq in Hx. subst. contradiction.
Qed.

Section WithParser.
Variable P : Type.
Variable parse_input : string -> P -> option ParsedDict * P.

Lemma parse_stages_not_terminal texts : forall p,
  Forall (fun s => is_terminal (action s) = false)
    (fst (parse_stages parse_input texts p)).
Proof.
  induction texts as [|t texts IH]; intros p; cbn [parse_stages].
  - constructor.
  - destruct (parse_input t p) as [cmd p1].
    specialize (IH p1).
    destruct (parse_stages parse_input texts p1) as [pipeline p2].
    cbn [fst] in IH.
    destruct cmd as [[[a|] oargs]|]; cbn [fst]; auto.
    destruct (is_terminal a) eqn:E; cbn [negb fst]; auto.
Qed.

Lemma parse_pipeline_shape text p :
  List.length (fst (parse_pipeline parse_input text p)) <= 1
  \/ Forall (fun s => is_terminal (action s) = false)
       (fst (parse_pipeline parse_input text p)).
Proof.
  unfold parse_pipeline.
  destruct (negb (Splitter.detect_pipeline text)).
  - left. destruct (parse_input text p) as [[[[a|] oargs]|] p1];
      simpl; lia.
  - right. apply parse_stages_not_terminal.
Qed.
End WithParser.

(** C4. An empty stage list is an error: the result has
    [success = false], the "Empty pipeline" message and
    [stages_executed = 0], and neither the world nor the trace of
    invocations changes.  The result is dedicated to this case: no
    non-empty pipeline produces it. *)
Theorem execute_empty_pipeline (R : Runtime) (st : State R) :
  execute_pipeline [] st
  = ({| success := false; error := Some "Empty pipeline"; stdout := "";
        stderr := "No commands to execute"; returncode := None;
        stages_executed := Some 0; failed_stage := None |}, st)
  /\ forall pipeline (st' : State R),
       fst (execute_pipeline pipeline st') = empty_pipeline_result ->
       pipeline = [].
Proof.
  split; [reflexivity|]. intros pipeline st' H.
  destruct pipeline as [|s [|s' l]]; [reflexivity| |]; exfalso.
  - cbn [execute_pipeline] in H.
    destruct (single_command_run
                {| cmd_action := action s; cmd_args := args s |} st')
      as (r & w & E & Hrc).
    rewrite E in H. cbn [fst] in H. subst r. now apply Hrc.
  - rewrite execute_pipeline_multi in H by (simpl; lia).
    destruct (stages_loop_run (s :: s' :: l)
                (List.length (s :: s' :: l)) 0 0 None [] st')
      as (res & temps & w & evs & E & _ & Hrc).
    destruct (@multi_stage_of_loop R _ _ _ _ _ E) as (w' & evs' & E' & _).
    rewrite E' in H. cbn [fst] in H. subst res. now apply Hrc.
Qed.

(** C2. In a pipeline of at least two stages, when the stages before
    index [i] succeed and the stage at index [i] fails, the executor
    returns [success = false] with that stage's stdout, stderr and exit
    code, [failed_stage = i] and [stages_executed = i + 1] (the failing
    stage is counted); the stages mapped and invoked are exactly those up
    to index [i]. *)
Theorem multi_stage_halts_on_first_failure (R : Runtime)
  (pre : list PipelineStage) (stage : PipelineStage)
  (post : list PipelineStage) (st st1 st2 : State R)
  (inp : option string) (temps temps2 : list string) (r : Result) :
  2 <= List.length (pre ++ stage :: post) ->
  stages_succeed (List.length (pre ++ stage :: post)) 0 pre None [] st
    inp temps st1 ->
  run_stage stage
    (Nat.eqb (List.length pre) (List.length (pre ++ stage :: post) - 1))
    inp temps st1 = ((r, temps2), st2) ->
  success r = false ->
  exists w evs,
    execute_pipeline (pre ++ stage :: post) st
    = ({| success := false; error := None; stdout := stdout r;
          stderr := stderr r; returncode := returncode r;
          stages_executed := Some (List.length pre + 1);
          failed_stage := Some (List.length pre) |},
       {| st_world := w; trace := trace st ++ evs |})
    /\ mapped_stages evs = pre ++ [stage]
    /\ invocations evs = List.length pre + 1.
Proof.
  intros Hlen Hpre Hrun Hfail.
  rewrite (execute_pipeline_multi R _ Hlen).
  pose proof (@stages_loop_succeed R _ _ _ _ _ _ _ _ _ Hpre (stage :: post) 0)
    as Hloop.
  cbn [Nat.add] in Hloop.
  cbn [stages_loop] in Hloop. unfold bind in Hloop.
  rewrite Hrun, Hfail in Hloop. cbn [negb] in Hloop. unfold ret in Hloop.
  destruct (@multi_stage_of_loop R _ _ _ _ _ Hloop) as (w & evs3 & E & Hm3 & Hi3).
  destruct (@stages_succeed_trace R _ _ _ _ _ _ _ _ _ Hpre) as (evs1 & Ht1 & Hm1 & Hi1).
  destruct (run_stage_run stage
              (Nat.eqb (List.length pre)
                 (List.length (pre ++ stage :: post) - 1)) inp temps st1)
    as (r' & t' & w2 & evs2 & E2 & Hm2 & Hi2 & Hrc & _).
  rewrite Hrun in E2. injection E2 as <- <- ->.
  exists w, (evs1 ++ (EvMapNative stage :: evs2) ++ evs3).
  rewrite E. cbn [trace]. rewrite Ht1, <- !app_assoc.
  split; [|split].
  - unfold stage_failure. repeat f_equal.
    destruct (returncode r); [reflexivity | congruence].
  - rewrite !mapped_stages_app. simpl. rewrite Hm1, Hm2, Hm3. reflexivity.
  - rewrite !invocations_app. simpl. rewrite Hi1, Hi2, Hi3. lia.
Qed.

Lemma multi_stage_halts_on_first_failure_witness :
  exists w evs,
    execute_pipeline
      ([mkStage "list_files" [] None]
         ++ mkStage "count_lines" [] None :: [mkStage "sort_lines" [] None])
      Reference.initial_state
    = ({| success := false; error := None; stdout := "";
          stderr := "wc: standard input: failure";
          returncode := Some 1%Z;
          stages_executed := Some 2; failed_stage := Some 1 |},
       {| st_world := w; trace := trace Reference.initial_state ++ evs |})
    /\ mapped_stages evs
       = [mkStage "list_files" [] None] ++ [mkStage "count_lines" [] None]
    /\ invocations evs = 2.
Proof.
  refine (@multi_stage_halts_on_first_failure Reference.simple_runtime
            [mkStage "list_files" [] None] (mkStage "count_lines" [] None)
            [mkStage "sort_lines" [] None] Reference.initial_state
            (@mkState Reference.simple_runtime tt
               [EvMapNative (mkStage "list_files" [] None);
                EvProcess ["ls"] None])
            (@mkState Reference.simple_runtime tt
               [EvMapNative (mkStage "list_files" [] None);
                EvProcess ["ls"] None;
                EvMapNative (mkStage "count_lines" [] None);
                EvProcess ["wc"; "-l"] (Some "file1.txt file2.txt")])
            (Some "file1.txt file2.txt") [] []
            {| success := false; error := None; stdout := "";
               stderr := "wc: standard input: failure";
               returncode := Some 1%Z; stages_executed := None;
               failed_stage := None |}
            _ _ _ _).
  - simpl. lia.
  - eapply succeed_cons; [reflexivity | reflexivity | apply succeed_nil].
  - reflexivity.
  - reflexivity.
Defined.

(** C5. Whatever the parser answers, the stages that [execute_pipeline]
    hands to [_map_to_native_command] for a pipeline built by
    [parse_pipeline] never carry the action "unrecognized", "suggest" or
    "error". *)
Theorem terminal_actions_never_mapped (R : Runtime) (P : Type)
  (parse_input : string -> P -> option ParsedDict * P)
  (text : string) (p : P) (st : State R) :
  exists evs,
    trace (snd (execute_pipeline (fst (parse_pipeline parse_input text p)) st))
    = trace st ++ evs
    /\ Forall (fun stage =>
                 ~ In (action stage) ["unrecognized"; "suggest"; "error"])
         (mapped_stages evs).
Proof.
  destruct (parse_pipeline_shape parse_input text p) as [Hlen|Hall].
  - destruct (fst (parse_pipeline parse_input text p)) as [|s [|s' l]];
      simpl in Hlen; try lia.
    + exists []. simpl. now rewrite app_nil_r.
    + cbn [execute_pipeline].
      destruct (single_command_run
                  {| cmd_action := action s; cmd_args := args s |} st)
        as (r & w & E & _).
      rewrite E. exists [EvExecutor {| cmd_action := action s;
                                       cmd_args := args s |}].
      simpl. auto.
  - set (pipeline := fst (parse_pipeline parse_input text p)) in *.
    assert (Hsub : exists evs,
               trace (snd (execute_pipeline pipeline st)) = trace st ++ evs
               /\ forall s, In s (mapped_stages evs) -> In s pipeline).
    { destruct pipeline as [|s [|s' l]] eqn:Ep.
      - exists []. simpl. now rewrite app_nil_r.
      - cbn [execute_pipeline].
        destruct (single_command_run
                    {| cmd_action := action s; cmd_args := args s |} st)
          as (r & w & E & _).
        rewrite E. eexists. split; [reflexivity|]. simpl. tauto.
      - rewrite execute_pipeline_multi by (simpl; lia).
        destruct (stages_loop_run (s :: s' :: l)
                    (List.length (s :: s' :: l)) 0 0 None [] st)
          as (res & temps & w & evs & E & Hin & _).
        destruct (@multi_stage_of_loop R _ _ _ _ _ E) as (w' & evs' & E' & Hm & _).
        rewrite E'. cbn [snd trace]. exists (evs ++ evs').
        rewrite app_assoc. split; [reflexivity|].
        intros x. rewrite mapped_stages_app, Hm, app_nil_r. apply Hin. }
    destruct Hsub as (evs & Ht & Hin). exists evs. split; [exact Ht|].
    rewrite Forall_forall in *. intros s Hs.
    apply is_terminal_false, Hall, Hin, Hs.
Qed.





End ExecFacts.

(* ===================================================================== *)
(** ** EnhancedParser.parse_input *)
(* ===================================================================== *)

Module ParserFacts.
Import Py Spec PyFacts Parser.

Lemma Qgt_bool_iff a b : Qgt_bool a b = true <-> (b < a)%Q.
Proof.
  unfold Qgt_bool. rewrite negb_true_iff. split.
  - intros H. apply Qnot_le_lt. intros Hle.
    apply Qle_bool_iff in Hle. congruence.
  - intros H. destruct (Qle_bool a b) eqn:E; auto.
    apply Qle_bool_iff in E. apply Qlt_not_le in H. contradiction.
Qed.

Lemma Qgt_bool_false_iff a b : Qgt_bool a b = false <-> (a <= b)%Q.
Proof.
  unfold Qgt_bool. rewrite negb_false_iff. apply Qle_bool_iff.
Qed.

Lemma not_blank_strip text : ~ blank text -> is_empty (strip text) = false.
Proof.
  intros H. destruct (is_empty (strip text)) eqn:E; auto.
  apply strip_empty_iff in E. contradiction.
Qed.

(** The phrase matcher is loaded with multi-word phrases only. *)
Lemma command_patterns_multi_word (N : Nlp) keywords :
  Forall (fun pat => In (fst pat) (Dict.keys keywords)
                     /\ contains (fst pat) " " = true)
    (command_patterns N keywords).
Proof.
  unfold command_patterns. apply Forall_forall. intros pat Hin.
  apply in_map_iff in Hin as (phrase & <- & Hin).
  apply filter_In in Hin. exact Hin.
Qed.

Section WithNlp.
Variable N : Nlp.

(** The loop over the corrections answers with the first correction
    whose similarity to the text exceeds 90. *)
Lemma check_corrections_first text before original action after :
  (forall o a, In (o, a) before ->
               (ratio N (lower text) (lower o) <= 90)%Q) ->
  (90 < ratio N (lower text) (lower original))%Q ->
  fst (check_corrections N text (before ++ (original, action) :: after))
  = Some action.
Proof.
  intros Hbefore Hhit. induction before as [|[o a] before IH].
  - simpl. apply Qgt_bool_iff in Hhit. now rewrite Hhit.
  - cbn [app check_corrections].
    assert (Ho : Qgt_bool (ratio N (lower text) (lower o)) 90 = false)
      by (apply Qgt_bool_false_iff, (Hbefore o a); now left).
    rewrite Ho.
    destruct (check_corrections N text
                (before ++ (original, action) :: after)) as [r evs].
    apply IH. intros o' a' Hin. apply (Hbefore o' a'). now right.
Qed.

Lemma check_corrections_none text items :
  (forall o a, In (o, a) items ->
               (ratio N (lower text) (lower o) <= 90)%Q) ->
  fst (check_corrections N text items) = None
  /\ forall q, ~ In (EvExtractOne q) (snd (check_corrections N text items)).
Proof.
  induction items as [|[o a] items IH]; intros H.
  - simpl. auto.
  - cbn [check_corrections].
    assert (Ho : Qgt_bool (ratio N (lower text) (lower o)) 90 = false)
      by (apply Qgt_bool_false_iff, (H o a); now left).
    rewrite Ho.
    destruct IH as [IH1 IH2];
      [intros o' a' Hin; apply (H o' a'); now right|].
    destruct (check_corrections N text items) as [r evs].
    cbn [fst snd] in *. split; auto.
    intros q [Hq|Hq]; [discriminate | now apply (IH2 q)].
Qed.

Lemma finish_command_action p text doc context a :
  exists c p',
    finish_command N p text doc context a = (Some (Structured c), p')
    /\ c_action c = a /\ c_original_text c = text
    /\ plog p' = plog p ++ [EvSave].
Proof. eexists _, _. split; [reflexivity|]. simpl. auto. Qed.

End WithNlp.

Lemma dict_set_values (d : Dict.t string) k v (Q : string -> Prop) :
  Forall (fun kv => Q (snd kv)) d -> Q v ->
  Forall (fun kv => Q (snd kv)) (Dict.set d k v).
Proof.
intros Hd Hv. induction d as [|[k' v'] d IH]; simpl.
- constructor; auto.
- inversion Hd as [|? ? H1 H2]; subst.
  destruct (String.eqb k' k); constructor; auto.
Qed.

(** Feedback never records a correction with an empty action, and parsing
  does not touch the corrections. *)
Lemma record_feedback_corrections_ok p text was_correct correct_action :
  corrections_ok (learning_data p) ->
  corrections_ok
    (learning_data (record_feedback p text was_correct correct_action)).
Proof.
unfold corrections_ok, record_feedback. intros H.
destruct was_correct; simpl; auto.
destruct correct_action as [a|]; auto.
destruct (truthy a) eqn:E; auto.
apply (@dict_set_values _ text a (fun x => x <> "")); auto.
now apply truthy_true.
Qed.

Lemma init_corrections_ok user_keywords writable :
  corrections_ok (learning_data (init user_keywords None writable)).
Proof. constructor. Qed.

Lemma parse_input_corrections (N : Nlp) p text :
  user_corrections (learning_data (snd (parse_input N p text)))
  = user_corrections (learning_data p).
Proof.
unfold parse_input. destruct (is_empty (strip text)); [reflexivity|].
destruct (recognize_intent N p text (nlp N text)) as [[aid sugg] evs1].
destruct (_check_learning_data N (learning_data p) text) as [learned evs2].
repeat match goal with
       | |- context [if ?b then _ else _] => destruct b
       | |- context [match ?x with Some _ => _ | None => _ end] =>
           destruct x
       | |- context [let (_, _) := ?x in _] => destruct x
       end; reflexivity.
Qed.

(** C10. On an empty or whitespace-only text [parse_input] returns
    [None] and leaves the parser as it was: no command is added to the
    history, the learning data and the persisted file are untouched, and
    no scorer is called. *)
Theorem parse_input_blank (N : Nlp) (p : EnhancedParser) (text : string) :
  blank text -> parse_input N p text = (None, p).
Proof.
  intros H. unfold parse_input.
  apply strip_empty_iff in H. now rewrite H.
Qed.

Lemma parse_input_blank_witness :
  parse_input Reference.simple_nlp Reference.fresh_parser "   "
  = (None, Reference.fresh_parser).
Proof.
  apply (@parse_input_blank Reference.simple_nlp Reference.fresh_parser "   ").
  reflexivity.
Defined.

(** C3 (as the code has it). For a text that is not blank, the first
    recorded correction, in the order of the corrections, whose source
    utterance has similarity above 90 to the text decides the action,
    provided its action is not the empty string: [parse_input] returns a
    command with that action, whatever the phrase matcher and the fuzzy
    scorer answer. *)
Theorem learned_correction_overrides (N : Nlp) (p : EnhancedParser)
  (text original action : string) (before after : Dict.t string) :
  ~ blank text ->
  user_corrections (learning_data p)
    = before ++ (original, action) :: after ->
  (forall o a, In (o, a) before ->
               (ratio N (lower text) (lower o) <= 90)%Q) ->
  (90 < ratio N (lower text) (lower original))%Q ->
  action <> "" ->
  exists c p',
    parse_input N p text = (Some (Structured c), p')
    /\ c_action c = action.
Proof.
  intros Hnb Hcorr Hbefore Hhit Hact. unfold parse_input.
  rewrite (not_blank_strip Hnb).
  destruct (recognize_intent N p text (nlp N text)) as [[aid sugg] evs1].
  unfold _check_learning_data. rewrite Hcorr.
  pose proof (check_corrections_first N text before original action after
                Hbefore Hhit) as Hc.
  destruct (check_corrections N text (before ++ (original, action) :: after))
    as [learned evs2].
  cbn [fst] in Hc. subst learned.
  apply truthy_true in Hact. rewrite Hact. cbn [negb andb].
  match goal with
  | |- context [finish_command N ?p' text ?d ?ctx action] =>
      destruct (finish_command_action N p' text d ctx action)
        as (c & p2 & E & Ha & _)
  end.
  exists c, p2. rewrite Hact. cbn [negb andb]. auto.
Qed.

Lemma learned_correction_overrides_witness :
  exists c p',
    parse_input Reference.simple_nlp
      (record_feedback Reference.fresh_parser "shoe me files" false
         (Some "list_files"))
      "shoe me files"
    = (Some (Structured c), p')
    /\ c_action c = "list_files".
Proof.
  apply (@learned_correction_overrides Reference.simple_nlp
           (record_feedback Reference.fresh_parser "shoe me files" false
              (Some "list_files"))
           "shoe me files" "shoe me files" "list_files" [] []).
  - unfold blank. vm_compute. discriminate.
  - reflexivity.
  - intros o a [].
  - vm_compute. reflexivity.
  - discriminate.
Defined.

(** C3 as stated fails.  A correction recorded for a whitespace-only
    utterance has similarity 100 to that utterance, yet [parse_input]
    answers [None]; and of two corrections that are both similar above 90
    to the text, only the first one recorded is applied. *)
Lemma learned_correction_not_always_applied :
  (In ("  ", "list_files")
     (user_corrections
        (learning_data
           (record_feedback Reference.fresh_parser "  " false
              (Some "list_files"))))
   /\ (90 < ratio Reference.simple_nlp (lower "  ") (lower "  "))%Q
   /\ fst (parse_input Reference.simple_nlp
             (record_feedback Reference.fresh_parser "  " false
                (Some "list_files")) "  ") = None)
  /\ (In ("LIST FILES", "change_directory")
        (user_corrections
           (learning_data
              (record_feedback
                 (record_feedback Reference.fresh_parser "list files" false
                    (Some "show_path"))
                 "LIST FILES" false (Some "change_directory"))))
      /\ (90 < ratio Reference.simple_nlp (lower "list files")
                 (lower "LIST FILES"))%Q
      /\ option_map parsed_action
           (fst (parse_input Reference.simple_nlp
                   (record_feedback
                      (record_feedback Reference.fresh_parser "list files"
                         false (Some "show_path"))
                      "LIST FILES" false (Some "change_directory"))
                   "list files"))
         = Some "show_path").
Proof.
  split; (split; [vm_compute; auto | split; vm_compute; reflexivity]).
Qed.

(** C1 (as the code has it). The phrase matcher holds the multi-word
    vocabulary phrases only.  For a text that is not blank, when the first
    match it reports reads, in lower case, as a vocabulary phrase with a
    non-empty action, and no recorded correction is similar above 90 to
    the text, [parse_input] returns a command with that action and does
    not call [extractOne]. *)
Theorem exact_phrase_match_resolves (N : Nlp) (p : EnhancedParser)
  (text key a : string) (start stop : nat) (rest : list Match) :
  ~ blank text ->
  command_matcher N (action_keywords p) (nlp N text)
    = (key, start, stop) :: rest ->
  Dict.get (action_keywords p) (lower (span_text (nlp N text) start stop))
    = Some a ->
  a <> "" ->
  (forall o a', In (o, a') (user_corrections (learning_data p)) ->
                (ratio N (lower text) (lower o) <= 90)%Q) ->
  Forall (fun pat => In (fst pat) (Dict.keys (action_keywords p))
                     /\ contains (fst pat) " " = true)
    (command_patterns N (action_keywords p))
  /\ exists c p' evs,
       parse_input N p text = (Some (Structured c), p')
       /\ c_action c = a
       /\ plog p' = plog p ++ evs
       /\ forall q, ~ In (EvExtractOne q) evs.
Proof.
  intros Hnb Hm Hget Ha Hcorr.
  split; [apply command_patterns_multi_word|].
  unfold parse_input. rewrite (not_blank_strip Hnb).
  assert (Hex : exact_match N p (nlp N text) = Some a)
    by (unfold exact_match; now rewrite Hm).
  apply truthy_true in Ha.
  unfold recognize_intent. rewrite Hex, Ha. cbn [negb].
  unfold _check_learning_data.
  destruct (check_corrections_none N text _ Hcorr) as [Hnone Hlog].
  destruct (check_corrections N text (user_corrections (learning_data p)))
    as [learned evs2].
  cbn [fst snd] in Hnone, Hlog. subst learned.
  rewrite Ha. cbn [negb andb app].
  match goal with
  | |- context [finish_command N ?p' text ?d ?ctx a] =>
      destruct (finish_command_action N p' text d ctx a)
        as (c & p2 & E & Hc & _ & Hl)
  end.
  exists c, p2, (evs2 ++ [EvSave]). rewrite E, Hl.
  repeat split; auto.
  - cbn [with_log plog]. now rewrite app_assoc.
  - intros q Hin. apply in_app_or in Hin as [Hin|[Hin|[]]].
    + now apply (Hlog q).
    + discriminate.
Qed.

Lemma exact_phrase_match_resolves_witness :
  Forall (fun pat =>
            In (fst pat) (Dict.keys (action_keywords Reference.fresh_parser))
            /\ contains (fst pat) " " = true)
    (command_patterns Reference.simple_nlp
       (action_keywords Reference.fresh_parser))
  /\ exists c p' evs,
       parse_input Reference.simple_nlp Reference.fresh_parser
         "please list files"
       = (Some (Structured c), p')
       /\ c_action c = "list_files"
       /\ plog p' = plog Reference.fresh_parser ++ evs
       /\ forall q, ~ In (EvExtractOne q) evs.
Proof.
  apply (@exact_phrase_match_resolves Reference.simple_nlp
           Reference.fresh_parser "please list files" "list files"
           "list_files" 1 3 []).
  - unfold blank. vm_compute. discriminate.
  - reflexivity.
  - reflexivity.
  - discriminate.
  - intros o a' [].
Defined.

(** C1 as stated fails.  The utterance "list files" contains the
    vocabulary phrase "list files" (action "list_files") and the phrase
    matcher reports it, but with a recorded correction for that utterance
    the command's action is the corrected one; and the utterance "ls"
    contains the vocabulary phrase "ls", which is resolved through
    [extractOne]. *)
Lemma exact_phrase_match_not_final :
  (Dict.get base_action_keywords "list files" = Some "list_files"
   /\ occurs_in "list files" "list files"
   /\ command_matcher Reference.simple_nlp base_action_keywords
        (nlp Reference.simple_nlp "list files") = [("list files", 0, 2)]
   /\ option_map parsed_action
        (fst (parse_input Reference.simple_nlp
                (record_feedback Reference.fresh_parser "list files" false
                   (Some "show_path"))
                "list files"))
      = Some "show_path")
  /\ (Dict.get base_action_keywords "ls" = Some "list_files"
      /\ occurs_in "ls" "ls"
      /\ In (EvExtractOne "ls")
           (plog (snd (parse_input Reference.simple_nlp
                         Reference.fresh_parser "ls")))).
Proof.
  split.
  - split; [reflexivity|]. split; [now exists "", ""|].
    split; vm_compute; reflexivity.
  - split; [reflexivity|]. split; [now exists "", ""|].
    vm_compute. auto.
Qed.

End ParserFacts.

(* ===================================================================== *)
(** ** CommandPipeline.split_pipeline_stages *)
(* ===================================================================== *)

Module SplitterFacts.
Import Py Re Spec PyFacts ReFacts Splitter.

(** *** Literals and marker texts *)

Lemma run_lit_ci (A : Type) v : forall prev s (k : cont A),
    run (lit v) prev s k
    = if ci_prefix v s
      then k (last_or prev (take (String.length v) s))
             (drop (String.length v) s)
      else None.
Proof.
  induction v as [|c v IH]; intros prev s k.
  - simpl. destruct s; reflexivity.
  - destruct s as [|a s]; [reflexivity|].
    cbn [lit run ci_prefix String.length take drop last_or].
    destruct (ci_eqb c a); [|reflexivity]. cbn [andb]. apply IH.
Qed.

Lemma ci_prefix_length v : forall s,
    ci_prefix v s = true -> String.length v <= String.length s.
Proof.
  induction v as [|c v IH]; intros [|a s]; simpl; try lia; try discriminate.
  intros H. apply andb_prop in H as [_ H]. apply IH in H. lia.
Qed.

Lemma drop_length n : forall s,
    String.length (drop n s) = String.length s - n.
Proof.
  induction n as [|n IH]; intros [|a s]; simpl; auto; lia.
Qed.

Lemma take_drop n : forall s, (take n s ++ drop n s)%string = s.
Proof.
  induction n as [|n IH]; intros [|a s]; simpl; auto. now rewrite IH.
Qed.

Lemma ci_prefix_head v s :
    ci_prefix v s = true -> word_opt (head v) = true ->
    word_opt (head s) = true.
Proof.
  destruct v as [|c v]; [discriminate 2|].
  destruct s as [|a s]; [discriminate|]. simpl.
  intros H Hc. apply andb_prop in H as [H _].
  apply ci_eqb_true in H.
  rewrite <- is_word_lower_char, H, is_word_lower_char. exact Hc.
Qed.

Lemma ci_prefix_last v : forall s p q,
    ci_prefix v s = true -> word_opt (last_or q v) = true ->
    word_opt p = word_opt q ->
    word_opt (last_or p (take (String.length v) s)) = true.
Proof.
  induction v as [|c v IH]; intros s p q H Hl Hpq.
  - simpl in *. destruct s; simpl; congruence.
  - destruct s as [|a s]; [discriminate|].
    cbn [ci_prefix] in H. apply andb_prop in H as [Hc H].
    cbn [String.length take last_or] in *.
    apply (IH s (Some a) (Some c)); auto.
    apply ci_eqb_true in Hc. simpl.
    rewrite <- is_word_lower_char, Hc, is_word_lower_char. reflexivity.
Qed.

(** The match of [\bv\b] at a position, with its length. *)
Lemma match_len_word v prev s :
    wordish v ->
    match_len (word v) prev s
    = if hit v prev s then Some (String.length v) else None.
Proof.
  intros [Hh Hl]. unfold match_len, word, hit. cbn [seqs run].
  rewrite run_lit_ci.
  destruct (ci_prefix v s) eqn:E; cbn [andb].
  - unfold at_boundary. rewrite (ci_prefix_head _ _ E Hh).
    destruct (word_opt prev) eqn:Ep; cbn [xorb negb andb]; [reflexivity|].
    rewrite (ci_prefix_last v s prev None E Hl Ep).
    destruct (word_opt (head (drop (String.length v) s)));
      cbn [xorb negb]; [reflexivity|].
    rewrite drop_length. apply ci_prefix_length in E.
    f_equal. lia.
  - destruct (at_boundary prev s); reflexivity.
Qed.

Lemma marks_word v : wordish v -> marks (word v) [v].
Proof.
  intros Hw prev s. rewrite (match_len_word prev s Hw). reflexivity.
Qed.

Lemma ci_prefix_app a : forall b s,
    ci_prefix (a ++ b) s
    = ci_prefix a s && ci_prefix b (drop (String.length a) s).
Proof.
  induction a as [|c a IH]; intros b s.
  - reflexivity.
  - destruct s as [|x s]; [reflexivity|].
    cbn [append ci_prefix String.length drop]. rewrite IH.
    now rewrite andb_assoc.
Qed.

Lemma ci_prefix_exclusive c c' v v' s :
    lower_char c <> lower_char c' ->
    ci_prefix (String c v) s = true -> ci_prefix (String c' v') s = false.
Proof.
  intros Hne. destruct s as [|a s]; [discriminate|]. cbn [ci_prefix].
  intros H. apply andb_prop in H as [H _]. apply ci_eqb_true in H.
  destruct (ci_eqb c' a) eqn:E; [|reflexivity].
  apply ci_eqb_true in E. congruence.
Qed.

Lemma boundary_after v s p :
    v <> "" -> word_opt (last_or None v) = true -> ci_prefix v s = true ->
    at_boundary (last_or p (take (String.length v) s))
      (drop (String.length v) s)
    = negb (word_opt (head (drop (String.length v) s))).
Proof.
  intros Hne Hl H. unfold at_boundary.
  assert (Hp : word_opt (last_or p v) = true)
    by (destruct v; [congruence | exact Hl]).
  rewrite (ci_prefix_last v s p p H Hp eq_refl).
  reflexivity.
Qed.

(** The match of [\bfollow(?:ed)? by\b] at a position, with its length. *)
Lemma marks_followed_by :
    marks (seqs [WordB; lit "follow"; Opt (lit "ed"); lit " by"; WordB])
      ["followed by"; "follow by"].
Proof.
  intros prev s. unfold match_len. cbn [seqs run]. rewrite !run_lit_ci.
  cbn [String.length]. rewrite !drop_drop. cbn [Nat.add].
  unfold first_hit, hit. cbn [String.length].
  change "followed by" with ("follow" ++ ("ed" ++ " by"))%string.
  change "follow by" with ("follow" ++ " by")%string.
  rewrite !ci_prefix_app. cbn [String.length]. rewrite !drop_drop.
  cbn [Nat.add].
  destruct (ci_prefix "follow" s) eqn:F; cbn [andb];
    [|destruct (at_boundary prev s); reflexivity].
  pose proof (ci_prefix_length _ _ F) as LF. cbn [String.length] in LF.
  unfold at_boundary at 1. rewrite (ci_prefix_head _ _ F eq_refl).
  destruct (ci_prefix "ed" (drop 6 s)) eqn:ED; cbn [andb].
  - rewrite (@ci_prefix_exclusive "e" " " "d" "by" (drop 6 s)) by
      (auto; discriminate).
    pose proof (ci_prefix_length _ _ ED) as LE.
    rewrite drop_length in LE. cbn [String.length] in LE.
    destruct (ci_prefix " by" (drop 8 s)) eqn:BY; cbn [andb].
    + pose proof (ci_prefix_length _ _ BY) as LB.
      rewrite drop_length in LB. cbn [String.length] in LB.
      pose proof (@boundary_after " by" (drop 8 s)
                    (last_or (last_or prev (take 6 s)) (take 2 (drop 6 s))))
        as HB.
      cbn [String.length] in HB. rewrite drop_drop in HB. cbn [Nat.add] in HB.
      rewrite HB by (auto; discriminate).
      destruct (word_opt prev); cbn [xorb negb andb]; [reflexivity|].
      destruct (word_opt (head (drop 11 s))); cbn [negb]; [reflexivity|].
      rewrite drop_length. f_equal. lia.
    + destruct (word_opt prev); reflexivity.
  - destruct (ci_prefix " by" (drop 6 s)) eqn:BY; cbn [andb].
    + pose proof (ci_prefix_length _ _ BY) as LB.
      rewrite drop_length in LB. cbn [String.length] in LB.
      pose proof (@boundary_after " by" (drop 6 s) (last_or prev (take 6 s)))
        as HB.
      cbn [String.length] in HB. rewrite drop_drop in HB. cbn [Nat.add] in HB.
      rewrite HB by (auto; discriminate).
      destruct (word_opt prev); cbn [xorb negb andb]; [reflexivity|].
      destruct (word_opt (head (drop 9 s))); cbn [negb]; [reflexivity|].
      rewrite drop_length. f_equal. lia.
    + destruct (word_opt prev); reflexivity.
Qed.

(** *** Matching with any continuation *)

Lemma spaces_some (A B : Type) (k1 : cont A) (k2 : cont B) :
    (forall p s, is_some (k1 p s) = is_some (k2 p s)) ->
    forall s prev, is_some (spaces prev s k1) = is_some (spaces prev s k2).
Proof.
  intros Hk. induction s as [|c s IH]; intros prev; cbn [spaces]; auto.
  destruct (is_space c); auto.
  specialize (IH (Some c)).
  destruct (spaces (Some c) s k1), (spaces (Some c) s k2);
    simpl in IH; try discriminate; auto.
Qed.

Lemma run_some (A B : Type) r : forall (k1 : cont A) (k2 : cont B),
    (forall p s, is_some (k1 p s) = is_some (k2 p s)) ->
    forall prev s, is_some (run r prev s k1) = is_some (run r prev s k2).
Proof.
  induction r as [|c| | | |r1 IH1 r2 IH2|r1 IH1 r2 IH2|r1 IH1];
    intros k1 k2 Hk prev s; cbn [run].
  - apply Hk.
  - destruct s as [|a s]; auto. destruct (ci_eqb c a); auto.
  - destruct (at_boundary prev s); auto.
  - now apply spaces_some.
  - destruct s as [|a s]; auto. destruct (is_space a); auto.
    now apply spaces_some.
  - apply IH1. intros p s'. now apply IH2.
  - specialize (IH1 k1 k2 Hk prev s). specialize (IH2 k1 k2 Hk prev s).
    destruct (run r1 prev s k1), (run r1 prev s k2);
      simpl in IH1; try discriminate; auto.
  - specialize (IH1 k1 k2 Hk prev s).
    destruct (run r1 prev s k1), (run r1 prev s k2);
      simpl in IH1; try discriminate; auto.
Qed.

Lemma matches_here_match_len r prev s :
    matches_here r prev s = is_some (match_len r prev s).
Proof.
  unfold matches_here, match_len.
  change (match run r prev s (fun _ _ => Some tt) with
          | Some _ => true
          | None => false
          end)
    with (is_some (run r prev s (fun _ _ => Some tt))).
  apply run_some. reflexivity.
Qed.

Lemma first_hit_some vs prev s n :
    first_hit vs prev s = Some n ->
    exists v, In v vs /\ hit v prev s = true /\ n = String.length v.
Proof.
  induction vs as [|v vs IH]; simpl; [discriminate|].
  destruct (hit v prev s) eqn:E.
  - intros H. injection H as <-. exists v. auto.
  - intros H. destruct (IH H) as (v' & Hin & Hh & Hn). exists v'. auto.
Qed.

Lemma first_hit_none vs prev s :
    first_hit vs prev s = None ->
    forall v, In v vs -> hit v prev s = false.
Proof.
  induction vs as [|v vs IH]; simpl; [tauto|].
  destruct (hit v prev s) eqn:E; [discriminate|].
  intros H v' [<-|Hin]; auto.
Qed.

Lemma hit_first_hit vs prev s v :
    In v vs -> hit v prev s = true -> first_hit vs prev s <> None.
Proof.
  intros Hin Hh Hn. pose proof (first_hit_none _ _ _ Hn v Hin). congruence.
Qed.

(** *** Unfolding [sub] *)

Lemma last_or_app a : forall p b,
    last_or p (a ++ b)%string = last_or (last_or p a) b.
Proof. induction a as [|c a IH]; intros p b; simpl; auto. Qed.

Lemma sub_go_skip r repl n : forall s prev,
    n <= String.length s ->
    sub_go r repl prev n s
    = sub_go r repl (last_or prev (take n s)) 0 (drop n s).
Proof.
  induction n as [|n IH]; intros s prev Hn.
  - reflexivity.
  - destruct s as [|c s]; [simpl in Hn; lia|].
    cbn [sub_go take drop last_or]. apply IH. simpl in Hn. lia.
Qed.

Lemma sub_go_hit r repl prev s n :
    match_len r prev s = Some (S n) -> S n <= String.length s ->
    sub_go r repl prev 0 s
    = (repl ++ sub_go r repl (last_or prev (take (S n) s)) 0
                 (drop (S n) s))%string.
Proof.
  intros Hm Hn. destruct s as [|c s]; [simpl in Hn; lia|].
  cbn [sub_go]. rewrite Hm. f_equal.
  cbn [take drop last_or]. apply sub_go_skip. simpl in Hn. lia.
Qed.

Lemma sub_go_miss r repl prev c s :
    match_len r prev (String c s) = None ->
    sub_go r repl prev 0 (String c s)
    = String c (sub_go r repl (Some c) 0 s).
Proof. intros Hm. cbn [sub_go]. now rewrite Hm. Qed.

Lemma sub_go_miss_nil r repl prev :
    match_len r prev "" = None -> sub_go r repl prev 0 "" = "".
Proof. intros Hm. cbn [sub_go]. now rewrite Hm. Qed.

(** *** Substitution and later searches *)

Lemma hit_word_prev v prev s : word_opt prev = true -> hit v prev s = false.
Proof.
  intros H. unfold hit. rewrite H. cbn [negb].
  now rewrite andb_false_r.
Qed.

Lemma first_hit_word_prev vs prev s :
    word_opt prev = true -> first_hit vs prev s = None.
Proof.
  intros H. induction vs as [|v vs IH]; simpl; auto.
  now rewrite (@hit_word_prev v prev s H).
Qed.

Lemma marker_text_nonempty v : marker_text v -> v <> "".
Proof. intros [H _]. now apply wordish_nonempty. Qed.

Section Substitution.
Variable p : regex.
Variable vp : list string.
Hypothesis Hp : marks p vp.
Hypothesis Hvp : Forall marker_text vp.

Let out (prev : option ascii) (s : string) : string :=
    sub_go p special_token prev 0 s.

Lemma marks_match_some prev s n :
    match_len p prev s = Some n ->
    exists v m, In v vp /\ hit v prev s = true /\ n = S m
                /\ n = String.length v /\ n <= String.length s.
Proof.
  rewrite Hp. intros H.
  apply first_hit_some in H as (v & Hin & Hh & ->).
  rewrite Forall_forall in Hvp.
  pose proof (@marker_text_nonempty v (Hvp v Hin)) as Hne.
  destruct v as [|c v]; [congruence|].
  exists (String c v), (String.length v). repeat split; auto.
  unfold hit in Hh. apply andb_prop in Hh as [Hh _].
  apply andb_prop in Hh as [Hh _]. now apply ci_prefix_length.
Qed.

Lemma out_head_miss prev s :
    match_len p prev s = None -> head (out prev s) = head s.
Proof.
  intros H. unfold out. destruct s as [|c s].
  - now rewrite sub_go_miss_nil.
  - now rewrite sub_go_miss.
Qed.

(** A marker text read at the head of the substituted text was already
    there before the substitution, and the substitution did not begin a
    replacement at that position. *)
Lemma prefix_agreement v : forall prev s,
    all_chars (fun c => negb (ci_eqb c "#")) v = true ->
    (v = "" -> word_opt prev = true) ->
    (v <> "" -> word_opt (last_or None v) = true) ->
    ci_prefix v (out prev s) = true ->
    word_opt (head (drop (String.length v) (out prev s))) = false ->
    ci_prefix v s = true
    /\ word_opt (head (drop (String.length v) s)) = false
    /\ (v <> "" -> match_len p prev s = None).
Proof.
  induction v as [|a v IH]; intros prev s Hsharp Hnil Hlast Hci Hbd.
  - cbn [String.length drop] in *.
    assert (Hm : match_len p prev s = None)
      by (rewrite Hp; apply first_hit_word_prev; auto).
    rewrite (@out_head_miss prev s Hm) in Hbd.
    repeat split; auto; congruence.
  - cbn [all_chars] in Hsharp. apply andb_prop in Hsharp as [Ha Hsharp].
    destruct (match_len p prev s) as [n|] eqn:Hm.
    + exfalso.
      destruct (@marks_match_some prev s n Hm)
        as (u & m & _ & _ & -> & _ & Hlen).
      unfold out in Hci.
      rewrite (@sub_go_hit p special_token prev s m Hm Hlen) in Hci.
      cbn [special_token append ci_prefix] in Hci.
      apply negb_true_iff in Ha. rewrite Ha in Hci. discriminate.
    + destruct s as [|c s].
      * unfold out in Hci.
        rewrite (@sub_go_miss_nil p special_token prev Hm) in Hci.
        discriminate.
      * unfold out in Hci, Hbd.
        rewrite (@sub_go_miss p special_token prev c s Hm) in Hci, Hbd.
        cbn [ci_prefix String.length drop] in *.
        apply andb_prop in Hci as [Hc Hci].
        destruct (IH (Some c) s Hsharp) as (H1 & H2 & _); auto.
        -- intros ->. specialize (Hlast ltac:(discriminate)).
           simpl in Hlast. simpl. apply ci_eqb_true in Hc.
           rewrite <- is_word_lower_char, Hc, is_word_lower_char.
           exact Hlast.
        -- intros Hne. specialize (Hlast ltac:(discriminate)).
           destruct v; [congruence | exact Hlast].
        -- rewrite Hc, H1. auto.
Qed.

Section Search.
Variable q : regex.
Variable vq : list string.
Hypothesis Hq : marks q vq.
Hypothesis Hvq : Forall marker_text vq.
Hypothesis Hfree : tok_free special_token vq.

Lemma matches_here_hits prev s :
    matches_here q prev s = true <-> exists v, In v vq /\ hit v prev s = true.
Proof.
  rewrite matches_here_match_len, Hq. split.
  - destruct (first_hit vq prev s) as [n|] eqn:E; [|discriminate].
    intros _. apply first_hit_some in E as (v & Hin & Hh & _). eauto.
  - intros (v & Hin & Hh).
    pose proof (@hit_first_hit vq prev s v Hin Hh).
    destruct (first_hit vq prev s); [reflexivity | congruence].
Qed.

(** A search that starts inside the separator token finds nothing there. *)
Lemma search_skip t : forall prev X,
    (forall v i, In v vq -> i < String.length t ->
                 ci_prefix v (drop i t ++ X)%string = false) ->
    search_from q prev (t ++ X)%string = search_from q (last_or prev t) X.
Proof.
  induction t as [|c t IH]; intros prev X H; [reflexivity|].
  cbn [append search_from last_or].
  assert (Hm : matches_here q prev (String c (t ++ X)) = false).
  { destruct (matches_here q prev (String c (t ++ X))) eqn:E; auto.
    apply matches_here_hits in E as (v & Hin & Hh).
    unfold hit in Hh. apply andb_prop in Hh as [Hh _].
    apply andb_prop in Hh as [Hh _].
    specialize (H v 0 Hin ltac:(simpl; lia)). cbn [drop] in H.
    cbn [append] in H. congruence. }
  rewrite Hm. cbn [orb]. apply IH.
  intros v i Hin Hi. apply (H v (S i) Hin). simpl. lia.
Qed.

(** Every match of [q] found after [p] has been substituted stood in the
    text before, at a position where [p] itself did not match. *)
Lemma search_after_sub n : forall s prev prev',
    String.length s <= n ->
    prev' = prev \/ (word_opt prev' = false /\ word_opt (head s) = false) ->
    search_from q prev' (out prev s) = true ->
    exists pre rest,
      s = (pre ++ rest)%string
      /\ matches_here q (last_or prev pre) rest = true
      /\ match_len p (last_or prev pre) rest = None.
Proof.
  induction n as [|n IH]; intros s prev prev' Hlen Hctx Hs.
  - destruct s; [|simpl in Hlen; lia].
    destruct (match_len p prev "") as [m|] eqn:Hm.
    + destruct (@marks_match_some prev "" m Hm)
        as (u & k & _ & _ & -> & _ & Hl).
      simpl in Hl. lia.
    + unfold out in Hs.
      rewrite (@sub_go_miss_nil p special_token prev Hm) in Hs.
      cbn [search_from] in Hs. rewrite orb_false_r in Hs.
      apply matches_here_hits in Hs as (v & Hin & Hh).
      rewrite Forall_forall in Hvq.
      pose proof (@marker_text_nonempty v (Hvq v Hin)).
      unfold hit in Hh. destruct v; [congruence | discriminate].
  - destruct (match_len p prev s) as [m|] eqn:Hm.
    + destruct (@marks_match_some prev s m Hm)
        as (u & k & Hin & Hh & -> & Hu & Hl).
      unfold out in Hs.
      rewrite (@sub_go_hit p special_token prev s k Hm Hl) in Hs.
      rewrite search_skip in Hs by (intros v i; apply Hfree).
      unfold hit in Hh. apply andb_prop in Hh as [_ Hbd].
      apply negb_true_iff in Hbd. rewrite <- Hu in Hbd.
      destruct (IH (drop (S k) s) (last_or prev (take (S k) s))
                  (last_or prev' special_token)) as (pre & rest & E & H1 & H2).
      * rewrite drop_length. lia.
      * right. split; [reflexivity | exact Hbd].
      * exact Hs.
      * exists (take (S k) s ++ pre)%string, rest.
        rewrite append_assoc, <- E, take_drop, last_or_app. auto.
    + destruct s as [|c s].
      * unfold out in Hs.
        rewrite (@sub_go_miss_nil p special_token prev Hm) in Hs.
        cbn [search_from] in Hs. rewrite orb_false_r in Hs.
        apply matches_here_hits in Hs as (v & Hin & Hh).
        rewrite Forall_forall in Hvq.
        pose proof (@marker_text_nonempty v (Hvq v Hin)).
        unfold hit in Hh. destruct v; [congruence | discriminate].
      * pose proof Hs as Hs'. unfold out in Hs'.
        rewrite (@sub_go_miss p special_token prev c s Hm) in Hs'.
        cbn [search_from] in Hs'.
        apply orb_prop in Hs' as [Hhere|Hlater].
        -- apply matches_here_hits in Hhere as (v & Hin & Hh).
           rewrite <- (@sub_go_miss p special_token prev c s Hm) in Hh.
           fold (out prev (String c s)) in Hh.
           unfold hit in Hh. apply andb_prop in Hh as [Hh Hbd].
           apply andb_prop in Hh as [Hci Hprev].
           apply negb_true_iff in Hbd, Hprev.
           rewrite Forall_forall in Hvq.
           destruct (Hvq v Hin) as [[Hhead Hlast] Hsharp].
           destruct (@prefix_agreement v prev (String c s) Hsharp)
             as (H1 & H2 & _); auto.
           { intros ->. discriminate. }
           assert (Hp' : word_opt prev = false).
           { destruct Hctx as [<-|[_ Hw]]; auto.
             rewrite (@ci_prefix_head v (String c s) H1 Hhead) in Hw.
             discriminate. }
           exists "", (String c s). cbn [last_or append].
           repeat split; auto.
           apply matches_here_hits. exists v. split; auto.
           unfold hit. now rewrite H1, Hp', H2.
        -- destruct (IH s (Some c) (Some c)) as (pre & rest & E & H1 & H2);
             auto.
           { simpl in Hlen. lia. }
           exists (String c pre), rest. rewrite E. auto.
Qed.

Lemma search_preserved text :
    search q text = false -> search q (sub p special_token text) = false.
Proof.
  intros H. destruct (search q (sub p special_token text)) eqn:E; auto.
  destruct (@search_after_sub (String.length text) text None None)
    as (pre & rest & E1 & H1 & _); auto.
  assert (search q text = true)
    by (apply search_from_iff; exists pre, rest; auto).
  congruence.
Qed.

End Search.

(** After [p] has been substituted, [p] matches nowhere. *)
Lemma search_removed text :
    tok_free special_token vp -> search p (sub p special_token text) = false.
Proof.
  intros Hfree. destruct (search p (sub p special_token text)) eqn:E; auto.
  destruct (@search_after_sub p vp Hp Hvp Hfree (String.length text) text
              None None)
    as (pre & rest & E1 & H1 & H2); auto.
  rewrite matches_here_match_len, H2 in H1. discriminate.
Qed.

End Substitution.

(** *** The indicators of the splitter *)

Ltac tok_free_tac :=
  intros X v i Hin Hi; simpl in Hin;
  repeat (destruct Hin as [<-|Hin]; [|]); try contradiction;
  cbn [special_token String.length] in Hi;
  do 20 (destruct i as [|i]; [reflexivity|]); lia.

Ltac marker_texts_tac :=
  repeat (constructor;
          [split; [split; vm_compute; reflexivity | vm_compute; reflexivity]|]);
  constructor.

Lemma marker_pattern_word v :
    marker_text v -> tok_free special_token [v] ->
    marker_pattern_with (word v) [v].
Proof.
  intros Hv Hfree. split; [|split]; auto.
  apply marks_word, Hv.
Qed.

(** Each indicator matches exactly its marker texts. *)
Lemma indicators_marked :
    Forall2 marker_pattern_with pipeline_indicators indicator_texts.
Proof.
  unfold pipeline_indicators, indicator_texts.
  repeat (constructor;
          [first
             [ apply marker_pattern_word;
               [split; [split; vm_compute; reflexivity | vm_compute; reflexivity]
               | tok_free_tac]
             | split; [exact marks_followed_by|];
               split; [marker_texts_tac | tok_free_tac] ]|]).
  constructor.
Qed.

Lemma indicators_are_markers : Forall marker_pattern pipeline_indicators.
Proof.
  pose proof indicators_marked as H.
  induction H as [|p vs ps vss Hp _ IH]; constructor; auto.
  now exists vs.
Qed.

Lemma marker_search_preserved p q text :
    marker_pattern p -> marker_pattern q ->
    search q text = false -> search q (sub p special_token text) = false.
Proof.
  intros (vp & Hp & Hvp & _) (vq & Hq & Hvq & Hfree).
  now apply (@search_preserved p vp Hp Hvp q vq Hq Hvq Hfree).
Qed.

Lemma marker_search_removed p text :
    marker_pattern p -> search p (sub p special_token text) = false.
Proof.
  intros (vp & Hp & Hvp & Hfree).
  now apply (@search_removed p vp Hp Hvp).
Qed.

(** Substituting the patterns one after the other leaves no match of any
    of them. *)
Lemma substitute_removes_all ps : forall done text,
    Forall marker_pattern (done ++ ps) ->
    Forall (fun q => search q text = false) done ->
    Forall (fun q => search q (substitute ps text) = false) (done ++ ps).
Proof.
  induction ps as [|p ps IH]; intros done text Hall Hdone.
  - now rewrite app_nil_r.
  - cbn [substitute fold_left].
    change (fold_left (fun t ind => sub ind special_token t) ps
              (sub p special_token text))
      with (substitute ps (sub p special_token text)).
    replace (done ++ p :: ps) with ((done ++ [p]) ++ ps) in *
      by (now rewrite <- app_assoc).
    apply IH; auto.
    assert (Hmp : Forall marker_pattern (done ++ [p])).
    { apply Forall_app in Hall as [H _]. exact H. }
    apply Forall_app in Hmp as [Hd Hp].
    assert (Hpm : marker_pattern p) by (inversion Hp; auto).
    apply Forall_app. split.
    + rewrite Forall_forall in Hd, Hdone. apply Forall_forall.
      intros q Hq. apply marker_search_preserved; auto.
    + constructor; [|constructor].
      now apply marker_search_removed.
Qed.

Lemma matches_here_alts r rs prev s :
    matches_here (alts r rs) prev s
    = existsb (fun r' => matches_here r' prev s) (r :: rs).
Proof.
  unfold matches_here.
  change (match run (alts r rs) prev s (fun _ _ => Some tt) with
          | Some _ => true
          | None => false
          end)
    with (is_some (run (alts r rs) prev s (fun _ _ => Some tt))).
  rewrite run_alts. reflexivity.
Qed.

(** Searching for an alternation is searching for one of its branches. *)
Lemma search_alts r rs text :
    search (alts r rs) text = existsb (fun r' => search r' text) (r :: rs).
Proof.
  unfold search. generalize (@None ascii) as prev.
  induction text as [|c text IH]; intros prev.
  - cbn [search_from]. rewrite orb_false_r, matches_here_alts.
    apply existsb_same. intros w. now rewrite orb_false_r.
  - cbn [search_from]. rewrite IH, matches_here_alts, <- existsb_orb.
    reflexivity.
Qed.

Lemma detect_pipeline_indicators text :
    detect_pipeline text
    = existsb (fun p => search p text) pipeline_indicators.
Proof. unfold detect_pipeline, pipeline_pattern. apply search_alts. Qed.

Lemma detect_false_iff text :
    detect_pipeline text = false
    <-> Forall (fun p => search p text = false) pipeline_indicators.
Proof.
  rewrite detect_pipeline_indicators, Forall_forall. split.
  - intros H p Hin. destruct (search p text) eqn:E; auto.
    assert (existsb (fun p => search p text) pipeline_indicators = true)
      by (apply existsb_exists; eauto).
    congruence.
  - intros H. destruct (existsb _ _) eqn:E; auto.
    apply existsb_exists in E as (p & Hin & Hp).
    rewrite (H p Hin) in Hp. discriminate.
Qed.

(** After the substitution loop no connective marker is left. *)
Lemma no_marker_left text :
    detect_pipeline (substitute_indicators text) = false.
Proof.
  apply detect_false_iff.
  apply (@substitute_removes_all pipeline_indicators [] text).
  - exact indicators_are_markers.
  - constructor.
Qed.

(** *** Stages *)

Lemma lstrip_decomp s :
    exists ws, s = (ws ++ lstrip s)%string /\ all_chars is_space ws = true.
Proof.
  induction s as [|c s (ws & E & H)].
  - exists "". auto.
  - cbn [lstrip]. destruct (is_space c) eqn:Ec.
    + exists (String c ws). cbn [append all_chars]. rewrite Ec, H, <- E. auto.
    + exists "". auto.
Qed.

Lemma rstrip_decomp s :
    exists ws, s = (rstrip s ++ ws)%string /\ all_chars is_space ws = true.
Proof.
  induction s as [|c s (ws & E & H)].
  - exists "". auto.
  - cbn [rstrip]. destruct (is_space c && is_empty (rstrip s)) eqn:Ec.
    + apply andb_prop in Ec as [Ec Er]. apply is_empty_true in Er.
      rewrite Er in E. cbn [append] in E. subst s.
      exists (String c ws). cbn [append all_chars]. now rewrite Ec, H.
    + exists ws. cbn [append]. now rewrite <- E.
Qed.

Lemma blank_last ws :
    all_chars is_space ws = true -> word_opt (last_or None ws) = false.
Proof.
  enough (H : forall p, word_opt p = false -> all_chars is_space ws = true ->
                        word_opt (last_or p ws) = false) by (now apply H).
  induction ws as [|c ws IH]; intros p Hp H; simpl in *; auto.
  apply andb_prop in H as [Hc H]. apply IH; auto.
  simpl. now apply space_not_word.
Qed.

Lemma blank_head ws :
    all_chars is_space ws = true -> word_opt (head ws) = false.
Proof.
  destruct ws as [|c ws]; simpl; auto.
  intros H. apply andb_prop in H as [Hc _]. now apply space_not_word.
Qed.

Lemma ci_prefix_app_r v : forall s t,
    ci_prefix v s = true -> ci_prefix v (s ++ t)%string = true.
Proof.
  induction v as [|c v IH]; intros [|a s] t; simpl; auto; try discriminate.
  intros H. apply andb_prop in H as [Hc H]. now rewrite Hc, IH.
Qed.

Lemma drop_app_le n : forall s t,
    n <= String.length s -> drop n (s ++ t)%string = (drop n s ++ t)%string.
Proof.
  induction n as [|n IH]; intros [|a s] t H; simpl in *; auto; try lia.
  apply IH. lia.
Qed.

Lemma word_head_app s t :
    word_opt (head s) = false -> word_opt (head t) = false ->
    word_opt (head (s ++ t)%string) = false.
Proof. destruct s; simpl; auto. Qed.

Lemma word_last_app a b :
    word_opt (last_or None a) = false -> word_opt (last_or None b) = false ->
    word_opt (last_or None (a ++ b)%string) = false.
Proof.
  intros Ha Hb. rewrite last_or_app. destruct b as [|c b]; auto.
Qed.

(** A marker found in a piece of text is found in any text around the
    piece, when the piece is delimited by non-word characters. *)
Lemma search_embed q A g B :
    marker_pattern q ->
    word_opt (last_or None A) = false -> word_opt (head B) = false ->
    search q g = true -> search q (A ++ g ++ B)%string = true.
Proof.
  intros (vq & Hq & Hvq & _) HA HB Hs. unfold search in *.
  apply search_from_iff in Hs as (pre & rest & -> & Hm).
  apply (@matches_here_hits q vq Hq) in Hm as (v & Hin & Hh).
  apply search_from_iff. exists (A ++ pre)%string, (rest ++ B)%string.
  split; [now rewrite !append_assoc|].
  apply (@matches_here_hits q vq Hq). exists v. split; auto.
  unfold hit in *. apply andb_prop in Hh as [Hh Hbd].
  apply andb_prop in Hh as [Hci Hprev].
  apply negb_true_iff in Hbd, Hprev.
  rewrite (@ci_prefix_app_r v rest B Hci).
  rewrite (@word_last_app A pre HA Hprev).
  rewrite drop_app_le by (now apply ci_prefix_length).
  rewrite (@word_head_app _ B Hbd HB). reflexivity.
Qed.

Lemma token_last X : word_opt (last_or None (X ++ special_token)%string) = false.
Proof. rewrite last_or_app. reflexivity. Qed.

(** Each piece of a join stands in the joined text between separator
    tokens or ends of the text. *)
Lemma in_join segs : forall seg,
    In seg segs ->
    exists A B,
      join special_token segs = (A ++ seg ++ B)%string
      /\ word_opt (last_or None A) = false /\ word_opt (head B) = false.
Proof.
  induction segs as [|x segs IH]; intros seg Hin; [contradiction|].
  destruct segs as [|y l].
  - destruct Hin as [<-|[]]. exists "", "". cbn [join append].
    now rewrite append_nil_r.
  - change (join special_token (x :: y :: l))
      with (x ++ special_token ++ join special_token (y :: l))%string.
    destruct Hin as [<-|Hin].
    + exists "", (special_token ++ join special_token (y :: l))%string.
      auto.
    + destruct (IH seg Hin) as (A & B & E & HA & HB).
      exists (x ++ special_token ++ A)%string, B. rewrite E.
      split; [now rewrite !append_assoc|]. split; auto.
      rewrite <- append_assoc. apply word_last_app; auto.
      apply token_last.
Qed.

Lemma strip_decomp s :
    exists ws1 ws2,
      s = (ws1 ++ strip s ++ ws2)%string
      /\ word_opt (last_or None ws1) = false /\ word_opt (head ws2) = false.
Proof.
  destruct (lstrip_decomp s) as (ws1 & E1 & H1).
  destruct (rstrip_decomp (lstrip s)) as (ws2 & E2 & H2).
  exists ws1, ws2. unfold strip. rewrite <- E2, <- E1.
  auto using blank_last, blank_head.
Qed.

Lemma stage_of_segment text stage :
    In stage (split_pipeline_stages text) ->
    stage <> ""
    /\ exists seg,
         In seg (split (substitute_indicators text) special_token)
         /\ stage = strip seg.
Proof.
  unfold split_pipeline_stages. intros H. apply filter_In in H as [H Ht].
  apply truthy_true in Ht. split; auto.
  apply in_map_iff in H as (seg & <- & Hin). eauto.
Qed.

(** No stage contains a connective marker. *)
Lemma stage_without_marker text stage :
    In stage (split_pipeline_stages text) -> detect_pipeline stage = false.
Proof.
  intros H. apply stage_of_segment in H as (_ & seg & Hin & ->).
  apply detect_false_iff, Forall_forall. intros q Hq.
  destruct (search q (strip seg)) eqn:E; auto. exfalso.
  assert (Hm : marker_pattern q).
  { pose proof indicators_are_markers as HM.
    rewrite Forall_forall in HM. auto. }
  destruct (strip_decomp seg) as (ws1 & ws2 & Es & H1 & H2).
  pose proof (@search_embed q ws1 (strip seg) ws2 Hm H1 H2 E) as Hseg.
  rewrite <- Es in Hseg.
  destruct (@in_join _ seg Hin) as (A & B & EJ & HA & HB).
  pose proof (@search_embed q A seg B Hm HA HB Hseg) as HT.
  rewrite <- EJ, join_split in HT by discriminate.
  pose proof (no_marker_left text) as Hno.
  apply detect_false_iff in Hno. rewrite Forall_forall in Hno.
  rewrite (Hno q Hq) in HT. discriminate.
Qed.

(** *** Texts without a marker *)

Lemma sub_no_match r repl : forall s prev,
    search_from r prev s = false -> sub_go r repl prev 0 s = s.
Proof.
  induction s as [|c s IH]; intros prev H; cbn [search_from] in H;
    apply orb_false_elim in H as [Hm Hs];
    rewrite matches_here_match_len in Hm;
    destruct (match_len r prev _) eqn:E; try discriminate.
  - now apply sub_go_miss_nil.
  - rewrite (@sub_go_miss r repl prev c s E). now rewrite IH.
Qed.

Lemma substitute_no_match ps : forall text,
    Forall (fun p => search p text = false) ps -> substitute ps text = text.
Proof.
  induction ps as [|p ps IH]; intros text H; [reflexivity|].
  inversion H as [|? ? Hp Hps]; subst.
  unfold substitute. cbn [fold_left].
  unfold sub. rewrite (@sub_no_match p special_token text None Hp).
  now apply IH.
Qed.

(** *** What the substitution keeps *)


Lemma replaced_mono V W s t :
    incl V W -> replaced V s t -> replaced W s t.
Proof.
  intros Hi H. induction H as [|c s t _ IH|m s t (v & Hv & Hm) _ IH].
  - constructor.
  - now constructor.
  - constructor; auto. exists v. auto.
Qed.





Section Keeps.
Variable V : list string.
Variable p : regex.
Variable vp : list string.
Hypothesis Hp : marker_pattern_with p vp.
Hypothesis Hincl : incl vp V.






End Keeps.



(** No stage holds the separator token. *)
Lemma stage_without_token text stage :
    In stage (split_pipeline_stages text) ->
    ~ occurs_in special_token stage.
Proof.
  intros Hin Hocc. apply contains_iff in Hocc.
  apply stage_of_segment in Hin as (_ & seg & Hseg & ->).
  destruct (strip_decomp seg) as (ws1 & ws2 & Es & _).
  apply (@contains_inside ws1 (strip seg) ws2) in Hocc. rewrite <- Es in Hocc.
  assert (Hs : contains seg special_token = false).
  { apply (@split_go_pieces special_token) with
      (s := substitute_indicators text) (n := 0);
      [discriminate | exact Hseg]. }
  congruence.
Qed.


End SplitterFacts.

(* ===================================================================== *)
(** ** Dicts *)
(* ===================================================================== *)

Module DictFacts.

Section Dict.
Variable V : Type.
Implicit Types a b d : Dict.t V.

Lemma get_set_same d k v : Dict.get (Dict.set d k v) k = Some v.
Proof.
  induction d as [|[k' v'] d IH]; simpl.
  - now rewrite String.eqb_refl.
  - destruct (String.eqb k' k) eqn:E; simpl; now rewrite E.
Qed.

Lemma get_set_other d k k' v :
  k <> k' -> Dict.get (Dict.set d k v) k' = Dict.get d k'.
Proof.
  intros Hk. induction d as [|[k0 v0] d IH]; simpl.
  - apply String.eqb_neq in Hk. now rewrite Hk.
  - destruct (String.eqb k0 k) eqn:E; simpl.
    + apply String.eqb_eq in E. subst k0.
      apply String.eqb_neq in Hk. now rewrite Hk.
    + now rewrite IH.
Qed.

Lemma get_none_keys d k : Dict.get d k = None <-> ~ In k (Dict.keys d).
Proof.
  induction d as [|[k0 v0] d IH]; simpl.
  - tauto.
  - destruct (String.eqb_spec k0 k) as [->|Hne].
    + split; [discriminate | tauto].
    + rewrite IH. tauto.
Qed.

Lemma get_some_in d k v : Dict.get d k = Some v -> In (k, v) d.
Proof.
  induction d as [|[k0 v0] d IH]; simpl; [discriminate|].
  destruct (String.eqb_spec k0 k) as [->|Hne].
  - intros H. injection H as ->. now left.
  - auto.
Qed.

(** [{**a, **b}]: the bindings of [b] win, those of [a] are the
    defaults. *)
Lemma get_merge b : forall a (k : string),
  NoDup (Dict.keys b) ->
  Dict.get (Dict.merge a b) k
  = match Dict.get b k with
    | Some v => Some v
    | None => Dict.get a k
    end.
Proof.
  unfold Dict.merge.
  induction b as [|[k0 v0] b IH]; intros a k Hnd; [reflexivity|].
  inversion Hnd as [|? ? Hnotin Hnd']; subst.
  cbn [fold_left fst snd]. rewrite IH by exact Hnd'.
  cbn [Dict.get]. destruct (String.eqb_spec k0 k) as [->|Hne].
  - apply get_none_keys in Hnotin. rewrite Hnotin. apply get_set_same.
  - destruct (Dict.get b k); [reflexivity|]. now apply get_set_other.
Qed.

(** An assignment keeps the bindings before the key's position. *)
Lemma set_split d k v :
  exists before after,
    Dict.set d k v = before ++ (k, v) :: after
    /\ forall k' v', In (k', v') before -> In (k', v') d /\ k' <> k.
Proof.
  induction d as [|[k0 v0] d (before & after & E & H)]; simpl.
  - exists [], []. split; [reflexivity | intros ? ? []].
  - destruct (String.eqb_spec k0 k) as [->|Hne].
    + exists [], d. split; [reflexivity | intros ? ? []].
    + exists ((k0, v0) :: before), after. rewrite E. split; [reflexivity|].
      intros k' v' [Heq|Hin].
      * injection Heq as <- <-. split; [now left | exact Hne].
      * destruct (H k' v' Hin). split; [now right | assumption].
Qed.

Lemma keys_set_incl d k v k' :
  In k' (Dict.keys d) -> In k' (Dict.keys (Dict.set d k v)).
Proof.
  induction d as [|[k0 v0] d IH]; simpl; [tauto|].
  destruct (String.eqb k0 k); simpl; tauto.
Qed.

Lemma keys_merge_incl b : forall a k',
  In k' (Dict.keys a) -> In k' (Dict.keys (Dict.merge a b)).
Proof.
  unfold Dict.merge.
  induction b as [|[k0 v0] b IH]; intros a k' H; [exact H|].
  cbn [fold_left fst snd]. apply IH. now apply keys_set_incl.
Qed.

End Dict.

End DictFacts.

(* ===================================================================== *)
(** ** CommandHistory *)
(* ===================================================================== *)

Module HistoryFacts.
Import Parser Exec DictFacts.

Lemma get_last_command_app l size ents c :
  get_last_command
    {| commands := l ++ [c]; history_size := size; last_entities := ents |}
  = Some c.
Proof.
  unfold get_last_command. cbn [commands].
  destruct l as [|a l]; [reflexivity|].
  cbn [app]. f_equal. apply last_last.
Qed.

Lemma add_command_size h c :
  history_size (add_command h c) = history_size h.
Proof. reflexivity. Qed.

Lemma add_command_length h c :
  List.length (commands h) <= history_size h ->
  List.length (commands (add_command h c)) <= history_size h.
Proof.
  intros H. unfold add_command. cbn [commands].
  rewrite length_app. cbn [List.length].
  destruct (Nat.ltb_spec (history_size h) (List.length (commands h) + 1)).
  - destruct (commands h ++ [c]) eqn:E.
    + simpl. lia.
    + cbn [tl]. apply (f_equal (@List.length _)) in E.
      rewrite length_app in E. simpl in E. lia.
  - rewrite length_app. simpl. lia.
Qed.

(** X1. With room for at least one command, [add_command] puts the
    command last, so that [get_last_command] returns it; while the history
    is not full the older commands are all kept, and once it is full
    exactly the oldest one is dropped. *)
Theorem add_command_newest_last (h : CommandHistory) (c : Command) :
  1 <= history_size h ->
  get_last_command (add_command h c) = Some c
  /\ (List.length (commands h) < history_size h ->
      commands (add_command h c) = commands h ++ [c])
  /\ (history_size h <= List.length (commands h) ->
      commands (add_command h c) = tl (commands h) ++ [c]).
Proof.
  intros Hsize.
  assert (Hfull : history_size h <= List.length (commands h) ->
                  commands (add_command h c) = tl (commands h) ++ [c]).
  { intros H. unfold add_command. cbn [commands].
    rewrite length_app. cbn [List.length].
    destruct (Nat.ltb_spec (history_size h) (List.length (commands h) + 1));
      [|lia].
    destruct (commands h) as [|a l]; [simpl in H; lia | reflexivity]. }
  assert (Hroom : List.length (commands h) < history_size h ->
                  commands (add_command h c) = commands h ++ [c]).
  { intros H. unfold add_command. cbn [commands].
    rewrite length_app. cbn [List.length].
    destruct (Nat.ltb_spec (history_size h) (List.length (commands h) + 1));
      [lia | reflexivity]. }
  split; [|split; assumption].
  destruct (Nat.lt_ge_cases (List.length (commands h)) (history_size h))
    as [H|H].
  - specialize (Hroom H).
    destruct (add_command h c) as [l size ents]. cbn [commands] in Hroom.
    subst l. apply get_last_command_app.
  - specialize (Hfull H).
    destruct (add_command h c) as [l size ents]. cbn [commands] in Hfull.
    subst l. apply get_last_command_app.
Qed.

Lemma add_command_newest_last_witness :
  let h := {| commands := [mkCommand "show_path" [] [] "pwd"];
              history_size := 1; last_entities := [] |} in
  let c := mkCommand "list_files" [] [] "ls" in
  get_last_command (add_command h c) = Some c
  /\ (List.length (commands h) < history_size h ->
      commands (add_command h c) = commands h ++ [c])
  /\ (history_size h <= List.length (commands h) ->
      commands (add_command h c) = tl (commands h) ++ [c]).
Proof.
  apply (@add_command_newest_last
           {| commands := [mkCommand "show_path" [] [] "pwd"];
              history_size := 1; last_entities := [] |}
           (mkCommand "list_files" [] [] "ls")).
  simpl. lia.
Defined.

(** The loop of [add_command] over the entities of the command. *)
Lemma remember_absent (ents : Entities) : forall (le : Entities) k,
  (forall vs, In (k, vs) ents -> vs = []) ->
  Dict.get
    (fold_left
               (fun le kv => match snd kv with
                             | [] => le
                             | _ :: _ => Dict.set le (fst kv) (snd kv)
                             end) ents le) k = Dict.get le k.
Proof.
  induction ents as [|[k0 v0] ents IH]; intros le k H; [reflexivity|].
  cbn [fold_left]. rewrite IH by (intros vs Hin; apply H; now right).
  cbn [fst snd]. destruct v0 as [|x v0]; [reflexivity|].
  apply get_set_other. intros ->.
  specialize (H (x :: v0) (or_introl eq_refl)). discriminate.
Qed.

Lemma remember_present (ents : Entities) : forall (le : Entities) k v vs,
  NoDup (Dict.keys ents) -> In (k, v :: vs) ents ->
  Dict.get
    (fold_left
               (fun le kv => match snd kv with
                             | [] => le
                             | _ :: _ => Dict.set le (fst kv) (snd kv)
                             end) ents le) k = Some (v :: vs).
Proof.
  induction ents as [|[k0 v0] ents IH]; intros le k v vs Hnd Hin;
    [contradiction|].
  inversion Hnd as [|? ? Hnotin Hnd']; subst.
  cbn [fold_left]. destruct Hin as [Heq|Hin].
  - injection Heq as -> ->.
    rewrite remember_absent.
    + cbn [fst snd]. apply get_set_same.
    + intros vs' Hin'. exfalso. apply Hnotin.
      apply in_map_iff. now exists (k, vs').
  - now apply IH.
Qed.

(** X2. [add_command] remembers, for each entity type, the values of the
    latest command that had any: a type for which the command has a
    non-empty list takes that list, and a type the command lacks or has
    empty keeps what was remembered before. *)
Theorem add_command_entity_context (h : CommandHistory) (c : Command)
  (k : string) :
  NoDup (Dict.keys (c_entities c)) ->
  (forall v vs, In (k, v :: vs) (c_entities c) ->
     Dict.get (get_entity_context (add_command h c)) k = Some (v :: vs))
  /\ ((forall vs, In (k, vs) (c_entities c) -> vs = []) ->
      Dict.get (get_entity_context (add_command h c)) k
      = Dict.get (get_entity_context h) k).
Proof.
  intros Hnd. unfold get_entity_context, add_command. cbn [last_entities].
  split.
  - intros v vs Hin. now apply remember_present.
  - intros H. now apply remember_absent.
Qed.

Lemma add_command_entity_context_witness :
  let h := {| commands := []; history_size := 10;
              last_entities := [("file_paths", ["a.txt"])] |} in
  let c := mkCommand "show_path" []
             [("file_paths", []); ("options", ["-l"])] "pwd -l" in
  (forall v vs, In ("file_paths", v :: vs) (c_entities c) ->
     Dict.get (get_entity_context (add_command h c)) "file_paths"
     = Some (v :: vs))
  /\ ((forall vs, In ("file_paths", vs) (c_entities c) -> vs = []) ->
      Dict.get (get_entity_context (add_command h c)) "file_paths"
      = Dict.get (get_entity_context h) "file_paths").
Proof.
  apply (@add_command_entity_context
           {| commands := []; history_size := 10;
              last_entities := [("file_paths", ["a.txt"])] |}
           (mkCommand "show_path" []
              [("file_paths", []); ("options", ["-l"])] "pwd -l")
           "file_paths").
  simpl. repeat constructor; simpl; intuition discriminate.
Defined.

End HistoryFacts.

(* ===================================================================== *)
(** ** The parser's state across calls *)
(* ===================================================================== *)

Module LearningFacts.
Import Py Spec PyFacts Parser Exec DictFacts HistoryFacts ParserFacts Session.

Lemma Qge_bool_iff a b : Qge_bool a b = true <-> (b <= a)%Q.
Proof. unfold Qge_bool. apply Qle_bool_iff. Qed.

Lemma Qge_bool_false_iff a b : Qge_bool a b = false <-> (a < b)%Q.
Proof.
  unfold Qge_bool. split.
  - intros H. apply Qnot_le_lt. intros Hle.
    apply Qle_bool_iff in Hle. congruence.
  - intros H. destruct (Qle_bool b a) eqn:E; auto.
    apply Qle_bool_iff in E. apply Qlt_not_le in H. contradiction.
Qed.

Lemma with_log_nil p : with_log p [] = p.
Proof. destruct p. unfold with_log. simpl. now rewrite app_nil_r. Qed.

Section WithNlp.
Variable N : Nlp.

Lemma check_corrections_log text items :
  Forall (fun e => e <> EvSave) (snd (check_corrections N text items)).
Proof.
  induction items as [|[o a] items IH]; cbn [check_corrections].
  - constructor.
  - destruct (Qgt_bool _ _).
    + repeat constructor. discriminate.
    + destruct (check_corrections N text items) as [r evs].
      cbn [snd] in *. constructor; [discriminate | exact IH].
Qed.

Lemma recognize_intent_log p text doc :
  Forall (fun e => e <> EvSave) (snd (recognize_intent N p text doc)).
Proof.
  unfold recognize_intent.
  repeat match goal with
         | |- context [if ?b then _ else _] => destruct b
         | |- context [match ?x with Some _ => _ | None => _ end] =>
             destruct x
         | |- context [let (_, _) := ?x in _] => destruct x
         end; cbn [snd]; repeat constructor; discriminate.
Qed.

(** The three ways [parse_input] can end: on a blank text, without a
    command, and with a command. *)
Lemma parse_input_cases p text :
  parse_input N p text = (None, p)
  \/ (exists evs r,
        parse_input N p text = (Some r, with_log p evs)
        /\ Forall (fun e => e <> EvSave) evs
        /\ (r = Unrecognized \/ exists a phrase, r = Suggest a phrase))
  \/ (exists evs a,
        a <> ""
        /\ parse_input N p text
           = finish_command N (with_log p evs) text (nlp N text)
               (get_entity_context (history p)) a).
Proof.
  unfold parse_input. destruct (is_empty (strip text)); [now left|].
  right.
  pose proof (recognize_intent_log p text (nlp N text)) as Hl1.
  pose proof (check_corrections_log text (user_corrections (learning_data p)))
    as Hl2.
  unfold _check_learning_data.
  destruct (recognize_intent N p text (nlp N text)) as [[aid sugg] evs1].
  destruct (check_corrections N text (user_corrections (learning_data p)))
    as [learned evs2].
  cbn [snd] in Hl1, Hl2.
  assert (Hl : Forall (fun e => e <> EvSave) (evs1 ++ evs2))
    by (apply Forall_app; auto).
  repeat (cbv beta iota;
          match goal with
          | |- context [match ?x with Some _ => _ | None => _ end] =>
              is_var x; destruct x
          | |- context [let (_, _) := ?x in _] => is_var x; destruct x
          | |- context [truthy ?a] => is_var a; destruct (truthy a) eqn:?
          end);
    cbn [negb andb];
    first [ solve [ left; eexists _, _;
                    split; [reflexivity | split; [exact Hl | eauto]] ]
          | solve [ right; eexists _, _;
                    split; [|reflexivity]; apply truthy_true; assumption ] ].
Qed.

(** A learned correction decides the action. *)
Lemma learned_action_decides p text original action before after :
  ~ blank text ->
  user_corrections (learning_data p)
    = before ++ (original, action) :: after ->
  (forall o a, In (o, a) before ->
               (ratio N (lower text) (lower o) <= 90)%Q) ->
  (90 < ratio N (lower text) (lower original))%Q ->
  action <> "" ->
  exists evs,
    parse_input N p text
    = finish_command N (with_log p evs) text (nlp N text)
        (get_entity_context (history p)) action.
Proof.
  intros Hnb Hcorr Hbefore Hhit Hact. unfold parse_input.
  rewrite (not_blank_strip Hnb).
  destruct (recognize_intent N p text (nlp N text)) as [[aid sugg] evs1].
  unfold _check_learning_data. rewrite Hcorr.
  pose proof (check_corrections_first N text before original action after
                Hbefore Hhit) as Hc.
  destruct (check_corrections N text (before ++ (original, action) :: after))
    as [learned evs2].
  cbn [fst] in Hc. subst learned.
  apply truthy_true in Hact. cbv beta iota. rewrite !Hact.
  cbn [negb andb]. exists (evs1 ++ evs2). reflexivity.
Qed.

(** *** Effects of a call *)

(** X3. When [parse_input] returns a command, the command carries the
    text as given and a non-empty action, and it is the command added to
    the history; the vocabulary is not changed. *)
Theorem resolved_command_recorded (p : EnhancedParser) (text : string)
  (c : Command) :
  fst (parse_input N p text) = Some (Structured c) ->
  c_original_text c = text
  /\ c_action c <> ""
  /\ history (snd (parse_input N p text)) = add_command (history p) c
  /\ action_keywords (snd (parse_input N p text)) = action_keywords p.
Proof.
  intros H.
  destruct (parse_input_cases p text)
    as [E|[(evs & r & E & _ & Hr)|(evs & a & Ha & E)]];
    rewrite E in H |- *; cbn [fst snd] in *.
  - discriminate.
  - destruct Hr as [->|(a & ph & ->)]; discriminate.
  - unfold finish_command in *. cbn [fst snd] in *.
    injection H as <-. cbn. auto.
Qed.

(** X4. When [parse_input] returns a command, the frequency count of its
    action goes up by exactly one, a missing count standing for zero; the
    counts of the other actions and the rest of the learning data are
    unchanged. *)
Theorem resolved_command_counted (p : EnhancedParser) (text : string)
  (c : Command) :
  fst (parse_input N p text) = Some (Structured c) ->
  Dict.get (command_frequencies (learning_data (snd (parse_input N p text))))
    (c_action c)
  = Some (from_opt 0 (Dict.get (command_frequencies (learning_data p))
                        (c_action c)) + 1)
  /\ (forall a, a <> c_action c ->
        Dict.get (command_frequencies
                    (learning_data (snd (parse_input N p text)))) a
        = Dict.get (command_frequencies (learning_data p)) a)
  /\ successful_parses (learning_data (snd (parse_input N p text)))
     = successful_parses (learning_data p)
  /\ misinterpreted_commands (learning_data (snd (parse_input N p text)))
     = misinterpreted_commands (learning_data p)
  /\ user_corrections (learning_data (snd (parse_input N p text)))
     = user_corrections (learning_data p).
Proof.
  intros H.
  destruct (parse_input_cases p text)
    as [E|[(evs & r & E & _ & Hr)|(evs & a & Ha & E)]];
    rewrite E in H |- *; cbn [fst snd] in *.
  - discriminate.
  - destruct Hr as [->|(a & ph & ->)]; discriminate.
  - unfold finish_command in *. cbn [fst snd] in *.
    injection H as <-. cbn. split; [|split; [|auto]].
    + rewrite get_set_same. unfold from_opt.
      destruct (Dict.get (command_frequencies (learning_data p)) a);
        reflexivity.
    + intros a' Hne. apply get_set_other. congruence.
Qed.

(** X5. When [parse_input] returns no command (a blank text, an
    unrecognized text or a suggestion), the history, the learning data, the
    stored learning file and the vocabulary are as before, and nothing is
    saved. *)
Theorem unresolved_input_changes_nothing (p : EnhancedParser)
  (text : string) :
  (forall c, fst (parse_input N p text) <> Some (Structured c)) ->
  history (snd (parse_input N p text)) = history p
  /\ learning_data (snd (parse_input N p text)) = learning_data p
  /\ disk (snd (parse_input N p text)) = disk p
  /\ action_keywords (snd (parse_input N p text)) = action_keywords p
  /\ exists evs,
       plog (snd (parse_input N p text)) = plog p ++ evs
       /\ ~ In EvSave evs.
Proof.
  intros H.
  destruct (parse_input_cases p text)
    as [E|[(evs & r & E & Hl & Hr)|(evs & a & Ha & E)]];
    rewrite E in H |- *; cbn [fst snd] in *.
  - repeat split. exists []. rewrite app_nil_r. auto.
  - repeat split. exists evs. split; [reflexivity|].
    intros Hin. rewrite Forall_forall in Hl. now apply (Hl EvSave).
  - exfalso. unfold finish_command in H. cbn [fst] in H.
    eapply H. reflexivity.
Qed.

Lemma call_history p c :
  history (call N p c) = history p
  \/ exists cmd, history (call N p c) = add_command (history p) cmd.
Proof.
  destruct c as [text|text b a]; cbn [call].
  - destruct (parse_input_cases p text)
      as [E|[(evs & r & E & _)|(evs & a & _ & E)]]; rewrite E; cbn [snd].
    + now left.
    + now left.
    + right. unfold finish_command. cbn. eauto.
  - left. reflexivity.
Qed.

(** X6. The history never outgrows its size: whatever calls are made on
    a parser whose history is within its size, the history stays within
    that size. *)
Theorem history_stays_bounded (p : EnhancedParser) (cs : list Call) :
  List.length (commands (history p)) <= history_size (history p) ->
  List.length (commands (history (calls N p cs)))
  <= history_size (history p)
  /\ history_size (history (calls N p cs)) = history_size (history p).
Proof.
  unfold calls. revert p. induction cs as [|c cs IH]; intros p H.
  - auto.
  - cbn [fold_left].
    assert (Hc : List.length (commands (history (call N p c)))
                 <= history_size (history p)
                 /\ history_size (history (call N p c))
                    = history_size (history p)).
    { destruct (call_history p c) as [->|(cmd & ->)]; [auto|].
      split; [now apply add_command_length | reflexivity]. }
    destruct Hc as [Hlen Hsize]. rewrite <- Hsize in Hlen.
    destruct (IH _ Hlen) as [IH1 IH2]. rewrite Hsize in IH1, IH2. auto.
Qed.

(** *** Persistence *)

Lemma call_persisted p c :
  disk_writable p = true ->
  _load_learning_data (disk p) = learning_data p ->
  disk_writable (call N p c) = true
  /\ _load_learning_data (disk (call N p c)) = learning_data (call N p c).
Proof.
  intros Hw Hd. destruct c as [text|text b a]; cbn [call].
  - destruct (parse_input_cases p text)
      as [E|[(evs & r & E & _)|(evs & a & _ & E)]]; rewrite E; cbn [snd].
    + auto.
    + auto.
    + unfold finish_command. cbn. rewrite Hw. auto.
  - unfold record_feedback, _save_learning_data. cbn. rewrite Hw. auto.
Qed.

(** X7. With a writable learning file, every change to the learning data
    is saved: after any sequence of calls on a parser started from a file,
    a parser started anew from the stored file has the learning data the
    running one has. *)
Theorem learning_survives_restart (user : Dict.t string)
  (file : option LearningData) (cs : list Call)
  (user' : Dict.t string) (writable' : bool) :
  learning_data
    (init user' (disk (calls N (init user file true) cs)) writable')
  = learning_data (calls N (init user file true) cs).
Proof.
  cbn [init learning_data].
  assert (H : forall p,
             disk_writable p = true ->
             _load_learning_data (disk p) = learning_data p ->
             _load_learning_data (disk (calls N p cs))
             = learning_data (calls N p cs)).
  { unfold calls. induction cs as [|c cs' IH]; intros p Hw Hd; [exact Hd|].
    cbn [fold_left]. destruct (@call_persisted p c Hw Hd) as [Hw' Hd'].
    now apply IH. }
  apply H; reflexivity.
Qed.

(** *** Feedback *)

(** X8. A correction is recalled: after negative feedback on a text
    with a non-empty correct action, parsing that text again returns a
    command with that action, replacing any correction recorded for the
    same text before.  The text must not be blank and must be similar above
    90 to itself, and no correction recorded for another text may be
    similar above 90 to it. *)
Theorem correction_is_recalled (p : EnhancedParser) (text a : string) :
  ~ blank text ->
  a <> "" ->
  (90 < ratio N (lower text) (lower text))%Q ->
  (forall o a', In (o, a') (user_corrections (learning_data p)) ->
                o <> text ->
                (ratio N (lower text) (lower o) <= 90)%Q) ->
  exists c p',
    parse_input N (record_feedback p text false (Some a)) text
    = (Some (Structured c), p')
    /\ c_action c = a.
Proof.
  intros Hnb Ha Hself Hothers.
  destruct (set_split (user_corrections (learning_data p)) text a)
    as (before & after & Eset & Hbefore).
  assert (Hcorr : user_corrections
                    (learning_data (record_feedback p text false (Some a)))
                  = before ++ (text, a) :: after).
  { unfold record_feedback. cbn.
    apply truthy_true in Ha. now rewrite Ha. }
  destruct (@learned_action_decides
              (record_feedback p text false (Some a)) text text a
              before after Hnb Hcorr) as (evs & E); auto.
  - intros o a' Hin. destruct (Hbefore o a' Hin) as [Hin' Hne].
    now apply (Hothers o a').
  - rewrite E. unfold finish_command. eexists _, _. split; reflexivity.
Qed.

End WithNlp.

Lemma resolved_command_recorded_witness :
  let c := mkCommand "list_files" []
             [("nouns", []); ("proper_nouns", []); ("file_paths", []);
              ("git_branches", []); ("options", [])] "list files" in
  c_original_text c = "list files"
  /\ c_action c <> ""
  /\ history (snd (parse_input Reference.simple_nlp Reference.fresh_parser
                     "list files"))
     = add_command (history Reference.fresh_parser) c
  /\ action_keywords (snd (parse_input Reference.simple_nlp
                             Reference.fresh_parser "list files"))
     = action_keywords Reference.fresh_parser.
Proof.
  apply (@resolved_command_recorded Reference.simple_nlp
           Reference.fresh_parser "list files").
  vm_compute. reflexivity.
Defined.

Lemma resolved_command_counted_witness :
  let p := snd (parse_input Reference.simple_nlp Reference.fresh_parser
                  "list files") in
  let c := mkCommand "list_files" []
             [("nouns", []); ("proper_nouns", []); ("file_paths", []);
              ("git_branches", []); ("options", [])] "show files" in
  Dict.get (command_frequencies
              (learning_data
                 (snd (parse_input Reference.simple_nlp p "show files"))))
    (c_action c)
  = Some (from_opt 0 (Dict.get (command_frequencies (learning_data p))
                        (c_action c)) + 1)
  /\ (forall a, a <> c_action c ->
        Dict.get (command_frequencies
                    (learning_data
                       (snd (parse_input Reference.simple_nlp p
                               "show files")))) a
        = Dict.get (command_frequencies (learning_data p)) a)
  /\ successful_parses
       (learning_data (snd (parse_input Reference.simple_nlp p "show files")))
     = successful_parses (learning_data p)
  /\ misinterpreted_commands
       (learning_data (snd (parse_input Reference.simple_nlp p "show files")))
     = misinterpreted_commands (learning_data p)
  /\ user_corrections
       (learning_data (snd (parse_input Reference.simple_nlp p "show files")))
     = user_corrections (learning_data p).
Proof.
  apply (@resolved_command_counted Reference.simple_nlp
           (snd (parse_input Reference.simple_nlp Reference.fresh_parser
                   "list files"))
           "show files").
  vm_compute. reflexivity.
Defined.

Lemma unresolved_input_changes_nothing_witness :
  let r := parse_input Reference.simple_nlp Reference.fresh_parser "xyz" in
  history (snd r) = history Reference.fresh_parser
  /\ learning_data (snd r) = learning_data Reference.fresh_parser
  /\ disk (snd r) = disk Reference.fresh_parser
  /\ action_keywords (snd r) = action_keywords Reference.fresh_parser
  /\ exists evs,
       plog (snd r) = plog Reference.fresh_parser ++ evs
       /\ ~ In EvSave evs.
Proof.
  apply (@unresolved_input_changes_nothing Reference.simple_nlp
           Reference.fresh_parser "xyz").
  intros c. vm_compute. discriminate.
Defined.

Lemma history_stays_bounded_witness :
  let cs := [ParseInput "list files"; RecordFeedback "list files" true None;
             ParseInput "pwd"] in
  List.length
    (commands (history (calls Reference.simple_nlp Reference.fresh_parser cs)))
  <= history_size (history Reference.fresh_parser)
  /\ history_size
       (history (calls Reference.simple_nlp Reference.fresh_parser cs))
     = history_size (history Reference.fresh_parser).
Proof.
  apply (@history_stays_bounded Reference.simple_nlp Reference.fresh_parser
           [ParseInput "list files"; RecordFeedback "list files" true None;
            ParseInput "pwd"]).
  simpl. lia.
Defined.

Lemma correction_is_recalled_witness :
  exists c p',
    parse_input Reference.simple_nlp
      (record_feedback
         (record_feedback Reference.fresh_parser "open the pod bay" false
            (Some "show_path"))
         "open the pod bay" false (Some "change_directory"))
      "open the pod bay"
    = (Some (Structured c), p')
    /\ c_action c = "change_directory".
Proof.
  apply (@correction_is_recalled Reference.simple_nlp
           (record_feedback Reference.fresh_parser "open the pod bay" false
              (Some "show_path"))
           "open the pod bay" "change_directory").
  - unfold blank. vm_compute. discriminate.
  - discriminate.
  - vm_compute. reflexivity.
  - intros o a' [Heq|[]] Hne. injection Heq as <- _. now elim Hne.
Defined.

End LearningFacts.

(* ===================================================================== *)
(** ** Vocabulary and fuzzy matching *)
(* ===================================================================== *)

Module IntentFacts.
Import Py Spec PyFacts Parser Exec Session DictFacts ParserFacts LearningFacts.

(** X9. User mappings override the built-in ones: a phrase the user
    maps resolves to the user's action, any other phrase to its built-in
    action, and every built-in phrase stays in the vocabulary. *)
Theorem init_user_overrides_base (user : Dict.t string)
  (file : option LearningData) (writable : bool) (phrase : string) :
  NoDup (Dict.keys user) ->
  Dict.get (action_keywords (init user file writable)) phrase
  = match Dict.get user phrase with
    | Some a => Some a
    | None => Dict.get base_action_keywords phrase
    end
  /\ (In phrase (Dict.keys base_action_keywords) ->
      In phrase (Dict.keys (action_keywords (init user file writable)))).
Proof.
  intros Hnd. cbn [init action_keywords]. split.
  - now apply get_merge.
  - apply keys_merge_incl.
Qed.

Lemma init_user_overrides_base_witness :
  let user := [("ls", "show_path"); ("dir", "list_files")] in
  Dict.get (action_keywords (init user None true)) "ls"
  = match Dict.get user "ls" with
    | Some a => Some a
    | None => Dict.get base_action_keywords "ls"
    end
  /\ (In "ls" (Dict.keys base_action_keywords) ->
      In "ls" (Dict.keys (action_keywords (init user None true)))).
Proof.
  apply (@init_user_overrides_base
           [("ls", "show_path"); ("dir", "list_files")] None true "ls").
  simpl. repeat constructor; simpl; intuition discriminate.
Defined.

Section WithNlp.
Variable N : Nlp.

(** *** [extractOne] *)

Lemma best_choice_stays q post : forall c s,
  (forall k, In k post -> (WRatio N q k <= s)%Q) ->
  best_choice N q post (Some (c, s)) = Some (c, s).
Proof.
  induction post as [|k post IH]; intros c s H; [reflexivity|].
  cbn [best_choice].
  assert (Hk : Qgt_bool (WRatio N q k) s = false)
    by (apply Qgt_bool_false_iff, H; now left).
  rewrite Hk. apply IH. intros k' Hin. apply H. now right.
Qed.

(** The first choice of maximal score is the one kept. *)
Lemma best_choice_first_max q phrase post pre : forall best,
  (forall k, In k pre -> (WRatio N q k < WRatio N q phrase)%Q) ->
  (forall k, In k post -> (WRatio N q k <= WRatio N q phrase)%Q) ->
  match best with
  | Some (_, bs) => (bs < WRatio N q phrase)%Q
  | None => True
  end ->
  best_choice N q (pre ++ phrase :: post) best
  = Some (phrase, WRatio N q phrase).
Proof.
  induction pre as [|k pre IH]; intros best Hpre Hpost Hbest.
  - cbn [app best_choice]. destruct best as [[b bs]|].
    + apply Qgt_bool_iff in Hbest. rewrite Hbest.
      now apply best_choice_stays.
    + now apply best_choice_stays.
  - cbn [app best_choice]. apply IH.
    + intros k' Hin. apply Hpre. now right.
    + exact Hpost.
    + assert (Hk : (WRatio N q k < WRatio N q phrase)%Q)
        by (apply Hpre; now left).
      destruct best as [[b bs]|]; [|exact Hk].
      destruct (Qgt_bool (WRatio N q k) bs); assumption.
Qed.

Lemma best_choice_below q cutoff choices : forall best,
  (forall k, In k choices -> (WRatio N q k < cutoff)%Q) ->
  match best with
  | Some (_, bs) => (bs < cutoff)%Q
  | None => True
  end ->
  match best_choice N q choices best with
  | Some (_, s) => (s < cutoff)%Q
  | None => True
  end.
Proof.
  induction choices as [|k choices IH]; intros best H Hbest; [exact Hbest|].
  cbn [best_choice]. apply IH.
  - intros k' Hin. apply H. now right.
  - assert (Hk : (WRatio N q k < cutoff)%Q) by (apply H; now left).
    destruct best as [[b bs]|]; [|exact Hk].
    destruct (Qgt_bool (WRatio N q k) bs); assumption.
Qed.

Lemma extractOne_first_max q pre phrase post cutoff :
  (forall k, In k pre -> (WRatio N q k < WRatio N q phrase)%Q) ->
  (forall k, In k post -> (WRatio N q k <= WRatio N q phrase)%Q) ->
  (cutoff <= WRatio N q phrase)%Q ->
  extractOne N q (pre ++ phrase :: post) cutoff
  = Some (phrase, WRatio N q phrase).
Proof.
  intros Hpre Hpost Hcut. unfold extractOne.
  rewrite (@best_choice_first_max q phrase post pre None Hpre Hpost I).
  apply Qge_bool_iff in Hcut. now rewrite Hcut.
Qed.

Lemma extractOne_below q choices cutoff :
  (forall k, In k choices -> (WRatio N q k < cutoff)%Q) ->
  extractOne N q choices cutoff = None.
Proof.
  intros H. unfold extractOne.
  pose proof (@best_choice_below q cutoff choices None H I) as Hb.
  destruct (best_choice N q choices None) as [[c s]|]; [|reflexivity].
  apply Qge_bool_false_iff in Hb. now rewrite Hb.
Qed.

(** *** The tiers of [parse_input] *)

Lemma recognize_intent_fuzzy p text doc :
  no_exact_match N p doc ->
  recognize_intent N p text doc
  = match extractOne N (lower text) (Dict.keys (action_keywords p))
            (fuzzy_match_threshold_suggest p) with
    | Some (matched_phrase, score) =>
        let target := match Dict.get (action_keywords p) matched_phrase with
                      | Some a => a
                      | None => ""
                      end in
        if Qge_bool score (fuzzy_match_threshold_execute p)
        then (Some target, None, [EvExtractOne (lower text)])
        else if Qge_bool score (fuzzy_match_threshold_suggest p)
        then (None, Some (target, matched_phrase),
              [EvExtractOne (lower text)])
        else (None, None, [EvExtractOne (lower text)])
    | None => (None, None, [EvExtractOne (lower text)])
    end.
Proof.
  intros [H|H]; unfold recognize_intent; rewrite H; reflexivity.
Qed.

Lemma no_learned_action p text :
  (forall o a, In (o, a) (user_corrections (learning_data p)) ->
               (ratio N (lower text) (lower o) <= 90)%Q) ->
  exists evs, _check_learning_data N (learning_data p) text = (None, evs).
Proof.
  intros H. unfold _check_learning_data.
  destruct (check_corrections_none N text _ H) as [Hnone _].
  destruct (check_corrections N text (user_corrections (learning_data p)))
    as [r evs]. cbn [fst] in Hnone. subst r. now exists evs.
Qed.

(** X10. The execute tier.  For a text that is not blank, that the
    phrase matcher does not resolve and to which no recorded correction is
    similar above 90: when the first vocabulary phrase of maximal score
    reaches both thresholds and maps to a non-empty action, [parse_input]
    returns a command with that action. *)
Theorem fuzzy_match_executes (p : EnhancedParser)
  (text phrase a : string) (pre post : list string) :
  ~ blank text ->
  no_exact_match N p (nlp N text) ->
  (forall o a', In (o, a') (user_corrections (learning_data p)) ->
                (ratio N (lower text) (lower o) <= 90)%Q) ->
  Dict.keys (action_keywords p) = pre ++ phrase :: post ->
  (forall k, In k pre ->
     (WRatio N (lower text) k < WRatio N (lower text) phrase)%Q) ->
  (forall k, In k post ->
     (WRatio N (lower text) k <= WRatio N (lower text) phrase)%Q) ->
  Dict.get (action_keywords p) phrase = Some a ->
  a <> "" ->
  (fuzzy_match_threshold_suggest p <= WRatio N (lower text) phrase)%Q ->
  (fuzzy_match_threshold_execute p <= WRatio N (lower text) phrase)%Q ->
  exists c p',
    parse_input N p text = (Some (Structured c), p')
    /\ c_action c = a.
Proof.
  intros Hnb Hex Hcorr Hkeys Hpre Hpost Hget Ha Hsug Hexe.
  unfold parse_input. rewrite (not_blank_strip Hnb).
  rewrite (@recognize_intent_fuzzy p text _ Hex), Hkeys.
  rewrite (@extractOne_first_max _ _ _ _ _ Hpre Hpost Hsug), Hget.
  cbv zeta. apply Qge_bool_iff in Hexe. rewrite Hexe.
  destruct (@no_learned_action p text Hcorr) as (evs & ->).
  apply truthy_true in Ha. rewrite Ha. cbn [negb andb].
  unfold finish_command. eexists _, _. split; reflexivity.
Qed.

(** X11. The suggest tier.  Under the same conditions, when the maximal
    score reaches the suggest threshold but not the execute threshold,
    [parse_input] returns a suggestion naming that phrase and its
    action. *)
Theorem fuzzy_match_suggests (p : EnhancedParser)
  (text phrase a : string) (pre post : list string) :
  ~ blank text ->
  no_exact_match N p (nlp N text) ->
  (forall o a', In (o, a') (user_corrections (learning_data p)) ->
                (ratio N (lower text) (lower o) <= 90)%Q) ->
  Dict.keys (action_keywords p) = pre ++ phrase :: post ->
  (forall k, In k pre ->
     (WRatio N (lower text) k < WRatio N (lower text) phrase)%Q) ->
  (forall k, In k post ->
     (WRatio N (lower text) k <= WRatio N (lower text) phrase)%Q) ->
  Dict.get (action_keywords p) phrase = Some a ->
  a <> "" ->
  (fuzzy_match_threshold_suggest p <= WRatio N (lower text) phrase)%Q ->
  (WRatio N (lower text) phrase < fuzzy_match_threshold_execute p)%Q ->
  fst (parse_input N p text) = Some (Suggest a phrase).
Proof.
  intros Hnb Hex Hcorr Hkeys Hpre Hpost Hget Ha Hsug Hexe.
  unfold parse_input. rewrite (not_blank_strip Hnb).
  rewrite (@recognize_intent_fuzzy p text _ Hex), Hkeys.
  rewrite (@extractOne_first_max _ _ _ _ _ Hpre Hpost Hsug), Hget.
  cbv zeta. apply Qge_bool_false_iff in Hexe. rewrite Hexe.
  apply Qge_bool_iff in Hsug. rewrite Hsug.
  destruct (@no_learned_action p text Hcorr) as (evs & ->).
  apply truthy_true in Ha. rewrite Ha. cbn [negb andb]. reflexivity.
Qed.

(** X12. For a text that is not blank, that the phrase matcher does not
    resolve and to which no recorded correction is similar above 90: when
    every vocabulary phrase scores below the suggest threshold,
    [parse_input] answers "unrecognized". *)
Theorem fuzzy_match_unrecognized (p : EnhancedParser) (text : string) :
  ~ blank text ->
  no_exact_match N p (nlp N text) ->
  (forall o a', In (o, a') (user_corrections (learning_data p)) ->
                (ratio N (lower text) (lower o) <= 90)%Q) ->
  (forall k, In k (Dict.keys (action_keywords p)) ->
     (WRatio N (lower text) k < fuzzy_match_threshold_suggest p)%Q) ->
  fst (parse_input N p text) = Some Unrecognized.
Proof.
  intros Hnb Hex Hcorr Hlow.
  unfold parse_input. rewrite (not_blank_strip Hnb).
  rewrite (@recognize_intent_fuzzy p text _ Hex).
  rewrite (@extractOne_below _ _ _ Hlow).
  destruct (@no_learned_action p text Hcorr) as (evs & ->).
  reflexivity.
Qed.

End WithNlp.

Lemma fuzzy_match_executes_witness :
  exists c p',
    parse_input Reference.simple_nlp Reference.fresh_parser "list file"
    = (Some (Structured c), p')
    /\ c_action c = "list_files".
Proof.
  apply (@fuzzy_match_executes Reference.simple_nlp Reference.fresh_parser
           "list file" "list files" "list_files" []
           ["show files"; "ls"; "show current directory"; "pwd";
            "change directory"; "cd"]).
  - unfold blank. vm_compute. discriminate.
  - left. reflexivity.
  - intros o a' [].
  - reflexivity.
  - intros k [].
  - intros k Hin. simpl in Hin.
    repeat (destruct Hin as [<-|Hin]; [vm_compute; discriminate|]).
    contradiction.
  - reflexivity.
  - discriminate.
  - vm_compute. discriminate.
  - vm_compute. discriminate.
Defined.

Lemma fuzzy_match_suggests_witness :
  fst (parse_input Reference.simple_nlp Reference.fresh_parser "list fil")
  = Some (Suggest "list_files" "list files").
Proof.
  apply (@fuzzy_match_suggests Reference.simple_nlp Reference.fresh_parser
           "list fil" "list files" "list_files" []
           ["show files"; "ls"; "show current directory"; "pwd";
            "change directory"; "cd"]).
  - unfold blank. vm_compute. discriminate.
  - left. reflexivity.
  - intros o a' [].
  - reflexivity.
  - intros k [].
  - intros k Hin. simpl in Hin.
    repeat (destruct Hin as [<-|Hin]; [vm_compute; discriminate|]).
    contradiction.
  - reflexivity.
  - discriminate.
  - vm_compute. discriminate.
  - vm_compute. reflexivity.
Defined.

Lemma fuzzy_match_unrecognized_witness :
  fst (parse_input Reference.simple_nlp Reference.fresh_parser "xyz")
  = Some Unrecognized.
Proof.
  apply (@fuzzy_match_unrecognized Reference.simple_nlp
           Reference.fresh_parser "xyz").
  - unfold blank. vm_compute. discriminate.
  - left. reflexivity.
  - intros o a' [].
  - intros k Hin. simpl in Hin.
    repeat (destruct Hin as [<-|Hin]; [vm_compute; reflexivity|]).
    contradiction.
Defined.

End IntentFacts.

(* ===================================================================== *)
(** ** Arguments and references *)
(* ===================================================================== *)

Module ArgumentFacts.
Import Py PyFacts Parser Exec Session DictFacts LearningFacts.

Lemma in_list_In x l : in_list x l = true <-> In x l.
Proof.
  unfold in_list. rewrite existsb_exists. split.
  - intros (y & Hin & Hy). apply String.eqb_eq in Hy. now subst.
  - intros H. exists x. split; [exact H | apply String.eqb_refl].
Qed.

Lemma nonempty_entry_some entities k l :
  nonempty_entry entities k = Some l ->
  Dict.get entities k = Some l /\ l <> [].
Proof.
  unfold nonempty_entry. destruct (Dict.get entities k) as [[|x l']|];
    try discriminate.
  intros H. injection H as <-. split; [reflexivity | discriminate].
Qed.

Lemma firstn_In_all (A : Type) n (l : list A) x :
  In x (firstn n l) -> In x l.
Proof.
  revert l. induction n as [|n IH]; intros [|a l]; simpl; try tauto.
  intros [->|H]; auto.
Qed.

(** X13. [_format_args_for_action] returns some paths followed by all
    the option flags.  The paths are taken from the file and directory
    paths of the entities; there are none or exactly two of them for
    [move_rename] and [copy_file] (the first two file paths), and at most
    one for every other action. *)
Theorem format_args_shape (action_id : string) (entities : Entities) :
  exists paths,
    _format_args_for_action action_id entities
    = paths ++ from_opt [] (Dict.get entities "options")
    /\ (forall x, In x paths ->
          In x (from_opt [] (Dict.get entities "file_paths"))
          \/ In x (from_opt [] (Dict.get entities "directory_paths")))
    /\ (In action_id ["move_rename"; "copy_file"] ->
        paths = []
        \/ exists l, Dict.get entities "file_paths" = Some l
                     /\ paths = firstn 2 l /\ List.length paths = 2)
    /\ (~ In action_id ["move_rename"; "copy_file"] ->
        List.length paths <= 1).
Proof.
  unfold _format_args_for_action.
  match goal with
  | |- context [match Dict.get entities "options" with
                | Some opts => ?a ++ opts
                | None => _
                end] => exists a
  end.
  split.
  { destruct (Dict.get entities "options"); cbn [from_opt];
      [reflexivity | now rewrite app_nil_r]. }
  destruct (in_list action_id
              ["change_directory"; "make_directory"; "delete_directory"])
    eqn:Edir.
  { apply in_list_In in Edir. split; [|split].
    - intros x Hx.
      destruct (nonempty_entry entities "directory_paths") as [l|] eqn:El.
      + apply nonempty_entry_some in El as [-> _]. right.
        now apply firstn_In_all in Hx.
      + destruct (nonempty_entry entities "file_paths") as [l|] eqn:Ef;
          [|contradiction].
        apply nonempty_entry_some in Ef as [-> _]. left.
        now apply firstn_In_all in Hx.
    - intros [<-|[<-|[]]]; simpl in Edir; intuition discriminate.
    - intros _.
      destruct (nonempty_entry entities "directory_paths") as [l|];
        [apply firstn_le_length|].
      destruct (nonempty_entry entities "file_paths") as [l|];
        [apply firstn_le_length | simpl; lia]. }
  destruct (in_list action_id ["create_file"; "delete_file"; "display_file"])
    eqn:Efile.
  { apply in_list_In in Efile. split; [|split].
    - intros x Hx.
      destruct (nonempty_entry entities "file_paths") as [l|] eqn:Ef;
        [|contradiction].
      apply nonempty_entry_some in Ef as [-> _]. left.
      now apply firstn_In_all in Hx.
    - intros [<-|[<-|[]]]; simpl in Efile; intuition discriminate.
    - intros _.
      destruct (nonempty_entry entities "file_paths") as [l|];
        [apply firstn_le_length | simpl; lia]. }
  destruct (in_list action_id ["move_rename"; "copy_file"]) eqn:Etwo.
  { apply in_list_In in Etwo. split; [|split].
    - intros x Hx.
      destruct (Dict.get entities "file_paths") as [l|]; [|contradiction].
      destruct (2 <=? List.length l)%nat; [|contradiction].
      left. now apply firstn_In_all in Hx.
    - intros _.
      destruct (Dict.get entities "file_paths") as [l|]; [|now left].
      destruct (Nat.leb_spec 2 (List.length l)); [|now left].
      right. exists l. repeat split. rewrite length_firstn. lia.
    - intros H. contradiction. }
  split; [intros x []|]. split; [now left | simpl; lia].
Qed.

(** *** [_resolve_references] *)

(** One iteration of the loop is the loop on two tokens. *)
Lemma resolve_tokens_cons token next rest context resolved :
  resolve_tokens (token :: next :: rest) context resolved
  = resolve_tokens (next :: rest) context
      (resolve_tokens [token; next] context resolved).
Proof. reflexivity. Qed.

Lemma resolve_step_appends token next (context resolved : Entities) k :
  exists extra,
    from_opt [] (Dict.get (resolve_tokens [token; next] context resolved) k)
    = from_opt [] (Dict.get resolved k) ++ extra
    /\ Forall (fun x => exists rest, Dict.get context k = Some (x :: rest))
         extra
    /\ (extra <> [] -> k = "file_paths" \/ k = "directory_paths")
    /\ (Dict.get resolved k <> None ->
        Dict.get (resolve_tokens [token; next] context resolved) k <> None)
    /\ (Dict.get context k = None ->
        Dict.get (resolve_tokens [token; next] context resolved) k
        = Dict.get resolved k).
Proof.
  assert (Hsame : exists extra : list string,
             from_opt [] (Dict.get resolved k)
             = from_opt [] (Dict.get resolved k) ++ extra
             /\ Forall (fun x => exists rest,
                          Dict.get context k = Some (x :: rest)) extra
             /\ (extra <> [] -> k = "file_paths" \/ k = "directory_paths")
             /\ (Dict.get resolved k <> None -> Dict.get resolved k <> None)
             /\ (Dict.get context k = None ->
                 Dict.get resolved k = Dict.get resolved k)).
  { exists []. rewrite app_nil_r. repeat split; auto. now intros []. }
  cbn [resolve_tokens].
  destruct (in_list (lower_ token) ["that"; "this"]
            && in_list (lower_ next) ["file"; "directory"; "folder"]);
    [|exact Hsame].
  set (et := if lower_ next =? "file" then "file_paths"
             else "directory_paths").
  assert (Het : et = "file_paths" \/ et = "directory_paths")
    by (unfold et; destruct (lower_ next =? "file"); auto).
  destruct (Dict.get context et) as [[|v rest]|] eqn:Ectx;
    try exact Hsame.
  destruct (String.eqb_spec et k) as [<-|Hne].
  - exists [v]. rewrite get_set_same. cbn [from_opt].
    split; [|split; [|split; [|split]]].
    + destruct (Dict.get resolved et); reflexivity.
    + constructor; [now exists rest | constructor].
    + intros _. exact Het.
    + discriminate.
    + intros H. rewrite H in Ectx. discriminate.
  - rewrite get_set_other by exact Hne. exact Hsame.
Qed.

Lemma resolve_tokens_appends ts : forall (context resolved : Entities) k,
  exists extra,
    from_opt [] (Dict.get (resolve_tokens ts context resolved) k)
    = from_opt [] (Dict.get resolved k) ++ extra
    /\ Forall (fun x => exists rest, Dict.get context k = Some (x :: rest))
         extra
    /\ (extra <> [] -> k = "file_paths" \/ k = "directory_paths")
    /\ (Dict.get resolved k <> None ->
        Dict.get (resolve_tokens ts context resolved) k <> None)
    /\ (Dict.get context k = None ->
        Dict.get (resolve_tokens ts context resolved) k
        = Dict.get resolved k).
Proof.
  induction ts as [|token ts IH]; intros context resolved k.
  - exists []. rewrite app_nil_r. repeat split; auto. now intros [].
  - destruct ts as [|next rest].
    + exists []. rewrite app_nil_r. repeat split; auto. now intros [].
    + rewrite resolve_tokens_cons.
      destruct (resolve_step_appends token next context resolved k)
        as (e0 & E0 & F0 & K0 & M0 & C0).
      destruct (IH context (resolve_tokens [token; next] context resolved) k)
        as (e1 & E1 & F1 & K1 & M1 & C1).
      exists (e0 ++ e1). rewrite E1, E0, app_assoc.
      split; [reflexivity|]. split; [now apply Forall_app|].
      split; [|split].
      * intros H. destruct e0 as [|x e0]; [apply K1; exact H|].
        apply K0. discriminate.
      * auto.
      * intros H. rewrite (C1 H). now apply C0.
Qed.

Lemma resolve_references_appends (doc : Doc) (entities context : Entities)
  (k : string) :
  exists extra,
    from_opt [] (Dict.get (_resolve_references doc entities context) k)
    = from_opt [] (Dict.get entities k) ++ extra
    /\ Forall (fun x => exists rest, Dict.get context k = Some (x :: rest))
         extra
    /\ (extra <> [] -> k = "file_paths" \/ k = "directory_paths")
    /\ (Dict.get entities k <> None ->
        Dict.get (_resolve_references doc entities context) k <> None)
    /\ (Dict.get context k = None ->
        Dict.get (_resolve_references doc entities context) k
        = Dict.get entities k).
Proof.
  unfold _resolve_references.
  destruct (existsb _ doc && negb (Nat.eqb (List.length context) 0)).
  - apply resolve_tokens_appends.
  - exists []. rewrite app_nil_r. repeat split; auto. now intros [].
Qed.

(** X14. Reference resolution only appends: for every entity type, the
    resolved list is the extracted list followed by values that head
    the remembered list of that type; values are only ever added to the
    file and directory paths, no entity type is removed, and a type
    that has nothing remembered is left as extracted. *)
Theorem resolve_references_only_appends (doc : Doc)
  (entities context : Entities) (k : string) :
  exists extra,
    from_opt [] (Dict.get (_resolve_references doc entities context) k)
    = from_opt [] (Dict.get entities k) ++ extra
    /\ Forall (fun x => exists rest, Dict.get context k = Some (x :: rest))
         extra
    /\ (extra <> [] -> k = "file_paths" \/ k = "directory_paths")
    /\ (Dict.get entities k <> None ->
        Dict.get (_resolve_references doc entities context) k <> None)
    /\ (Dict.get context k = None ->
        Dict.get (_resolve_references doc entities context) k
        = Dict.get entities k).
Proof. apply resolve_references_appends. Qed.

Lemma resolve_tokens_that_file det noun post (context : Entities) v rest
  pre : forall resolved : Entities,
  In (lower_ det) ["that"; "this"] ->
  lower_ noun = "file" ->
  Dict.get context "file_paths" = Some (v :: rest) ->
  exists extra,
    from_opt []
      (Dict.get (resolve_tokens (pre ++ det :: noun :: post) context resolved)
         "file_paths")
    = from_opt [] (Dict.get resolved "file_paths") ++ v :: extra
    /\ Forall (eq v) extra.
Proof.
  assert (Hall : forall extra : list string,
             Dict.get context "file_paths" = Some (v :: rest) ->
             Forall (fun x => exists rest',
                       Dict.get context "file_paths" = Some (x :: rest'))
               extra ->
             Forall (eq v) extra).
  { intros extra Hctx H. eapply Forall_impl; [|exact H].
    intros x (rest' & Hx). rewrite Hctx in Hx. now injection Hx. }
  induction pre as [|t pre IH]; intros resolved Hdet Hnoun Hctx.
  - cbn [app]. rewrite resolve_tokens_cons.
    destruct (resolve_tokens_appends (noun :: post) context
                (resolve_tokens [det; noun] context resolved) "file_paths")
      as (e1 & E1 & F1 & _).
    exists e1. rewrite E1. split; [|now apply Hall].
    cbn [resolve_tokens].
    apply in_list_In in Hdet. rewrite Hdet, Hnoun.
    cbn [in_list existsb String.eqb Ascii.eqb Bool.eqb orb andb].
    rewrite Hctx, get_set_same. cbn [from_opt].
    rewrite <- app_assoc. reflexivity.
  - cbn [app].
    destruct (pre ++ det :: noun :: post) as [|next tl] eqn:El.
    { destruct pre; discriminate. }
    rewrite resolve_tokens_cons.
    destruct (resolve_step_appends t next context resolved "file_paths")
      as (e0 & E0 & F0 & _).
    destruct (IH (resolve_tokens [t; next] context resolved) Hdet Hnoun Hctx)
      as (e1 & E1 & F1).
    rewrite E1, E0. apply (Hall _ Hctx) in F0.
    destruct e0 as [|x e0].
    + exists e1. rewrite app_nil_r. auto.
    + inversion F0 as [|? ? Hx F0']; subst x.
      exists (e0 ++ v :: e1). split.
      * rewrite <- app_assoc. reflexivity.
      * apply Forall_app. split; [exact F0'|]. now constructor.
Qed.

Section WithNlp.
Variable N : Nlp.

(** X15. "that file" does not supply the argument.  When the entity
    matcher reports a FILE_PATH match for the utterance, as the installed
    pattern does for every token that holds a word character, and the
    utterance says "that file" or "this file" while a file path is
    remembered from an earlier command, the remembered path is resolved:
    it is appended to the file paths of the resolved entities, after the
    texts of all the matches.  The arguments of a [create_file],
    [delete_file] or [display_file] command are nevertheless the text of
    the first match followed by the option flags of the utterance, whatever
    is remembered. *)
Theorem that_file_follows_utterance_paths (pre : list Token)
  (det noun : Token) (post : list Token) (context : Entities) (v : string)
  (rest : list string) (action_id : string) (m : Match) (ms : list Match) :
  In action_id ["create_file"; "delete_file"; "display_file"] ->
  In (lower_ det) ["that"; "this"] ->
  lower_ noun = "file" ->
  Dict.get context "file_paths" = Some (v :: rest) ->
  filter (fun m : string * nat * nat => fst (fst m) =? "FILE_PATH")
    (entity_matcher N (pre ++ det :: noun :: post)) = m :: ms ->
  (exists extra,
     Dict.get
       (resolved_entities
          (_extract_arguments N (pre ++ det :: noun :: post) action_id
             context)) "file_paths"
     = Some (map (fun m => span_text (pre ++ det :: noun :: post)
                             (snd (fst m)) (snd m)) (m :: ms)
             ++ v :: extra)
     /\ Forall (eq v) extra)
  /\ formatted_args
       (_extract_arguments N (pre ++ det :: noun :: post) action_id context)
     = span_text (pre ++ det :: noun :: post) (snd (fst m)) (snd m)
       :: map tok_text
            (filter (fun t => startswith (tok_text t) "-")
               (pre ++ det :: noun :: post)).
Proof.
  intros Hact Hdet Hnoun Hctx Hm.
  set (doc := pre ++ det :: noun :: post) in *.
  unfold _extract_arguments. cbn [formatted_args resolved_entities].
  set (all_entities := Dict.merge (_extract_basic_entities doc)
                         (_extract_specialized_entities N doc)).
  assert (Hfp : Dict.get all_entities "file_paths"
                = Some (map (fun m => span_text doc (snd (fst m)) (snd m))
                          (m :: ms))).
  { unfold all_entities, _extract_basic_entities,
      _extract_specialized_entities.
    rewrite Hm. reflexivity. }
  assert (Hopt : Dict.get all_entities "options"
                 = Some (map tok_text
                           (filter (fun t => startswith (tok_text t) "-")
                              doc)))
    by reflexivity.
  assert (Href : _resolve_references doc all_entities context
                 = resolve_tokens doc context all_entities).
  { unfold _resolve_references.
    assert (H1 : existsb
                   (fun t => in_list (lower_ t) ["that"; "this"; "it"; "those"])
                   doc = true).
    { apply existsb_exists. exists det. split.
      - unfold doc. apply in_or_app. right. now left.
      - apply in_list_In. simpl in Hdet |- *. tauto. }
    rewrite H1. destruct context; [discriminate | reflexivity]. }
  rewrite Href.
  destruct (@resolve_tokens_that_file det noun post context v rest pre
              all_entities Hdet Hnoun Hctx) as (extra & E & Hextra).
  fold doc in E. rewrite Hfp in E. cbn [from_opt] in E.
  destruct (resolve_tokens_appends doc context all_entities "options")
    as (eo & Eo & _ & Ko & Mo & _).
  assert (eo = []).
  { destruct eo as [|x eo]; [reflexivity|].
    destruct Ko as [Ko|Ko]; discriminate. }
  subst eo. rewrite Hopt, app_nil_r in Eo. cbn [from_opt] in Eo.
  assert (Hdirs : in_list action_id
                    ["change_directory"; "make_directory"; "delete_directory"]
                  = false).
  { destruct Hact as [<-|[<-|[<-|[]]]]; reflexivity. }
  assert (Hfiles : in_list action_id
                     ["create_file"; "delete_file"; "display_file"] = true)
    by (now apply in_list_In).
  unfold _format_args_for_action. rewrite Hdirs, Hfiles.
  unfold nonempty_entry.
  destruct (Dict.get (resolve_tokens doc context all_entities) "file_paths")
    as [l|]; cbn [from_opt] in E; [|discriminate].
  subst l. split; [exists extra; auto|].
  cbn [map app firstn].
  destruct (Dict.get (resolve_tokens doc context all_entities) "options")
    as [o|] eqn:Eopt.
  - cbn [from_opt] in Eo. subst o. reflexivity.
  - exfalso. apply Mo; [|reflexivity]. rewrite Hopt. discriminate.
Qed.

(** *** The remembered context of a session *)

Lemma keys_set_cases (d : Entities) k v k' :
  In k' (Dict.keys (Dict.set d k v)) -> In k' (Dict.keys d) \/ k' = k.
Proof.
  induction d as [|[k0 v0] d IH]; simpl.
  - intros [<-|[]]. now right.
  - destruct (String.eqb k0 k); simpl; intuition.
Qed.

Lemma add_command_context_keys h c k :
  In k (Dict.keys (last_entities (add_command h c))) ->
  In k (Dict.keys (last_entities h)) \/ In k (Dict.keys (c_entities c)).
Proof.
  unfold add_command. cbn [last_entities].
  generalize (last_entities h) as le.
  induction (c_entities c) as [|[k0 v0] ents IH]; intros le H.
  - now left.
  - cbn [fold_left fst snd] in H. apply IH in H as [H|H].
    + destruct v0 as [|x v0]; [now left|].
      apply keys_set_cases in H as [H| ->]; [now left|].
      right. now left.
    + right. now right.
Qed.

Lemma raw_entities_keys doc action_id context :
  Dict.keys (raw_entities (_extract_arguments N doc action_id context))
  = ["nouns"; "proper_nouns"; "file_paths"; "git_branches"; "options"].
Proof.
  unfold _extract_arguments. cbn [raw_entities]. unfold shared_view, Dict.keys.
  rewrite map_map. cbn [fst]. reflexivity.
Qed.

Lemma finish_command_history p text doc context a :
  history (snd (finish_command N p text doc context a))
  = add_command (history p)
      {| c_action := a;
         c_args := formatted_args (_extract_arguments N doc a context);
         c_entities := raw_entities (_extract_arguments N doc a context);
         c_original_text := text |}.
Proof. reflexivity. Qed.

Lemma call_context_keys p c :
  (forall k, In k (Dict.keys (last_entities (history p))) ->
             In k ["nouns"; "proper_nouns"; "file_paths"; "git_branches"; "options"]) ->
  forall k, In k (Dict.keys (last_entities (history (call N p c)))) ->
            In k ["nouns"; "proper_nouns"; "file_paths"; "git_branches"; "options"].
Proof.
  intros H k Hk. destruct c as [text|text b a]; cbn [call] in Hk.
  - destruct (parse_input_cases N p text)
      as [E|[(evs & r & E & _)|(evs & a & _ & E)]];
      rewrite E in Hk; cbn [snd] in Hk.
    + now apply H.
    + now apply H.
    + rewrite finish_command_history in Hk.
      apply add_command_context_keys in Hk as [Hk|Hk].
      * now apply H.
      * cbn [c_entities] in Hk. now rewrite raw_entities_keys in Hk.
  - now apply H.
Qed.

(** X16. No directory is ever remembered: in a parser started by
    [__init__], after any sequence of calls, the remembered context has no
    "directory_paths", so "that directory" and "that folder" resolve to
    nothing: reference resolution leaves the directory paths as they
    are. *)
Theorem directory_references_never_resolve (user : Dict.t string)
  (file : option LearningData) (writable : bool) (cs : list Call)
  (doc : Doc) (entities : Entities) :
  Dict.get
    (get_entity_context (history (calls N (init user file writable) cs)))
    "directory_paths" = None
  /\ Dict.get
       (_resolve_references doc entities
          (get_entity_context
             (history (calls N (init user file writable) cs))))
       "directory_paths"
     = Dict.get entities "directory_paths".
Proof.
  assert (Hkeys : forall p,
             (forall k, In k (Dict.keys (last_entities (history p))) ->
                        In k ["nouns"; "proper_nouns"; "file_paths"; "git_branches"; "options"]) ->
             forall k,
               In k (Dict.keys (last_entities (history (calls N p cs)))) ->
               In k ["nouns"; "proper_nouns"; "file_paths"; "git_branches"; "options"]).
  { unfold calls. induction cs as [|c cs' IH]; intros p Hp; [exact Hp|].
    cbn [fold_left]. apply IH. now apply call_context_keys. }
  assert (Hnone : Dict.get
                    (get_entity_context
                       (history (calls N (init user file writable) cs)))
                    "directory_paths" = None).
  { apply get_none_keys. intros Hin.
    apply (Hkeys (init user file writable)) in Hin.
    - simpl in Hin. intuition discriminate.
    - intros k []. }
  split; [exact Hnone|].
  destruct (resolve_references_appends doc entities
              (get_entity_context
                 (history (calls N (init user file writable) cs)))
              "directory_paths") as (_ & _ & _ & _ & _ & H).
  now apply H.
Qed.

End WithNlp.

Lemma that_file_follows_utterance_paths_witness :
  (exists extra,
     Dict.get
       (resolved_entities
          (_extract_arguments Reference.path_nlp
             ([mkToken "display" " " "X" false]
                ++ mkToken "That" " " "X" false
                   :: mkToken "file" " " "X" false
                      :: [mkToken "-n" "" "X" false])
             "display_file" [("file_paths", ["test.txt"; "old.txt"])]))
       "file_paths"
     = Some (["display"; "display That"; "That"; "display That file";
              "That file"; "file"; "display That file -n"; "That file -n";
              "file -n"; "-n"] ++ "test.txt" :: extra)
     /\ Forall (eq "test.txt") extra)
  /\ formatted_args
       (_extract_arguments Reference.path_nlp
          ([mkToken "display" " " "X" false]
             ++ mkToken "That" " " "X" false
                :: mkToken "file" " " "X" false
                   :: [mkToken "-n" "" "X" false])
          "display_file" [("file_paths", ["test.txt"; "old.txt"])])
     = ["display"; "-n"].
Proof.
  refine (@that_file_follows_utterance_paths Reference.path_nlp
            [mkToken "display" " " "X" false]
            (mkToken "That" " " "X" false) (mkToken "file" " " "X" false)
            [mkToken "-n" "" "X" false]
            [("file_paths", ["test.txt"; "old.txt"])] "test.txt" ["old.txt"]
            "display_file" ("FILE_PATH", 0, 1)
            [("FILE_PATH", 0, 2); ("FILE_PATH", 1, 2); ("FILE_PATH", 0, 3);
             ("FILE_PATH", 1, 3); ("FILE_PATH", 2, 3); ("FILE_PATH", 0, 4);
             ("FILE_PATH", 1, 4); ("FILE_PATH", 2, 4); ("FILE_PATH", 3, 4)]
            _ _ _ _ _).
  - simpl. auto.
  - vm_compute. auto.
  - reflexivity.
  - reflexivity.
  - vm_compute. reflexivity.
Defined.

End ArgumentFacts.

(* ===================================================================== *)
(** ** The trace of a pipeline run *)
(* ===================================================================== *)

Module TraceFacts.
Import Exec ExecSpec TraceSpec ExecFacts.

Lemma created_app tr1 tr2 : created (tr1 ++ tr2) = created tr1 ++ created tr2.
Proof.
  induction tr1 as [|e tr1 IH]; simpl; auto.
  destruct e; simpl; rewrite IH; reflexivity.
Qed.

Lemma unlinked_app tr1 tr2 :
  unlinked (tr1 ++ tr2) = unlinked tr1 ++ unlinked tr2.
Proof.
  induction tr1 as [|e tr1 IH]; simpl; auto.
  destruct e; simpl; rewrite IH; reflexivity.
Qed.

Lemma processes_app tr1 tr2 :
  processes (tr1 ++ tr2) = processes tr1 ++ processes tr2.
Proof.
  induction tr1 as [|e tr1 IH]; simpl; auto.
  destruct e; simpl; rewrite IH; reflexivity.
Qed.

Lemma delegated_app tr1 tr2 :
  delegated (tr1 ++ tr2) = delegated tr1 ++ delegated tr2.
Proof.
  induction tr1 as [|e tr1 IH]; simpl; auto.
  destruct e; simpl; rewrite IH; reflexivity.
Qed.

Lemma unlink_events temps :
  created (map EvUnlink temps) = []
  /\ unlinked (map EvUnlink temps) = temps
  /\ processes (map EvUnlink temps) = []
  /\ delegated (map EvUnlink temps) = []
  /\ mapped_stages (map EvUnlink temps) = []
  /\ invocations (map EvUnlink temps) = 0.
Proof.
  induction temps as [|f fs IH]; [simpl; auto 6|].
  destruct IH as (H1 & H2 & H3 & H4 & H5 & H6). simpl.
  rewrite H2. auto 6.
Qed.

(** [_map_to_native_command] only ever names one of five programs. *)
Lemma map_native_programs stage inp b argv :
  _map_to_native_command stage inp b = Some argv ->
  runs_native_program argv.
Proof.
  unfold _map_to_native_command, runs_native_program.
  destruct (action stage =? "list_files").
  { intros H. injection H as <-.
    destruct (args stage); eexists _, _; split; try reflexivity;
      simpl; auto. }
  destruct ((action stage =? "display_file")
            && negb (Nat.eqb (List.length (args stage)) 0)).
  { intros H. injection H as <-. eexists _, _. split; [reflexivity|].
    simpl. auto. }
  destruct ((action stage =? "grep") || (action stage =? "find_text")).
  { destruct (args stage); [discriminate|].
    intros H. injection H as <-. eexists _, _. split; [reflexivity|].
    simpl. auto. }
  destruct (action stage =? "count_lines").
  { intros H. injection H as <-. eexists _, _. split; [reflexivity|].
    simpl. auto. }
  destruct (action stage =? "sort_lines"); [|discriminate].
  intros H. injection H as <-. eexists _, _. split; [reflexivity|].
  simpl. auto 6.
Qed.

Section WithRuntime.
Variable R : Runtime.
Implicit Types st : State R.

Lemma single_command_trace cmd st :
  trace (snd (_execute_single_command cmd st))
  = trace st ++ [EvExecutor cmd].
Proof.
  destruct (single_command_run cmd st) as (r & w & E & _).
  now rewrite E.
Qed.

(** One iteration of the loop: what it adds to the trace. *)
Lemma run_stage_trace stage b inp temps st :
  exists r temps' w evs,
    run_stage stage b inp temps st
    = ((r, temps'), {| st_world := w;
                       trace := trace st ++ EvMapNative stage :: evs |})
    /\ mapped_stages evs = []
    /\ invocations evs = 1
    /\ temps' = temps ++ created evs
    /\ unlinked evs = []
    /\ Forall runs_native_program (processes evs).
Proof.
  unfold run_stage, bind, log, ret. simpl.
  set (st0 := {| st_world := st_world st;
                 trace := trace st ++ [EvMapNative stage] |}).
  destruct (_map_to_native_command stage inp b) as [[|a argv]|] eqn:Emap.
  1, 3:
    destruct inp as [data|];
    [ unfold lift; simpl;
      destruct (mktemp R data (st_world st)) as [name w1];
      match goal with
      | |- context [_execute_single_command ?c ?s] =>
          destruct (single_command_run c s) as (r & w & E & Hrc)
      end;
      rewrite E; simpl;
      exists r, (temps ++ [name]), w,
        [EvTempFile name data; EvExecutor
           {| cmd_action := action stage;
              cmd_args := if (action stage =? "display_file")
                             || (action stage =? "cat")
                          then [name] else args stage |}];
      rewrite <- !app_assoc; simpl;
      repeat split; auto
    | destruct (single_command_run
                  {| cmd_action := action stage; cmd_args := args stage |}
                  st0) as (r & w & E & Hrc);
      rewrite E; simpl;
      exists r, temps, w,
        [EvExecutor {| cmd_action := action stage;
                       cmd_args := args stage |}];
      rewrite <- !app_assoc; simpl; rewrite app_nil_r;
      repeat split; auto ].
  destruct (native_command_run (a :: argv) inp st0)
    as (r & w & input & E & Hrc & Hin).
  rewrite E. simpl.
  exists r, temps, w, [EvProcess (a :: argv) input].
  rewrite <- !app_assoc. simpl. rewrite app_nil_r. repeat split; auto.
  constructor; [|constructor]. eapply map_native_programs. exact Emap.
Qed.

Lemma cleanup_trace temps : forall st,
  trace (snd (cleanup temps st)) = trace st ++ map EvUnlink temps.
Proof.
  induction temps as [|f fs IH]; intros st.
  - simpl. now rewrite app_nil_r.
  - cbn [cleanup]. unfold bind, log, lift. simpl.
    rewrite IH. simpl. now rewrite <- app_assoc.
Qed.

(** The loop: what it adds to the trace and what it reports. *)
Lemma stages_loop_trace rest : forall len i n inp temps st,
  exists res temps' w evs m,
    stages_loop len i rest n inp temps st
    = ((res, temps'), {| st_world := w; trace := trace st ++ evs |})
    /\ stages_executed res = Some (n + m)
    /\ invocations evs = m
    /\ mapped_stages evs = firstn m rest
    /\ m <= List.length rest
    /\ (success res = true -> m = List.length rest /\ failed_stage res = None)
    /\ (success res = false ->
        1 <= m /\ failed_stage res = Some (i + m - 1))
    /\ temps' = temps ++ created evs
    /\ unlinked evs = []
    /\ Forall runs_native_program (processes evs).
Proof.
  induction rest as [|stage rest IH]; intros len i n inp temps st.
  - exists (pipeline_success inp n), temps, (st_world st), [], 0.
    rewrite !app_nil_r, Nat.add_0_r. destruct st. simpl.
    repeat split; auto; discriminate.
  - cbn [stages_loop]. unfold bind.
    destruct (run_stage_trace stage (Nat.eqb i (len - 1)) inp temps st)
      as (r & temps1 & w1 & evs1 & E & Hm & Hi & Ht & Hu & Hp).
    rewrite E. destruct (success r) eqn:Hok; cbn [negb].
    + match goal with
      | |- context [stages_loop len (S i) rest ?n' ?inp' temps1 ?s] =>
          destruct (IH len (S i) n' inp' temps1 s)
            as (res & temps2 & w2 & evs2 & m & E2 & He & Hi2 & Hm2 & Hle
                & Hs & Hf & Ht2 & Hu2 & Hp2)
      end.
      rewrite E2. cbn [trace].
      exists res, temps2, w2, ((EvMapNative stage :: evs1) ++ evs2), (S m).
      rewrite <- app_assoc. split; [reflexivity|].
      rewrite invocations_app, mapped_stages_app, created_app,
        unlinked_app, processes_app.
      cbn [invocations mapped_stages created unlinked processes].
      rewrite Hm, Hi, Hu, Hi2, Hm2, Hu2, He, Ht2, Ht.
      cbn [app firstn List.length].
      repeat split; auto; try lia.
      * f_equal. lia.
      * apply Hs in H. lia.
      * now apply Hs.
      * apply Hf in H as [H1 H2]. rewrite H2. f_equal. lia.
      * now rewrite app_assoc.
      * apply Forall_app. auto.
    + unfold ret.
      exists (stage_failure r (n + 1) i), temps1, w1,
        (EvMapNative stage :: evs1), 1.
      split; [reflexivity|].
      cbn [invocations mapped_stages created unlinked processes
           stage_failure stages_executed success failed_stage].
      rewrite Hm, Hi, Hu, Ht. cbn [firstn List.length].
      repeat split; auto; try lia; try discriminate.
      f_equal. lia.
Qed.

Lemma multi_stage_trace pipeline st :
  exists res evs m,
    fst (_execute_multi_stage_pipeline pipeline st) = res
    /\ trace (snd (_execute_multi_stage_pipeline pipeline st))
       = trace st ++ evs ++ map EvUnlink (created evs)
    /\ stages_executed res = Some m
    /\ invocations evs = m
    /\ mapped_stages evs = firstn m pipeline
    /\ m <= List.length pipeline
    /\ (success res = true ->
        m = List.length pipeline /\ failed_stage res = None)
    /\ (success res = false -> 1 <= m /\ failed_stage res = Some (m - 1))
    /\ unlinked evs = []
    /\ Forall runs_native_program (processes evs).
Proof.
  unfold _execute_multi_stage_pipeline, bind.
  destruct (stages_loop_trace pipeline (List.length pipeline) 0 0 None [] st)
    as (res & temps & w & evs & m & E & He & Hi & Hm & Hle & Hs & Hf & Ht
        & Hu & Hp).
  rewrite E. cbn [fst snd].
  pose proof (cleanup_trace temps
                {| st_world := w; trace := trace st ++ evs |}) as Hc.
  destruct (cleanup temps {| st_world := w; trace := trace st ++ evs |})
    as [[] st2].
  cbn [snd trace] in Hc. unfold ret. cbn [fst snd].
  exists res, evs, m. cbn [app] in Ht. subst temps.
  rewrite Hc, <- app_assoc.
  repeat split; auto; try (now apply Hs); now apply Hf.
Qed.

(** X18. In a pipeline of at least two stages, [stages_executed] is the
    number of stages that were run, each by exactly one process or
    executor invocation: the stages run are the first [stages_executed]
    stages of the pipeline, in order.  On success that is all of them; on
    failure at least one, and [failed_stage] is the index of the last one
    run. *)
Theorem stages_executed_counts (pipeline : list PipelineStage) st :
  2 <= List.length pipeline ->
  exists evs m,
    trace (snd (execute_pipeline pipeline st)) = trace st ++ evs
    /\ stages_executed (fst (execute_pipeline pipeline st)) = Some m
    /\ invocations evs = m
    /\ mapped_stages evs = firstn m pipeline
    /\ m <= List.length pipeline
    /\ (success (fst (execute_pipeline pipeline st)) = true ->
        m = List.length pipeline
        /\ failed_stage (fst (execute_pipeline pipeline st)) = None)
    /\ (success (fst (execute_pipeline pipeline st)) = false ->
        1 <= m
        /\ failed_stage (fst (execute_pipeline pipeline st)) = Some (m - 1)).
Proof.
  intros Hlen. rewrite (execute_pipeline_multi R _ Hlen).
  destruct (multi_stage_trace pipeline st)
    as (res & evs & m & Er & Ht & He & Hi & Hm & Hle & Hs & Hf & _ & _).
  destruct (unlink_events (created evs)) as (_ & _ & _ & _ & Hum & Hui).
  exists (evs ++ map EvUnlink (created evs)), m.
  rewrite Er, Ht, invocations_app, mapped_stages_app, Hum, Hui, Hi, Hm.
  rewrite app_nil_r, Nat.add_0_r. repeat split; auto; tauto.
Qed.


(** X20. When every stage of a pipeline of at least two stages
    succeeds, [execute_pipeline] reports success with exit code 0, empty
    stderr, the stdout of the last stage and all the stages counted; the
    stderr of the stages is not reported. *)
Theorem multi_stage_all_succeed (pre : list PipelineStage)
  (stage : PipelineStage) (st st1 st2 : State R)
  (inp : option string) (temps temps2 : list string) (r : Result) :
  1 <= List.length pre ->
  stages_succeed (List.length (pre ++ [stage])) 0 pre None [] st
    inp temps st1 ->
  run_stage stage true inp temps st1 = ((r, temps2), st2) ->
  success r = true ->
  exists w evs,
    execute_pipeline (pre ++ [stage]) st
    = ({| success := true; error := None; stdout := stdout r;
          stderr := ""; returncode := Some 0%Z;
          stages_executed := Some (List.length pre + 1);
          failed_stage := None |},
       {| st_world := w; trace := trace st ++ evs |})
    /\ mapped_stages evs = pre ++ [stage]
    /\ invocations evs = List.length pre + 1.
Proof.
  intros Hlen Hpre Hrun Hok.
  assert (Hlast : Nat.eqb (List.length pre)
                    (List.length (pre ++ [stage]) - 1) = true).
  { apply Nat.eqb_eq. rewrite length_app. simpl. lia. }
  rewrite execute_pipeline_multi
    by (rewrite length_app; simpl; lia).
  pose proof (@stages_loop_succeed R _ _ _ _ _ _ _ _ _ Hpre [stage] 0)
    as Hloop.
  cbn [Nat.add] in Hloop.
  cbn [stages_loop] in Hloop. unfold bind in Hloop.
  rewrite Hlast, Hrun, Hok in Hloop. cbn [negb] in Hloop.
  unfold ret in Hloop.
  destruct (@multi_stage_of_loop R _ _ _ _ _ Hloop)
    as (w & evs3 & E & Hm3 & Hi3).
  destruct (@stages_succeed_trace R _ _ _ _ _ _ _ _ _ Hpre)
    as (evs1 & Ht1 & Hm1 & Hi1).
  destruct (run_stage_run stage true inp temps st1)
    as (r' & t' & w2 & evs2 & E2 & Hm2 & Hi2 & Hrc & _).
  rewrite Hrun in E2. injection E2 as <- <- ->.
  exists w, (evs1 ++ (EvMapNative stage :: evs2) ++ evs3).
  rewrite E. cbn [trace]. rewrite Ht1, <- !app_assoc.
  split; [|split].
  - unfold pipeline_success. cbn [from_opt]. reflexivity.
  - rewrite !mapped_stages_app. simpl. rewrite Hm1, Hm2, Hm3. reflexivity.
  - rewrite !invocations_app. simpl. rewrite Hi1, Hi2, Hi3. lia.
Qed.

(** X21. How a stage is handed the output of the stage before it.  A
    native stage gets it as standard input, and gets no standard input at
    all when there is no earlier stage or the earlier output is empty; no
    temporary file is made for it.  A delegated stage gets it as a
    temporary file, made also for an empty output, whose name replaces the
    arguments of a [display_file] or [cat] stage; without an earlier stage
    no file is made. *)
Theorem stage_input_handoff (stage : PipelineStage) (b : bool)
  (inp : option string) (temps : list string) st :
  exists r temps' w evs,
    run_stage stage b inp temps st
    = ((r, temps'), {| st_world := w;
                       trace := trace st ++ EvMapNative stage :: evs |})
    /\ (forall argv,
          _map_to_native_command stage inp b = Some argv ->
          evs = [EvProcess argv
                   match inp with
                   | Some d => if Py.is_empty d then None else Some d
                   | None => None
                   end]
          /\ temps' = temps)
    /\ (_map_to_native_command stage inp b = None ->
        match inp with
        | Some d =>
            evs = [EvTempFile (fst (mktemp R d (st_world st))) d;
                   EvExecutor
                     {| cmd_action := action stage;
                        cmd_args :=
                          if (action stage =? "display_file")
                             || (action stage =? "cat")
                          then [fst (mktemp R d (st_world st))]
                          else args stage |}]
            /\ temps' = temps ++ [fst (mktemp R d (st_world st))]
        | None =>
            evs = [EvExecutor {| cmd_action := action stage;
                                 cmd_args := args stage |}]
            /\ temps' = temps
        end).
Proof.
  unfold run_stage, bind, log, ret. cbn [st_world trace].
  destruct (_map_to_native_command stage inp b) as [argv|] eqn:Emap.
  - destruct (map_native_programs _ _ _ Emap) as (prog & rest & -> & _).
    match goal with
    | |- context [_execute_native_command ?c ?i ?s] =>
        destruct (native_command_run c i s) as (r & w & input & E & _)
    end.
    assert (Hin : input = match inp with
                          | Some d => if Py.is_empty d then None else Some d
                          | None => None
                          end).
    { unfold _execute_native_command, bind, log, lift, ret in E.
      cbn [st_world trace] in E.
      destruct (subprocess_run R (prog :: rest) (process_input inp)
                  (st_world st)) as [o w'].
      injection E as _ _ E. apply app_inv_head in E. injection E as E.
      rewrite <- E. unfold process_input, Py.truthy.
      destruct inp as [d|]; [destruct (Py.is_empty d)|]; reflexivity. }
    rewrite E. cbn [trace]. rewrite <- app_assoc. cbn [app].
    exists r, temps, w, [EvProcess (prog :: rest) input].
    split; [reflexivity|]. split; [|discriminate].
    intros argv H. injection H as <-. now rewrite Hin.
  - destruct inp as [d|].
    + unfold lift. cbn [st_world trace].
      destruct (mktemp R d (st_world st)) as [name w1]. cbn [fst].
      match goal with
      | |- context [_execute_single_command ?c ?s] =>
          destruct (single_command_run c s) as (r & w & E & _)
      end.
      rewrite E. cbn [trace]. rewrite <- !app_assoc. cbn [app].
      eexists r, _, w, _. split; [reflexivity|].
      split; [discriminate | auto].
    + match goal with
      | |- context [_execute_single_command ?c ?s] =>
          destruct (single_command_run c s) as (r & w & E & _)
      end.
      rewrite E. cbn [trace]. rewrite <- !app_assoc. cbn [app].
      eexists r, _, w, _. split; [reflexivity|].
      split; [discriminate | auto].
Qed.

End WithRuntime.

Lemma stages_executed_counts_witness :
  let pipeline := [mkStage "list_files" [] None;
                   mkStage "count_lines" [] None;
                   mkStage "sort_lines" [] None] in
  exists evs m,
    trace (snd (execute_pipeline pipeline Reference.initial_state))
    = trace Reference.initial_state ++ evs
    /\ stages_executed (fst (execute_pipeline pipeline Reference.initial_state))
       = Some m
    /\ invocations evs = m
    /\ mapped_stages evs = firstn m pipeline
    /\ m <= List.length pipeline
    /\ (success (fst (execute_pipeline pipeline Reference.initial_state))
        = true ->
        m = List.length pipeline
        /\ failed_stage (fst (execute_pipeline pipeline
                                Reference.initial_state)) = None)
    /\ (success (fst (execute_pipeline pipeline Reference.initial_state))
        = false ->
        1 <= m
        /\ failed_stage (fst (execute_pipeline pipeline
                                Reference.initial_state)) = Some (m - 1)).
Proof.
  apply (@stages_executed_counts Reference.simple_runtime
           [mkStage "list_files" [] None; mkStage "count_lines" [] None;
            mkStage "sort_lines" [] None] Reference.initial_state).
  simpl. lia.
Defined.

Lemma multi_stage_all_succeed_witness :
  exists w evs,
    execute_pipeline
      ([mkStage "list_files" [] None] ++ [mkStage "sort_lines" ["-r"] None])
      Reference.initial_state
    = ({| success := true; error := None; stdout := "file1.txt file2.txt";
          stderr := ""; returncode := Some 0%Z;
          stages_executed := Some (1 + 1); failed_stage := None |},
       {| st_world := w; trace := trace Reference.initial_state ++ evs |})
    /\ mapped_stages evs
       = [mkStage "list_files" [] None] ++ [mkStage "sort_lines" ["-r"] None]
    /\ invocations evs = 1 + 1.
Proof.
  refine (@multi_stage_all_succeed Reference.simple_runtime
            [mkStage "list_files" [] None] (mkStage "sort_lines" ["-r"] None)
            Reference.initial_state
            (@mkState Reference.simple_runtime tt
               [EvMapNative (mkStage "list_files" [] None);
                EvProcess ["ls"] None])
            (@mkState Reference.simple_runtime tt
               [EvMapNative (mkStage "list_files" [] None);
                EvProcess ["ls"] None;
                EvMapNative (mkStage "sort_lines" ["-r"] None);
                EvProcess ["sort"; "-r"] (Some "file1.txt file2.txt")])
            (Some "file1.txt file2.txt") [] []
            {| success := true; error := None;
               stdout := "file1.txt file2.txt"; stderr := "";
               returncode := Some 0%Z; stages_executed := None;
               failed_stage := None |}
            _ _ _ _).
  - simpl. lia.
  - eapply succeed_cons; [reflexivity | reflexivity | apply succeed_nil].
  - reflexivity.
  - reflexivity.
Defined.

End TraceFacts.

(* ===================================================================== *)
(** ** Temporary files when the hand-off can raise *)
(* ===================================================================== *)

Module HandoffFacts.
Import Exec ExecSpec TraceSpec ExecFacts TraceFacts Handoff.

Section WithRuntime.
Variable T : TempRuntime.
Implicit Types st : State (base T).

(** One iteration of the loop: the files it makes and the files it
    records. *)
Lemma run_stage_files stage b inp temps st :
  exists o temps' w evs,
    Handoff.run_stage T stage b inp temps st
    = ((o, temps'), {| st_world := w; trace := trace st ++ evs |})
    /\ unlinked evs = []
    /\ match o with
       | inr (FileLeft name _) => temps' = temps /\ created evs = [name]
       | _ => temps' = temps ++ created evs
       end.
Proof.
  unfold Handoff.run_stage, bind, log, ret. simpl.
  set (st0 := {| st_world := st_world st;
                 trace := trace st ++ [EvMapNative stage] |}).
  destruct (_map_to_native_command stage inp b) as [[|a argv]|] eqn:Emap.
  1, 3:
    destruct inp as [data|];
    [ unfold lift; simpl;
      destruct (try_mktemp T data (st_world st)) as [[name|[msg|name msg]] w1];
      [ match goal with
        | |- context [_execute_single_command ?c ?s] =>
            destruct (single_command_run c s) as (r & w & E & Hrc)
        end;
        rewrite E; simpl;
        exists (inl r), (temps ++ [name]), w,
          [EvMapNative stage; EvTempFile name data;
           EvExecutor
             {| cmd_action := action stage;
                cmd_args := if (action stage =? "display_file")
                               || (action stage =? "cat")
                            then [name] else args stage |}];
        rewrite <- ?app_assoc; simpl; repeat split; auto
      | simpl; exists (inr (NoFile msg)), temps, w1, [EvMapNative stage];
        simpl; rewrite app_nil_r; repeat split; auto
      | simpl; exists (inr (FileLeft name msg)), temps, w1,
          [EvMapNative stage; EvTempFile name data];
        rewrite <- !app_assoc; simpl; repeat split; auto ]
    | destruct (single_command_run
                  {| cmd_action := action stage; cmd_args := args stage |}
                  st0) as (r & w & E & Hrc);
      rewrite E; simpl;
      exists (inl r), temps, w,
        [EvMapNative stage;
         EvExecutor {| cmd_action := action stage;
                       cmd_args := args stage |}];
      rewrite <- ?app_assoc; simpl; rewrite app_nil_r;
      repeat split; auto ].
  destruct (native_command_run (a :: argv) inp st0)
    as (r & w & input & E & Hrc & Hin).
  rewrite E. simpl.
  exists (inl r), temps, w, [EvMapNative stage; EvProcess (a :: argv) input].
  rewrite <- ?app_assoc. simpl. rewrite app_nil_r. repeat split; auto.
Qed.

(** The loop: every file it has made is recorded, but for the file of a
    hand-off that raised after making it. *)
Lemma stages_loop_files rest : forall len i n inp temps st,
  exists e temps' w evs,
    Handoff.stages_loop T len i rest n inp temps st
    = ((e, temps'), {| st_world := w; trace := trace st ++ evs |})
    /\ unlinked evs = []
    /\ match e with
       | Raises (FileLeft name _) => temps' ++ [name] = temps ++ created evs
       | _ => temps' = temps ++ created evs
       end.
Proof.
  induction rest as [|stage rest IH]; intros len i n inp temps st.
  - exists (Returns (pipeline_success inp n)), temps, (st_world st), [].
    rewrite !app_nil_r. destruct st. simpl. auto.
  - cbn [Handoff.stages_loop]. unfold bind.
    destruct (run_stage_files stage (Nat.eqb i (len - 1)) inp temps st)
      as (o & temps1 & w1 & evs1 & E & Hu & Ht).
    rewrite E. destruct o as [r|[msg|name msg]].
    + destruct (success r) eqn:Hok; cbn [negb].
      * match goal with
        | |- context [Handoff.stages_loop T len (S i) rest ?n' ?inp' temps1 ?s] =>
            destruct (IH len (S i) n' inp' temps1 s)
              as (e & temps2 & w2 & evs2 & E2 & Hu2 & Ht2)
        end.
        rewrite E2. cbn [trace].
        exists e, temps2, w2, (evs1 ++ evs2).
        rewrite <- app_assoc. split; [reflexivity|].
        rewrite created_app, unlinked_app, Hu, Hu2.
        split; [reflexivity|]. subst temps1.
        rewrite app_assoc. exact Ht2.
      * unfold ret.
        exists (Returns (stage_failure r (n + 1) i)), temps1, w1, evs1.
        auto.
    + unfold ret. exists (Raises (NoFile msg)), temps1, w1, evs1. auto.
    + unfold ret. exists (Raises (FileLeft name msg)), temps1, w1, evs1.
      destruct Ht as [-> ->]. auto.
Qed.

(** X17. Temporary files and the [finally] clause.  [execute_pipeline]
    removes nothing before the last stage has run and ends by removing, in
    the order of creation, every temporary file it has recorded.  When it
    returns, and when [NamedTemporaryFile] itself raised, these are all the
    files it made.  When writing to a file just made raises, the exception
    leaves [execute_pipeline] and that one file is left behind: it is made
    last and never removed. *)
Theorem temp_files_removed_unless_write_raises
  (pipeline : list PipelineStage) st :
  exists evs removed,
    trace (snd (Handoff.execute_pipeline T pipeline st))
    = trace st ++ evs ++ map EvUnlink removed
    /\ unlinked evs = []
    /\ match fst (Handoff.execute_pipeline T pipeline st) with
       | Raises (FileLeft name _) => created evs = removed ++ [name]
       | _ => created evs = removed
       end.
Proof.
  destruct pipeline as [|s1 [|s2 rest]].
  - exists [], []. simpl. now rewrite app_nil_r.
  - cbn [Handoff.execute_pipeline]. unfold bind, ret.
    destruct (single_command_run
                {| cmd_action := action s1; cmd_args := args s1 |} st)
      as (r & w & E & _).
    rewrite E. cbn [fst snd trace].
    exists [EvExecutor {| cmd_action := action s1; cmd_args := args s1 |}],
      [].
    rewrite app_nil_r. auto.
  - cbn [Handoff.execute_pipeline].
    unfold Handoff._execute_multi_stage_pipeline, bind.
    destruct (stages_loop_files (s1 :: s2 :: rest)
                (List.length (s1 :: s2 :: rest)) 0 0 None [] st)
      as (e & temps & w & evs & E & Hu & Ht).
    rewrite E. cbn [fst snd].
    pose proof (cleanup_trace temps
                  {| st_world := w; trace := trace st ++ evs |}) as Hc.
    destruct (cleanup temps {| st_world := w; trace := trace st ++ evs |})
      as [[] st2].
    cbn [snd trace] in Hc. unfold ret. cbn [fst snd].
    exists evs, temps. rewrite Hc, <- app_assoc.
    split; [reflexivity|]. split; [exact Hu|].
    destruct e as [r|[msg|name msg]]; cbn [app] in Ht; auto.
Qed.

(** When the temporary-file primitive never raises, the run is the run
    of [Exec]. *)
Section Total.
Hypothesis Htotal : forall data w,
  try_mktemp T data w
  = (Written (fst (mktemp (base T) data w)), snd (mktemp (base T) data w)).

Lemma run_stage_total stage b inp temps st :
  Handoff.run_stage T stage b inp temps st
  = (let (rt, st') := Exec.run_stage stage b inp temps st in
     ((inl (fst rt), snd rt), st')).
Proof.
  unfold Handoff.run_stage, Exec.run_stage, bind, log, ret, lift. simpl.
  destruct (_map_to_native_command stage inp b) as [[|a argv]|];
    try (destruct inp as [data|];
         [ rewrite Htotal; simpl; destruct (mktemp (base T) data (st_world st));
           simpl;
           match goal with
           | |- context [_execute_single_command ?c ?s] =>
               destruct (_execute_single_command c s)
           end; reflexivity
         | match goal with
           | |- context [_execute_single_command ?c ?s] =>
               destruct (_execute_single_command c s)
           end; reflexivity ]).
  match goal with
  | |- context [_execute_native_command ?c ?i ?s] =>
      destruct (_execute_native_command c i s)
  end; reflexivity.
Qed.

Lemma stages_loop_total rest : forall len i n inp temps st,
  Handoff.stages_loop T len i rest n inp temps st
  = (let (rt, st') := Exec.stages_loop len i rest n inp temps st in
     ((Returns (fst rt), snd rt), st')).
Proof.
  induction rest as [|stage rest IH]; intros len i n inp temps st.
  - reflexivity.
  - cbn [Handoff.stages_loop Exec.stages_loop]. unfold bind.
    rewrite run_stage_total.
    destruct (Exec.run_stage stage (Nat.eqb i (len - 1)) inp temps st)
      as [[r temps1] st1].
    cbn [fst snd]. destruct (success r); cbn [negb]; [apply IH | reflexivity].
Qed.

Lemma execute_pipeline_total pipeline st :
  Handoff.execute_pipeline T pipeline st
  = (let (r, st') := Exec.execute_pipeline pipeline st in (Returns r, st')).
Proof.
  destruct pipeline as [|s1 [|s2 rest]].
  - reflexivity.
  - cbn [Handoff.execute_pipeline Exec.execute_pipeline]. unfold bind, ret.
    destruct (_execute_single_command _ st); reflexivity.
  - cbn [Handoff.execute_pipeline Exec.execute_pipeline].
    unfold Handoff._execute_multi_stage_pipeline,
      Exec._execute_multi_stage_pipeline, bind.
    rewrite stages_loop_total.
    destruct (Exec.stages_loop _ _ _ _ _ _ st) as [[r temps] st1].
    cbn [fst snd]. destruct (cleanup temps st1). reflexivity.
Qed.

End Total.

End WithRuntime.

(** On a full disk the file made for the second stage is never removed. *)
Example full_disk_leaves_file :
  Handoff.execute_pipeline full_disk_runtime
    [mkStage "list_files" [] None; mkStage "make_directory" ["out"] None]
    Reference.initial_state
  = (Raises (FileLeft "/tmp/tmpfile" "No space left on device"),
     @mkState Reference.simple_runtime tt
       [EvMapNative (mkStage "list_files" [] None);
        EvProcess ["ls"] None;
        EvMapNative (mkStage "make_directory" ["out"] None);
        EvTempFile "/tmp/tmpfile" "file1.txt file2.txt"]).
Proof. vm_compute. reflexivity. Qed.

End HandoffFacts.

(* ===================================================================== *)
(** ** Splitting: texts without a marker, and stages *)
(* ===================================================================== *)

Module StageFacts.
Import Py Re Spec PyFacts ReFacts Splitter SplitterFacts.

Lemma split_unmarked (text : string) :
  detect_pipeline text = false ->
  contains text special_token = false ->
  split_pipeline_stages text
  = if is_empty (strip text) then [] else [strip text].
Proof.
  intros Hd Hc. unfold split_pipeline_stages, substitute_indicators.
  rewrite substitute_no_match by (now apply detect_false_iff).
  rewrite (@split_no_sep _ _ Hc). cbn [map filter]. unfold truthy.
  destruct (is_empty (strip text)); reflexivity.
Qed.

(** X22. A text with no connective marker and without the separator
    token is one stage: the text without its surrounding whitespace, or no
    stage at all when the text is blank. *)
Theorem split_unmarked_text (text : string) :
  detect_pipeline text = false ->
  contains text special_token = false ->
  split_pipeline_stages text
  = if is_empty (strip text) then [] else [strip text].
Proof. apply split_unmarked. Qed.

Lemma split_unmarked_text_witness :
  split_pipeline_stages "  list files  "
  = if is_empty (strip "  list files  ") then []
    else [strip "  list files  "].
Proof.
  apply (@split_unmarked_text "  list files  "); vm_compute; reflexivity.
Defined.

(** X23. Splitting is stable: every stage that [split_pipeline_stages]
    returns is, split again, that one stage. *)
Theorem split_stage_is_stable (text stage : string) :
  In stage (split_pipeline_stages text) ->
  split_pipeline_stages stage = [stage].
Proof.
  intros Hin.
  pose proof (@stage_without_marker text stage Hin) as Hd.
  apply stage_of_segment in Hin as (Hne & seg & Hseg & ->).
  assert (Hc : contains (strip seg) special_token = false).
  { destruct (contains (strip seg) special_token) eqn:E; [|reflexivity].
    exfalso. apply (@stage_without_token text (strip seg)).
    - unfold split_pipeline_stages. apply filter_In. split.
      + apply in_map. exact Hseg.
      + now apply truthy_true.
    - now apply contains_iff. }
  rewrite (@split_unmarked _ Hd Hc), strip_idem.
  destruct (is_empty (strip seg)) eqn:E; [|reflexivity].
  apply is_empty_true in E. contradiction.
Qed.

Lemma split_stage_is_stable_witness :
  split_pipeline_stages "count lines" = ["count lines"].
Proof.
  apply (@split_stage_is_stable "list files and count lines" "count lines").
  vm_compute. auto.
Defined.

(** A blank text has no connective marker. *)
Lemma blank_no_marker text : blank text -> detect_pipeline text = false.
Proof.
  intros Hb. apply detect_false_iff, Forall_forall. intros q Hq.
  destruct (search q text) eqn:E; [|reflexivity]. exfalso.
  pose proof indicators_are_markers as HM. rewrite Forall_forall in HM.
  destruct (HM q Hq) as (vq & Hmarks & Hvq & _).
  unfold search in E. apply search_from_iff in E as (pre & rest & -> & Hm).
  apply (@matches_here_hits q vq Hmarks) in Hm as (v & Hin & Hh).
  rewrite Forall_forall in Hvq. destruct (Hvq v Hin) as [[Hhead _] _].
  unfold hit in Hh. apply andb_prop in Hh as [Hh _].
  apply andb_prop in Hh as [Hci _].
  pose proof (@ci_prefix_head _ _ Hci Hhead) as Hw.
  assert (Hrest : all_chars is_space rest = true).
  { clear -Hb. unfold blank in Hb.
    induction pre as [|c pre IH]; [exact Hb|].
    cbn [append all_chars] in Hb. apply andb_prop in Hb as [_ Hb]. auto. }
  apply blank_head in Hrest. congruence.
Qed.

End StageFacts.

(* ===================================================================== *)
(** ** parse_pipeline *)
(* ===================================================================== *)

Module PipelineFacts.
Import Py Spec PyFacts Parser Exec ExecSpec TraceSpec ExecFacts TraceFacts
  StageFacts.

Section WithParser.
Variable P : Type.
Variable parse_input : string -> P -> option ParsedDict * P.

Lemma parse_stages_subsequence texts : forall p,
  subsequence
    (map original_text (fst (parse_stages parse_input texts p)))
    (map Some texts).
Proof.
  induction texts as [|t texts IH]; intros p; cbn [parse_stages].
  - constructor.
  - destruct (parse_input t p) as [cmd p1].
    specialize (IH p1).
    destruct (parse_stages parse_input texts p1) as [pipeline p2].
    cbn [fst] in IH. cbn [map].
    destruct cmd as [[[a|] oargs]|]; cbn [fst];
      try (now apply subsequence_drop).
    destruct (negb (is_terminal a)); cbn [fst map];
      [now apply subsequence_keep | now apply subsequence_drop].
Qed.

(** X24. The stages of a parsed pipeline follow the stage texts: each
    stage carries the stage text it was parsed from as its original text,
    and the stages come in the order of their texts, some texts having no
    stage.  The stage texts are those of [split_pipeline_stages] when the
    text has a connective marker, and the text itself otherwise. *)
Theorem parsed_stages_follow_stage_texts (text : string) (p : P) :
  subsequence
    (map original_text (fst (parse_pipeline parse_input text p)))
    (map Some
       (if Splitter.detect_pipeline text
        then Splitter.split_pipeline_stages text
        else [text])).
Proof.
  unfold parse_pipeline.
  destruct (Splitter.detect_pipeline text); cbn [negb].
  - apply parse_stages_subsequence.
  - destruct (parse_input text p) as [[[[a|] oargs]|] p1]; cbn [fst map];
      repeat constructor.
Qed.

End WithParser.

Section WithNlp.
Variable N : Nlp.
Variable R : Runtime.

(** X25. A text without a connective marker is parsed as it is and its
    command delegated whatever the parser answered: the pipeline is the
    one stage made of the answer's action and arguments, and
    [execute_pipeline] hands it to the executor, also when the action is
    "unrecognized" or "suggest". *)
Theorem unsplit_text_is_delegated (text : string) (p : EnhancedParser)
  (r : Parsed) (st : State R) :
  Splitter.detect_pipeline text = false ->
  fst (Parser.parse_input N p text) = Some r ->
  fst (parse_pipeline (parse_input_dict N) text p)
  = [mkStage (parsed_action r)
       match r with Structured c => c_args c | _ => [] end (Some text)]
  /\ trace (snd (execute_pipeline
                   (fst (parse_pipeline (parse_input_dict N) text p)) st))
     = trace st
       ++ [EvExecutor
             {| cmd_action := parsed_action r;
                cmd_args := match r with
                            | Structured c => c_args c
                            | _ => []
                            end |}].
Proof.
  intros Hd Hr.
  assert (E : fst (parse_pipeline (parse_input_dict N) text p)
              = [mkStage (parsed_action r)
                   match r with Structured c => c_args c | _ => [] end
                   (Some text)]).
  { unfold parse_pipeline, parse_input_dict. rewrite Hd. cbn [negb].
    destruct (Parser.parse_input N p text) as [o p1]. cbn [fst] in Hr.
    subst o. cbn [option_map]. destruct r; reflexivity. }
  split; [exact E|]. rewrite E. cbn [execute_pipeline].
  now rewrite single_command_trace.
Qed.

(** X26. A blank text gives the empty pipeline, and the parser is left
    as it was. *)
Theorem parse_pipeline_blank (text : string) (p : EnhancedParser) :
  blank text -> parse_pipeline (parse_input_dict N) text p = ([], p).
Proof.
  intros Hb. unfold parse_pipeline, parse_input_dict, Parser.parse_input.
  rewrite (@blank_no_marker _ Hb). cbn [negb].
  apply strip_empty_iff in Hb. now rewrite Hb.
Qed.

End WithNlp.

Lemma unsplit_text_is_delegated_witness :
  fst (parse_pipeline (parse_input_dict Reference.simple_nlp) "xyz"
         Reference.fresh_parser)
  = [mkStage (parsed_action Unrecognized) [] (Some "xyz")]
  /\ trace (snd (execute_pipeline
                   (fst (parse_pipeline
                           (parse_input_dict Reference.simple_nlp) "xyz"
                           Reference.fresh_parser))
                   Reference.initial_state))
     = trace Reference.initial_state
       ++ [EvExecutor {| cmd_action := parsed_action Unrecognized;
                         cmd_args := [] |}].
Proof.
  apply (@unsplit_text_is_delegated Reference.simple_nlp
           Reference.simple_runtime "xyz" Reference.fresh_parser
           Unrecognized Reference.initial_state); vm_compute; reflexivity.
Defined.

Lemma parse_pipeline_blank_witness :
  parse_pipeline (parse_input_dict Reference.simple_nlp) "  "
    Reference.fresh_parser
  = ([], Reference.fresh_parser).
Proof.
  apply (@parse_pipeline_blank Reference.simple_nlp "  "
           Reference.fresh_parser).
  reflexivity.
Defined.

End PipelineFacts.

(* ===================================================================== *)
(** ** Letter case *)
(* ===================================================================== *)

Module CaseFacts.
Import Py Re Spec PyFacts ReFacts PipelineDetector Splitter DetectorFacts
  SplitterFacts.

Lemma is_space_lower_char c : is_space (lower_char c) = is_space c.
Proof.
  revert c. apply all_ascii.
  intros [] [] [] [] [] [] [] []; vm_compute; reflexivity.
Qed.

Lemma comma_lower_char c : Ascii.eqb "," (lower_char c) = Ascii.eqb "," c.
Proof.
  revert c. apply all_ascii.
  intros [] [] [] [] [] [] [] []; vm_compute; reflexivity.
Qed.

Lemma word_opt_lower p : word_opt (option_map lower_char p) = word_opt p.
Proof. destruct p; simpl; auto using is_word_lower_char. Qed.

Lemma head_lower s : head (lower s) = option_map lower_char (head s).
Proof. destruct s; reflexivity. Qed.

Lemma at_boundary_lower prev s :
  at_boundary (option_map lower_char prev) (lower s) = at_boundary prev s.
Proof.
  unfold at_boundary. now rewrite head_lower, !word_opt_lower.
Qed.

Lemma ci_eqb_lower c a : ci_eqb c (lower_char a) = ci_eqb c a.
Proof. unfold ci_eqb. now rewrite lower_char_idem. Qed.

Lemma is_empty_lower s : is_empty (lower s) = is_empty s.
Proof. destruct s; reflexivity. Qed.

Section Run.
Variables A B : Type.

Lemma spaces_lower (k : cont A) (k' : cont B) :
  (forall p t,
     is_some (k p t) = is_some (k' (option_map lower_char p) (lower t))) ->
  forall s prev,
    is_some (spaces prev s k)
    = is_some (spaces (option_map lower_char prev) (lower s) k').
Proof.
  intros Hk. induction s as [|c s IH]; intros prev; cbn [spaces lower].
  - apply (Hk prev "").
  - rewrite is_space_lower_char. destruct (is_space c).
    + specialize (IH (Some c)). cbn [option_map] in IH.
      pose proof (Hk prev (String c s)) as Hk'. cbn [lower] in Hk'.
      destruct (spaces (Some c) s k),
        (spaces (Some (lower_char c)) (lower s) k');
        simpl in IH; try discriminate; auto.
    + apply (Hk prev (String c s)).
Qed.

End Run.

(** Matching does not depend on the letter case of the text. *)
Lemma run_lower r : forall (A B : Type) (k : cont A) (k' : cont B),
  (forall p t,
     is_some (k p t) = is_some (k' (option_map lower_char p) (lower t))) ->
  forall prev s,
    is_some (run r prev s k)
    = is_some (run r (option_map lower_char prev) (lower s) k').
Proof.
  induction r as [|c| | | |r1 IH1 r2 IH2|r1 IH1 r2 IH2|r1 IH1];
    intros A B k k' Hk prev s; cbn [run].
  - apply Hk.
  - destruct s as [|a s]; [reflexivity|]. cbn [lower].
    rewrite ci_eqb_lower. destruct (ci_eqb c a); [|reflexivity].
    apply (Hk (Some a) s).
  - rewrite at_boundary_lower. destruct (at_boundary prev s); auto.
  - now apply spaces_lower.
  - destruct s as [|a s]; [reflexivity|]. cbn [lower].
    rewrite is_space_lower_char. destruct (is_space a); [|reflexivity].
    apply (@spaces_lower A B k k' Hk s (Some a)).
  - apply IH1. intros p t. now apply IH2.
  - specialize (IH1 A B k k' Hk prev s). specialize (IH2 A B k k' Hk prev s).
    destruct (run r1 prev s k),
      (run r1 (option_map lower_char prev) (lower s) k');
      simpl in IH1; try discriminate; auto.
  - specialize (IH1 A B k k' Hk prev s). specialize (Hk prev s).
    destruct (run r1 prev s k),
      (run r1 (option_map lower_char prev) (lower s) k');
      simpl in IH1; try discriminate; auto.
Qed.

Lemma matches_here_lower r prev s :
  matches_here r (option_map lower_char prev) (lower s)
  = matches_here r prev s.
Proof.
  unfold matches_here.
  change (is_some (run r (option_map lower_char prev) (lower s)
                     (fun _ _ => Some tt))
          = is_some (run r prev s (fun _ _ => Some tt))).
  symmetry. now apply run_lower.
Qed.

Lemma search_from_lower r s : forall prev,
  search_from r (option_map lower_char prev) (lower s)
  = search_from r prev s.
Proof.
  induction s as [|c s IH]; intros prev.
  - change (lower "") with "". cbn [search_from]. rewrite !orb_false_r.
    apply (matches_here_lower r prev "").
  - change (lower (String c s)) with (String (lower_char c) (lower s)).
    cbn [search_from].
    change (String (lower_char c) (lower s)) with (lower (String c s)).
    rewrite (matches_here_lower r prev (String c s)).
    now rewrite <- (IH (Some c)).
Qed.

Lemma search_lower r text : search r (lower text) = search r text.
Proof. apply (search_from_lower r text None). Qed.

Lemma lstrip_lower s : lstrip (lower s) = lower (lstrip s).
Proof.
  induction s as [|c s IH]; [reflexivity|]. cbn [lower lstrip].
  rewrite is_space_lower_char. destruct (is_space c); auto.
Qed.

Lemma rstrip_lower s : rstrip (lower s) = lower (rstrip s).
Proof.
  induction s as [|c s IH]; [reflexivity|]. cbn [lower rstrip].
  rewrite is_space_lower_char, IH, is_empty_lower.
  destruct (is_space c && is_empty (rstrip s)); reflexivity.
Qed.

Lemma strip_lower s : strip (lower s) = lower (strip s).
Proof. unfold strip. now rewrite lstrip_lower, rstrip_lower. Qed.

Lemma split_comma_lower s : forall n,
  split_go "," n (lower s) = map lower (split_go "," n s).
Proof.
  induction s as [|c s IH]; intros [|n]; cbn [lower split_go]; auto.
  cbn [prefix String.length Nat.sub]. rewrite comma_lower_char.
  rewrite (IH 0).
  destruct (Ascii.eqb "," c); cbn [andb]; [reflexivity|].
  destruct (split_go "," 0 s); reflexivity.
Qed.

Lemma comma_parts_lower text :
  comma_parts (lower text) = map lower (comma_parts text).
Proof.
  unfold comma_parts, split. rewrite split_comma_lower, !map_map.
  apply map_ext. intros s. apply strip_lower.
Qed.

Lemma filter_map_length (X Y : Type) (f : Y -> bool) (g : X -> Y) l :
  List.length (filter f (map g l))
  = List.length (filter (fun x => f (g x)) l).
Proof.
  induction l as [|x l IH]; [reflexivity|]. cbn [map filter].
  destruct (f (g x)); cbn [List.length]; now rewrite IH.
Qed.

(** X27. For the texts of this development, whose characters have the
    code points 0 to 255, detection does not depend on letter case:
    [is_pipeline] and [detect_pipeline] answer for a text what they answer
    for the text in lower case.  (On these code points [str.lower] maps a
    character to one character, and a character matches a letter of a
    pattern under [re.IGNORECASE] exactly when its lower case is that
    letter; neither holds for all of Unicode.) *)
Theorem latin1_detection_ignores_case (text : string) :
  is_pipeline (lower text) = is_pipeline text
  /\ detect_pipeline (lower text) = detect_pipeline text.
Proof.
  split; [|apply search_lower].
  rewrite !is_pipeline_unfold.
  assert (H1 : has_pipeline_pattern (lower text) = has_pipeline_pattern text).
  { unfold has_pipeline_pattern. apply existsb_same.
    intros p. apply search_lower. }
  assert (H2 : action_count (lower text) = action_count text).
  { unfold action_count. f_equal. apply filter_ext.
    intros w. apply search_lower. }
  assert (H3 : comma_criterion (lower text) = comma_criterion text).
  { unfold comma_criterion. rewrite comma_parts_lower, length_map.
    unfold action_parts. rewrite filter_map_length.
    replace (filter (fun x => is_action_part (lower x)) (comma_parts text))
      with (filter is_action_part (comma_parts text)); [reflexivity|].
    apply filter_ext. intros part. unfold is_action_part.
    apply existsb_same. intros p. symmetry. apply search_lower. }
  now rewrite H1, H2, H3.
Qed.

End CaseFacts.

(* ===================================================================== *)
(** ** The reasons for a pipeline classification *)
(* ===================================================================== *)

Module ClassificationFacts.
Import Py Re Spec PyFacts ReFacts PipelineDetector DetectorFacts.

Lemma filter_one_found (X : Type) (f : X -> bool) l :
  1 <= List.length (filter f l) ->
  exists i a, nth_error l i = Some a /\ f a = true.
Proof.
  induction l as [|x l IH]; cbn [filter]; [simpl; lia|].
  destruct (f x) eqn:Fx.
  - intros _. now exists 0, x.
  - intros H. destruct (IH H) as (i & a & Hi & Fa). now exists (S i), a.
Qed.

Lemma filter_two_found (X : Type) (f : X -> bool) l :
  2 <= List.length (filter f l) ->
  exists i j a b,
    i < j /\ nth_error l i = Some a /\ nth_error l j = Some b
    /\ f a = true /\ f b = true.
Proof.
  induction l as [|x l IH]; cbn [filter]; [simpl; lia|].
  destruct (f x) eqn:Fx.
  - cbn [List.length]. intros H.
    destruct (@filter_one_found X f l) as (j & b & Hj & Fb); [lia|].
    exists 0, (S j), x, b. repeat split; auto. lia.
  - intros H. destruct (IH H) as (i & j & a & b & Hij & Hi & Hj & Fa & Fb).
    exists (S i), (S j), a, b. repeat split; auto. lia.
Qed.

Lemma complex_action_words_distinct : NoDup complex_action_words.
Proof.
  unfold complex_action_words.
  repeat (constructor; [simpl; intuition discriminate|]). constructor.
Qed.

(** X28. A text is classified as a pipeline only for one of three
    reasons: one of the explicit patterns is found in it; or two different
    complex action words occur in it as whole words; or it has at least two
    commas and two of its comma-separated parts name an action. *)
Theorem is_pipeline_reasons (text : string) :
  is_pipeline text = true ->
  has_pipeline_pattern text = true
  \/ (exists w1 w2,
        In w1 complex_action_words /\ In w2 complex_action_words
        /\ w1 <> w2 /\ whole_word_in w1 text /\ whole_word_in w2 text)
  \/ (2 <= count_char "," text
      /\ exists i j pi pj,
           i <> j
           /\ nth_error (comma_parts text) i = Some pi
           /\ nth_error (comma_parts text) j = Some pj
           /\ action_shaped pi /\ action_shaped pj).
Proof.
  rewrite is_pipeline_unfold, !orb_true_iff.
  intros [[H|H]|H]; [now left| |].
  - right. left. apply Nat.leb_le in H. unfold action_count in H.
    apply filter_two_found in H as (i & j & a & b & Hij & Hi & Hj & Fa & Fb).
    pose proof complex_action_words_wordish as HW.
    rewrite Forall_forall in HW.
    pose proof (nth_error_In _ _ Hi) as Ia.
    pose proof (nth_error_In _ _ Hj) as Ib.
    exists a, b. repeat split; auto.
    + intros ->.
      pose proof complex_action_words_distinct as Hnd.
      rewrite NoDup_nth_error in Hnd.
      assert (i = j); [|lia].
      apply Hnd; [|congruence].
      apply nth_error_Some. congruence.
    + now apply (search_word_iff _ (HW a Ia)).
    + now apply (search_word_iff _ (HW b Ib)).
  - right. right. unfold comma_criterion in H.
    destruct (Nat.leb_spec 3 (List.length (comma_parts text))) as [Hlen|];
      [|discriminate].
    rewrite comma_parts_length in Hlen. split; [lia|].
    apply Nat.leb_le in H. unfold action_parts in H.
    apply filter_two_found in H as (i & j & a & b & Hij & Hi & Hj & Fa & Fb).
    exists i, j, a, b. repeat split; auto; try lia;
      now apply is_action_part_iff.
Qed.

Lemma is_pipeline_reasons_witness :
  has_pipeline_pattern "find big files sort them" = true
  \/ (exists w1 w2,
        In w1 complex_action_words /\ In w2 complex_action_words
        /\ w1 <> w2 /\ whole_word_in w1 "find big files sort them"
        /\ whole_word_in w2 "find big files sort them")
  \/ (2 <= count_char "," "find big files sort them"
      /\ exists i j pi pj,
           i <> j
           /\ nth_error (comma_parts "find big files sort them") i = Some pi
           /\ nth_error (comma_parts "find big files sort them") j = Some pj
           /\ action_shaped pi /\ action_shaped pj).
Proof.
  apply (@is_pipeline_reasons "find big files sort them").
  vm_compute. reflexivity.
Defined.

End ClassificationFacts.

(* ===================================================================== *)
(** ** The terminal loop *)
(* ===================================================================== *)

Module InterfaceFacts.
Import Py PyFacts Parser Interface LearningFacts ArgumentFacts.

Lemma shown_preview_on ui action pr :
  shown (display_command_preview ui action pr) = true ->
  show_command_preview ui = true
  /\ ~ In action ["unrecognized"; "suggest"; "error"]
  /\ (In action destructive_actions -> pr = true).
Proof.
  unfold display_command_preview.
  destruct (show_command_preview ui); cbn [negb]; [|discriminate].
  destruct (in_list action ["unrecognized"; "suggest"; "error"]) eqn:Et;
    [discriminate|].
  destruct (in_list action destructive_actions) eqn:Ed; cbn [shown].
  - intros ->. repeat split; auto.
    intros H. apply in_list_In in H. congruence.
  - intros _. repeat split; auto.
    + intros H. apply in_list_In in H. congruence.
    + intros H. apply in_list_In in H. congruence.
Qed.

Lemma shown_preview_off ui action pr :
  show_command_preview ui = false ->
  shown (display_command_preview ui action pr) = false.
Proof. unfold display_command_preview. now intros ->. Qed.

Section WithEnv.
Variable N : Nlp.
Variable E : Env.
Implicit Types t : AdvancedTerminal E.

(** [parse_input] records no feedback. *)
Lemma parse_input_feedback p text :
  successful_parses (learning_data (snd (parse_input N p text)))
  = successful_parses (learning_data p)
  /\ misinterpreted_commands (learning_data (snd (parse_input N p text)))
     = misinterpreted_commands (learning_data p)
  /\ user_corrections (learning_data (snd (parse_input N p text)))
     = user_corrections (learning_data p).
Proof.
  destruct (parse_input_cases N p text)
    as [H|[(evs & r & H & _)|(evs & a & _ & H)]]; rewrite H; cbn [snd];
    auto.
Qed.

Lemma collect_feedback_executed t user_input a :
  executed (collect_feedback t user_input a) = executed t.
Proof.
  unfold collect_feedback. destruct (learning_mode t); [|reflexivity].
  destruct (request_feedback a) as [[wc ca]|]; reflexivity.
Qed.

(** What a turn can add to the requests executed. *)
Lemma run_command_executed t user_input c a :
  (shown (display_command_preview (interface t) (c_action c) (proceed a))
   = false
   /\ run_command t user_input c a = t)
  \/ (shown (display_command_preview (interface t) (c_action c) (proceed a))
      = true
      /\ executed (run_command t user_input c a)
         = executed t ++ [Parsed_command c]).
Proof.
  unfold run_command.
  destruct (shown (display_command_preview (interface t) (c_action c)
                     (proceed a))); [right | now left].
  split; [reflexivity|]. unfold execute.
  destruct (execute_command E (Parsed_command c) (st_world t)) as [o w].
  destruct o as [[d| |s|tr rp]|msg];
    try (destruct (display_execution_results_raises c d));
    rewrite ?collect_feedback_executed; reflexivity.
Qed.

Lemma run_suggestion_executed t user_input sid a :
  run_suggestion t user_input sid a = t
  \/ exists action,
       sid = Some action
       /\ execute_suggestion a = true
       /\ shown (display_command_preview (interface t) action (proceed a))
          = true
       /\ executed (run_suggestion t user_input sid a)
          = executed t
            ++ [Confirmed_command action
                  (extract_relevant_entities E user_input)].
Proof.
  unfold run_suggestion. destruct sid as [action|]; [|now left].
  destruct (truthy action); [|now left].
  destruct (execute_suggestion a); [|now left].
  destruct (shown (display_command_preview (interface t) action (proceed a)))
    eqn:Es; [|now left].
  right. exists action. repeat split; auto. unfold execute.
  destruct (execute_command E _ (st_world t)) as [o w]. reflexivity.
Qed.

(** X29. With previews turned off nothing is executed.  The line
    "preview off" turns the previews off; and while they are off, a turn
    of the loop on any line hands nothing to [execute_command], leaves the
    world as it is and records no feedback. *)
Theorem preview_off_blocks_execution :
  (forall t a,
      show_command_preview (interface (turn N t "preview off" a)) = false)
  /\ (forall t user_input a,
        show_command_preview (interface t) = false ->
        executed (turn N t user_input a) = executed t
        /\ st_world (turn N t user_input a) = st_world t
        /\ successful_parses (learning_data (parser (turn N t user_input a)))
           = successful_parses (learning_data (parser t))
        /\ misinterpreted_commands
             (learning_data (parser (turn N t user_input a)))
           = misinterpreted_commands (learning_data (parser t))
        /\ user_corrections (learning_data (parser (turn N t user_input a)))
           = user_corrections (learning_data (parser t))).
Proof.
  split; [reflexivity|].
  intros t user_input a Hoff. unfold turn.
  destruct (in_list (lower user_input) ["exit"; "quit"; "bye"]); [now auto|].
  destruct (is_empty (strip user_input)); [now auto|].
  destruct (lower user_input =? "help"); [now auto|].
  destruct (handle_settings_command (interface t) user_input) as [handled ui].
  destruct handled; [now auto|].
  pose proof (parse_input_feedback (parser t) user_input) as Hfb.
  destruct (parse_input N (parser t) user_input) as [sc p]. cbn [snd] in Hfb.
  set (t1 := with_interface (with_parser t p) _).
  assert (H1 : executed t1 = executed t
               /\ st_world t1 = st_world t
               /\ successful_parses (learning_data (parser t1))
                  = successful_parses (learning_data (parser t))
               /\ misinterpreted_commands (learning_data (parser t1))
                  = misinterpreted_commands (learning_data (parser t))
               /\ user_corrections (learning_data (parser t1))
                  = user_corrections (learning_data (parser t)))
    by (cbn; tauto).
  assert (Hoff1 : show_command_preview (interface t1) = false)
    by exact Hoff.
  destruct sc as [r|]; [|exact H1].
  destruct (parsed_action r =? "unrecognized"); [exact H1|].
  destruct (parsed_action r =? "suggest").
  { unfold run_suggestion.
    destruct (match r with Suggest s _ => Some s | _ => None end)
      as [action|]; [|exact H1].
    destruct (truthy action); [|exact H1].
    destruct (execute_suggestion a); [|exact H1].
    now rewrite (@shown_preview_off _ _ _ Hoff1). }
  destruct (parsed_action r =? "error"); [exact H1|].
  destruct r as [| |c]; try exact H1.
  unfold run_command. now rewrite (@shown_preview_off _ _ _ Hoff1).
Qed.

(** X30. Whatever is executed was approved.  A turn of the loop hands at
    most one request to [execute_command], and only with previews on; the
    action of the request is never "unrecognized", "suggest" or "error"; a
    request to delete a file or a directory or to reset git is executed
    only when the user answered yes to "Proceed with this command?"; the
    request is either the command [parse_input] returned for the line, or
    the action of the suggestion it returned, and then only when the user
    accepted the suggestion. *)
Theorem executed_requests_were_approved t (user_input : string)
  (a : Answers) :
  executed (turn N t user_input a) = executed t
  \/ exists r,
       executed (turn N t user_input a) = executed t ++ [r]
       /\ show_command_preview (interface t) = true
       /\ ~ In (request_action r) ["unrecognized"; "suggest"; "error"]
       /\ (In (request_action r) destructive_actions -> proceed a = true)
       /\ match r with
          | Parsed_command c =>
              fst (parse_input N (parser t) user_input)
              = Some (Structured c)
          | Confirmed_command action args =>
              execute_suggestion a = true
              /\ exists phrase,
                   fst (parse_input N (parser t) user_input)
                   = Some (Suggest action phrase)
          end.
Proof.
  unfold turn.
  destruct (in_list (lower user_input) ["exit"; "quit"; "bye"]); [now left|].
  destruct (is_empty (strip user_input)); [now left|].
  destruct (lower user_input =? "help"); [now left|].
  destruct (handle_settings_command (interface t) user_input) as [handled ui].
  destruct handled; [now left|].
  destruct (parse_input N (parser t) user_input) as [sc p]. cbn [fst].
  set (t1 := with_interface (with_parser t p) _).
  destruct sc as [r|]; [|now left].
  destruct (parsed_action r =? "unrecognized"); [now left|].
  destruct (parsed_action r =? "suggest").
  { destruct (run_suggestion_executed t1 user_input
                match r with Suggest s _ => Some s | _ => None end a)
      as [->|(action & Hsid & Hacc & Hshown & Hex)]; [now left|].
    right. exists (Confirmed_command action
                     (extract_relevant_entities E user_input)).
    apply shown_preview_on in Hshown as (Hon & Hterm & Hdes).
    split; [exact Hex|]. split; [exact Hon|]. split; [exact Hterm|].
    split; [exact Hdes|]. split; [exact Hacc|].
    destruct r as [|s ph|c]; try discriminate.
    injection Hsid as ->. now exists ph. }
  destruct (parsed_action r =? "error"); [now left|].
  destruct r as [| |c]; try (now left).
  destruct (run_command_executed t1 user_input c a)
    as [[_ ->]|[Hshown Hex]]; [now left|].
  right. exists (Parsed_command c).
  apply shown_preview_on in Hshown as (Hon & Hterm & Hdes).
  split; [exact Hex|]. repeat split; auto.
Qed.

End WithEnv.

Lemma preview_off_blocks_execution_witness :
  let E := mkEnv (fun r (w : unit) =>
                    (Exec.Returned (Exec.VStr "done"), w))
             (fun _ => []) in
  let t := @mkTerminal E (mkInterface false true None)
             Reference.fresh_parser true true tt [] in
  let a := mkAnswers true true true "skip" in
  executed (turn Reference.simple_nlp
              (turn Reference.simple_nlp t "preview off" a) "list files" a)
  = executed (turn Reference.simple_nlp t "preview off" a)
  /\ executed (turn Reference.simple_nlp t "list files" a)
     = [Parsed_command
          (mkCommand "list_files" []
             [("nouns", []); ("proper_nouns", []); ("file_paths", []);
              ("git_branches", []); ("options", [])] "list files")].
Proof.
  split.
  - apply (proj2 (preview_off_blocks_execution Reference.simple_nlp
                    (mkEnv (fun r (w : unit) =>
                              (Exec.Returned (Exec.VStr "done"), w))
                       (fun _ => [])))).
    apply (proj1 (preview_off_blocks_execution Reference.simple_nlp
                    (mkEnv (fun r (w : unit) =>
                              (Exec.Returned (Exec.VStr "done"), w))
                       (fun _ => [])))).
  - vm_compute. reflexivity.
Defined.

End InterfaceFacts.
